(** * net_visualizer: the correlation engine of [net_visualizer/main.go]

    A shallow embedding of the line parser ([parseLine]), the noise filter
    ([IsValidLine]) and the body of the scanning loop of
    [createGraphFromStdin], followed by the properties of the
    specification that concern them.

    Conventions.
    - Go's [int] and [int64] are 64-bit signed integers; they are modelled
      as [Z].  The program performs no arithmetic on them: every value is
      produced by [strconv.Atoi] / [strconv.ParseInt], whose range check is
      written out in [ParseInt].
    - Go strings are byte strings; they are modelled as [string], and as
      [list ascii] inside the matcher.
    - Go maps are [gmap]s, the edge set [map[Edge]struct{}] is a [gset].
    - A [panic] is the [Panic] outcome of [result]. *)

From Stdlib Require Import ZArith String Ascii List Lia DecimalString.
From Stdlib Require DecimalPos DecimalZ.
From stdpp Require Import base decidable countable gmap list strings fin_maps.

Open Scope string_scope.
Open Scope list_scope.
Open Scope Z_scope.

(** ** Data model (main.go, lines 15-64) *)

Inductive Direction : Set :=
| Remote2Local
| Local2Remote.

Record InputLine : Set := mkInputLine {
  Dir         : Direction;
  RemoteIP    : string;
  RemotePort  : Z;
  LocalIP     : string;
  LocalPort   : Z;
  ProcessID   : Z;
  ProcessName : string
}.

Record NetworkEndpoint : Set := mkNetworkEndpoint {
  ne_IP   : string;
  ne_Port : Z
}.

Record ProcessEndpoint : Set := mkProcessEndpoint {
  PID  : Z;
  Port : Z
}.

Record Edge : Set := mkEdge {
  Source : ProcessEndpoint;
  Dest   : ProcessEndpoint
}.

#[global] Instance Direction_eq_dec : EqDecision Direction.
Proof. solve_decision. Defined.

#[global] Instance InputLine_eq_dec : EqDecision InputLine.
Proof. solve_decision. Defined.

#[global] Instance NetworkEndpoint_eq_dec : EqDecision NetworkEndpoint.
Proof. solve_decision. Defined.

#[global] Instance NetworkEndpoint_countable : Countable NetworkEndpoint.
Proof.
  refine (inj_countable' (fun e => (ne_IP e, ne_Port e))
                         (fun p => mkNetworkEndpoint p.1 p.2) _).
  by intros [].
Defined.

#[global] Instance ProcessEndpoint_eq_dec : EqDecision ProcessEndpoint.
Proof. solve_decision. Defined.

#[global] Instance ProcessEndpoint_countable : Countable ProcessEndpoint.
Proof.
  refine (inj_countable' (fun e => (PID e, Port e))
                         (fun p => mkProcessEndpoint p.1 p.2) _).
  by intros [].
Defined.

#[global] Instance Edge_eq_dec : EqDecision Edge.
Proof. solve_decision. Defined.

#[global] Instance Edge_countable : Countable Edge.
Proof.
  refine (inj_countable' (fun e => (Source e, Dest e))
                         (fun p => mkEdge p.1 p.2) _).
  by intros [].
Defined.

(** ** The regular expressions (main.go, lines 67-68)

    Both patterns are a sequence of literals and of capture groups holding
    a greedy one-or-more repetition of a character class, so the pattern
    language is restricted to that.  Go's [regexp] finds the leftmost
    match and, among the matches that start there, the one a backtracking
    matcher finds first; a greedy repetition tries the longest run first.
    [.] is every character but a newline, [\d] is an ASCII digit.

    Go matches [.] against code points of the UTF-8 text, the matcher
    below against bytes.  The groups are the same: every group of the two
    patterns is delimited by ASCII literals and digits, which never occur
    inside a multi-byte sequence, and a byte that is no valid UTF-8 counts
    as one character in Go too. *)

Inductive charclass : Set :=
| AnyChar
| Digit.

Inductive item : Set :=
| Lit (l : list ascii)
| Cap (c : charclass).

Definition is_digit (a : ascii) : bool :=
  ((48 <=? nat_of_ascii a) && (nat_of_ascii a <=? 57))%nat.

Definition newline : ascii := ascii_of_nat 10.

Definition is_char (c : ascii) (a : ascii) : bool := Ascii.eqb a c.

Definition in_class (c : charclass) (a : ascii) : bool :=
  match c with
  | AnyChar => negb (Ascii.eqb a newline)
  | Digit => is_digit a
  end.

Fixpoint strip_prefix (l s : list ascii) : option (list ascii) :=
  match l, s with
  | [], _ => Some s
  | a :: l', b :: s' => if Ascii.eqb a b then strip_prefix l' s' else None
  | _ :: _, [] => None
  end.

(** The outcome of matching a pattern at the head of a text: the captures,
    in order, and the text left after the match. *)
Definition mresult : Set := (list (list ascii) * list ascii)%type.

(** [greedy p k acc s]: one or more characters of class [p] from [s], the
    longest run first, then the continuation [k]; [acc] is the run read so
    far, reversed. *)
Fixpoint greedy (p : ascii -> bool) (k : list ascii -> option mresult)
         (acc s : list ascii) : option mresult :=
  match s with
  | [] => None
  | a :: s' =>
      if p a then
        match greedy p k (a :: acc) s' with
        | Some r => Some r
        | None =>
            match k s' with
            | Some (caps, rest) => Some (rev (a :: acc) :: caps, rest)
            | None => None
            end
        end
      else None
  end.

Fixpoint match_here (re : list item) : list ascii -> option mresult :=
  match re with
  | [] => fun s => Some ([], s)
  | Lit l :: re' =>
      fun s => match strip_prefix l s with
               | Some s' => match_here re' s'
               | None => None
               end
  | Cap c :: re' => greedy (in_class c) (match_here re') []
  end.

(** Leftmost match: the first start position at which the pattern matches.
    The result is the matched text followed by the captures, as Go's
    [FindStringSubmatch] returns them; [None] is Go's nil slice. *)
Fixpoint find_from (re : list item) (s : list ascii) : option (list (list ascii)) :=
  match match_here re s with
  | Some (caps, rest) => Some (take (length s - length rest)%nat s :: caps)
  | None =>
      match s with
      | [] => None
      | _ :: s' => find_from re s'
      end
  end.

Definition FindStringSubmatch (re : list item) (line : string) : list string :=
  match find_from re (list_ascii_of_string line) with
  | Some ms => map string_of_list_ascii ms
  | None => []
  end.

Definition lit (s : string) : item := Lit (list_ascii_of_string s).

(** [(.+):(\d+)<-(.+):(\d+)\|PID=(\d+) CMD=(.+)] *)
Definition regexLocalToRemote : list item :=
  [Cap AnyChar; lit ":"; Cap Digit; lit "<-"; Cap AnyChar; lit ":"; Cap Digit;
   lit "|PID="; Cap Digit; lit " CMD="; Cap AnyChar].

(** [(.+):(\d+)->(.+):(\d+)\|PID=(\d+) CMD=(.+)] *)
Definition regexRemoteToLocal : list item :=
  [Cap AnyChar; lit ":"; Cap Digit; lit "->"; Cap AnyChar; lit ":"; Cap Digit;
   lit "|PID="; Cap Digit; lit " CMD="; Cap AnyChar].

(** ** strconv (Go standard library)

    [strconv.ParseInt(s, 10, 64)], and [strconv.Atoi] on a platform whose
    [int] has 64 bits: an optional sign, then one or more decimal digits;
    a value outside the signed 64-bit range is an error. *)

Definition MaxInt64 : Z := 9223372036854775807.
Definition MinInt64 : Z := -9223372036854775808.

Definition digit_val (a : ascii) : Z := Z.of_nat (nat_of_ascii a) - 48.

Definition digits_val (ds : list ascii) : Z :=
  fold_left (fun acc a => 10 * acc + digit_val a) ds 0.

Definition parse_digits (ds : list ascii) : option Z :=
  match ds with
  | [] => None
  | _ => if forallb is_digit ds then Some (digits_val ds) else None
  end.

Definition ParseInt (s : string) : option Z :=
  let cs := list_ascii_of_string s in
  let '(neg, ds) :=
    match cs with
    | c :: ds =>
        if is_char "+" c then (false, ds)
        else if is_char "-" c then (true, ds)
        else (false, cs)
    | [] => (false, cs)
    end in
  match parse_digits ds with
  | None => None
  | Some v =>
      let n := if neg then - v else v in
      if (MinInt64 <=? n) && (n <=? MaxInt64) then Some n else None
  end.

Definition Atoi (s : string) : option Z := ParseInt s.

(** ** parseLine (main.go, lines 70-105) *)

(** [matches[i]] *)
Definition sub (matches : list string) (i : nat) : string :=
  nth i matches "".

Definition parseLine (line : string) : option InputLine :=
  let m1 := FindStringSubmatch regexLocalToRemote line in
  let m2 := FindStringSubmatch regexRemoteToLocal line in
  let sel :=
    if (0 <? length m1)%nat then Some (Local2Remote, m1)
    else if (0 <? length m2)%nat then Some (Remote2Local, m2)
    else None in
  match sel with
  | None => None
  | Some (dir, matches) =>
      match Atoi (sub matches 2) with
      | None => None
      | Some rport =>
          match Atoi (sub matches 4) with
          | None => None
          | Some lport =>
              match ParseInt (sub matches 5) with
              | None => None
              | Some pid =>
                  Some (mkInputLine dir (sub matches 1) rport
                                    (sub matches 3) lport pid (sub matches 6))
              end
          end
      end
  end.

(** ** net.ParseIP and net.IPNet.Contains (Go standard library)

    The [net] package is not part of the repository; what [IsValidLine]
    uses of it is modelled after the standard library ([net.ParseIP] is
    [netip.ParseAddr] with zoned addresses refused).  A [net.IP] is a byte
    slice: here a list of bytes, the nil slice being the empty list. *)

Definition IP : Set := list Z.

(** The body of the loop of [parseIPv4Fields]: [first] is [i == 0],
    [prevdot] is [s[i-1] == '.'], [fields] holds the [pos] octets read. *)
Fixpoint parseIPv4Fields (s : list ascii) (first prevdot : bool)
         (val digLen : Z) (fields : list Z) : option (list Z) :=
  match s with
  | [] => if (length fields <? 3)%nat then None else Some (fields ++ [val])
  | c :: s' =>
      if is_digit c then
        if (digLen =? 1) && (val =? 0) then None
        else
          let val' := val * 10 + digit_val c in
          if 255 <? val' then None
          else parseIPv4Fields s' false false val' (digLen + 1) fields
      else if is_char "." c then
        if first || (match s' with [] => true | _ => false end) || prevdot
        then None
        else if (length fields =? 3)%nat then None
        else parseIPv4Fields s' false true 0 0 (fields ++ [val])
      else None
  end.

Definition parseIPv4 (s : list ascii) : option (list Z) :=
  parseIPv4Fields s true false 0 0 [].

Definition hex_val (c : ascii) : option Z :=
  let n := nat_of_ascii c in
  if ((48 <=? n) && (n <=? 57))%nat then Some (Z.of_nat n - 48)
  else if ((97 <=? n) && (n <=? 102))%nat then Some (Z.of_nat n - 97 + 10)
  else if ((65 <=? n) && (n <=? 70))%nat then Some (Z.of_nat n - 65 + 10)
  else None.

(** The inner loop of [parseIPv6]: the leading run of hexadecimal digits
    of [s], its value and what follows; a run of more than four digits is
    an error. [off] counts the digits read. *)
Fixpoint hex_run (s : list ascii) (off : nat) (acc : Z)
  : option (nat * Z * list ascii) :=
  match s with
  | [] => Some (off, acc, [])
  | c :: s' =>
      match hex_val c with
      | Some d =>
          if (3 <? off)%nat then None
          else hex_run s' (S off) (Z.shiftl acc 4 + d)
      | None => Some (off, acc, s)
      end
  end.

(** The outer loop [for i < 16] of [parseIPv6]; [ip] holds the [i] bytes
    written so far.  Every turn writes at least two bytes, so eight turns
    are enough.  The result is the state at the exit of the loop. *)
Fixpoint parseIPv6_loop (fuel : nat) (s : list ascii) (ip : list Z)
         (ellipsis : option nat) : option (list ascii * list Z * option nat) :=
  match fuel with
  | O => Some (s, ip, ellipsis)
  | S fuel' =>
      if (16 <=? length ip)%nat then Some (s, ip, ellipsis)
      else
        match hex_run s 0 0 with
        | None => None
        | Some (O, _, _) => None
        | Some (_, acc, rest) =>
            match rest with
            | "."%char :: _ =>
                if (match ellipsis with None => true | Some _ => false end)
                   && negb (length ip =? 12)%nat then None
                else if (16 <? length ip + 4)%nat then None
                else
                  match parseIPv4 s with
                  | None => None
                  | Some ip4 => Some ([], ip ++ ip4, ellipsis)
                  end
            | _ =>
                let ip' := ip ++ [Z.shiftr acc 8; Z.land acc 255] in
                match rest with
                | [] => Some ([], ip', ellipsis)
                | c :: s1 =>
                    if negb (is_char ":" c) then None
                    else
                      match s1 with
                      | [] => None
                      | c1 :: s2 =>
                          if is_char ":" c1 then
                            match ellipsis with
                            | Some _ => None
                            | None =>
                                match s2 with
                                | [] => Some ([], ip', Some (length ip'))
                                | _ => parseIPv6_loop fuel' s2 ip' (Some (length ip'))
                                end
                            end
                          else parseIPv6_loop fuel' s1 ip' ellipsis
                      end
                end
            end
        end
  end.

Definition IPv6zero : IP := replicate 16 0.

(** [parseIPv6], for an address without zone ([net.ParseIP] refuses the
    others, see [ParseIP]). *)
Definition parseIPv6 (s : list ascii) : option (list Z) :=
  let after :=
    match s with
    | ":"%char :: ":"%char :: s' =>
        match s' with
        | [] => inl IPv6zero
        | _ => inr (s', Some O)
        end
    | _ => inr (s, None)
    end in
  match after with
  | inl ip => Some ip
  | inr (s0, ellipsis0) =>
      match parseIPv6_loop 8 s0 [] ellipsis0 with
      | None => None
      | Some (_ :: _, _, _) => None
      | Some ([], ip, ellipsis) =>
          if (length ip <? 16)%nat then
            match ellipsis with
            | None => None
            | Some e =>
                Some (take e ip ++ replicate (16 - length ip) 0 ++ drop e ip)
            end
          else
            match ellipsis with
            | Some _ => None
            | None => Some ip
            end
      end
  end.

Definition v4InV6Prefix : list Z := [0; 0; 0; 0; 0; 0; 0; 0; 0; 0; 255; 255].

(** [net.IPv4(a, b, c, d)] *)
Definition IPv4 (a b c d : Z) : IP := v4InV6Prefix ++ [a; b; c; d].

(** [netip.ParseAddr]: the first of ['.'], [':'] and ['%'] decides. *)
Fixpoint ParseAddr_scan (whole s : list ascii) : option (list Z) :=
  match s with
  | [] => None
  | c :: s' =>
      if is_char "." c then
        match parseIPv4 whole with
        | Some f => Some (v4InV6Prefix ++ f)
        | None => None
        end
      else if is_char ":" c then
        if existsb (is_char "%") whole then None else parseIPv6 whole
      else if is_char "%" c then None
      else ParseAddr_scan whole s'
  end.

Definition ParseIP (s : string) : IP :=
  let cs := list_ascii_of_string s in
  match ParseAddr_scan cs cs with
  | Some ip => ip
  | None => []
  end.

(** [ip.To4()] *)
Definition To4 (ip : IP) : IP :=
  if (length ip =? 4)%nat then ip
  else if (length ip =? 16)%nat
          && forallb (Z.eqb 0) (take 10 ip)
          && (nth 10 ip 0 =? 255) && (nth 11 ip 0 =? 255)
       then drop 12 ip
       else [].

(** [net.CIDRMask(ones, bits)] *)
Fixpoint CIDRMask_bytes (l : nat) (n : Z) : list Z :=
  match l with
  | O => []
  | S l' =>
      if 8 <=? n then 255 :: CIDRMask_bytes l' (n - 8)
      else Z.land (Z.lnot (Z.shiftr 255 n)) 255 :: CIDRMask_bytes l' 0
  end.

Definition CIDRMask (ones bits : Z) : list Z :=
  if negb ((bits =? 32) || (bits =? 128)) then []
  else if (ones <? 0) || (bits <? ones) then []
  else CIDRMask_bytes (Z.to_nat (bits / 8)) ones.

Record IPNet : Set := mkIPNet {
  net_IP   : IP;
  net_Mask : list Z
}.

Definition networkNumberAndMask (n : IPNet) : IP * list Z :=
  let ip := match To4 (net_IP n) with
            | [] => net_IP n
            | x => x
            end in
  if negb ((length ip =? 4) || (length ip =? 16))%nat then ([], [])
  else
    let m := net_Mask n in
    if (length m =? 4)%nat then
      if (length ip =? 4)%nat then (ip, m) else ([], [])
    else if (length m =? 16)%nat then
      if (length ip =? 4)%nat then (ip, drop 12 m) else (ip, m)
    else ([], []).

Fixpoint masked_eq (nn m ip : list Z) : bool :=
  match nn, m, ip with
  | a :: nn', b :: m', c :: ip' =>
      (Z.land a b =? Z.land c b) && masked_eq nn' m' ip'
  | _, _, _ => true
  end.

(** [n.Contains(ip)] *)
Definition Contains (n : IPNet) (ip : IP) : bool :=
  let '(nn, m) := networkNumberAndMask n in
  let ip := match To4 ip with
            | [] => ip
            | x => x
            end in
  if negb (length ip =? length nn)%nat then false
  else masked_eq nn m ip.

(** ** IsValidLine (main.go, lines 109-130) *)

Definition loopbackNet : IPNet := mkIPNet (IPv4 127 0 0 0) (CIDRMask 8 32).

Definition IsValidLine (line : InputLine) : bool :=
  if (LocalPort line =? 0) || (RemotePort line =? 0) then false
  else
    let localIP := ParseIP (LocalIP line) in
    let remoteIP := ParseIP (RemoteIP line) in
    if Contains loopbackNet localIP || Contains loopbackNet remoteIP then false
    else if String.eqb (ProcessName line) "k3s-server" then false
    else true.

(** ** Outcomes: a value, or a [panic] with its message *)

Inductive result (A : Type) : Type :=
| Ok (a : A)
| Panic (msg : string).

Arguments Ok {A} a.
Arguments Panic {A} msg.

#[global] Instance result_ret : MRet result := fun A a => Ok a.

#[global] Instance result_bind : MBind result :=
  fun A B f r => match r with
                 | Ok a => f a
                 | Panic msg => Panic msg
                 end.

(** ** The dot graph (github.com/emicklei/dot)

    The rendering library is not part of the repository.  What the loop
    uses of it: [graph.Node(id)] returns the node made with this id, or
    makes it; [n.Edge(to, label)] appends an edge to the graph [n] belongs
    to.  A [dot.Node] is a handle: the id and the graph it belongs to.  The
    zero [dot.Node] (what a missing map entry yields) belongs to no graph:
    drawing an edge from it dereferences a nil pointer, drawing an edge to
    it appends an edge to the empty id. *)

Record Node : Set := mkNode {
  node_graph : bool;   (* false: the nil graph pointer of the zero Node *)
  node_id    : string
}.

Definition Node_zero : Node := mkNode false "".

Record Graph : Set := mkGraph {
  g_nodes : list string;                       (* ids, in creation order *)
  g_edges : list (string * string * string)   (* from id, to id, label *)
}.

Definition NewGraph : Graph := mkGraph [] [].

Definition Graph_Node (g : Graph) (id : string) : Graph * Node :=
  if bool_decide (id ∈ g_nodes g) then (g, mkNode true id)
  else (mkGraph (g_nodes g ++ [id]) (g_edges g), mkNode true id).

Definition Node_Edge (g : Graph) (from to : Node) (label : string) : result Graph :=
  if node_graph from
  then Ok (mkGraph (g_nodes g) (g_edges g ++ [(node_id from, node_id to, label)]))
  else Panic "invalid memory address or nil pointer dereference".

#[global] Instance Node_eq_dec : EqDecision Node.
Proof. solve_decision. Defined.

(** ** The stores of createGraphFromStdin (main.go, lines 46-52, 134-139) *)

Record ProcessEndpoints : Set := mkProcessEndpoints {
  pe_ProcessID   : Z;
  pe_ProcessName : string;
  pe_LocalIP     : string;
  pe_LocalPorts  : list Z;
  pe_DotNode     : Node
}.

(** The zero value, which indexing [nodes] with an absent key yields. *)
Definition ProcessEndpoints_zero : ProcessEndpoints :=
  mkProcessEndpoints 0 "" "" [] Node_zero.

#[global] Instance ProcessEndpoints_eq_dec : EqDecision ProcessEndpoints.
Proof. solve_decision. Defined.

Record State : Type := mkState {
  graph          : Graph;
  nodes          : gmap Z ProcessEndpoints;
  knownEndpoints : gmap NetworkEndpoint Z;
  edges          : gset Edge
}.

Definition initState : State := mkState NewGraph ∅ ∅ ∅.

(** [%d] of [fmt.Sprintf] *)
Definition fmt_d (z : Z) : string := NilZero.string_of_int (Z.to_int z).

Definition nl : string := String newline EmptyString.

(** [slices.IndexFunc] *)
Fixpoint IndexFunc {A : Type} (l : list A) (f : A -> bool) : Z :=
  match l with
  | [] => -1
  | x :: l' =>
      if f x then 0
      else let i := IndexFunc l' f in if i =? -1 then -1 else i + 1
  end.

(** ** The body of the scanning loop (main.go, lines 142-253) *)

(** [fmt.Sprintf("PID=%d\nName=%s\nIP=%s", ...)] of line 164. *)
Definition nodeLabel (parsedLine : InputLine) : string :=
  "PID=" +:+ fmt_d (ProcessID parsedLine) +:+ nl +:+
  "Name=" +:+ ProcessName parsedLine +:+ nl +:+
  "IP=" +:+ LocalIP parsedLine.

(** Lines 155-186: is the PID of this line known or not. *)
Definition upsertNode (s : State) (parsedLine : InputLine) : result State :=
  match nodes s !! ProcessID parsedLine with
  | None =>
      let '(g, dn) := Graph_Node (graph s) (nodeLabel parsedLine) in
      Ok (mkState g
            (<[ProcessID parsedLine :=
                 mkProcessEndpoints (ProcessID parsedLine) (ProcessName parsedLine)
                   (LocalIP parsedLine) [LocalPort parsedLine] dn]> (nodes s))
            (knownEndpoints s) (edges s))
  | Some n =>
      if negb (String.eqb (pe_LocalIP n) (LocalIP parsedLine)) then
        Panic ("assumption not respected: " +:+ pe_LocalIP n +:+ " " +:+ LocalIP parsedLine)
      else if negb (pe_ProcessID n =? ProcessID parsedLine) then
        Panic "logical bug??"
      else if negb (String.eqb (pe_ProcessName n) (ProcessName parsedLine)) then
        Panic "PID reuse??"
      else
        let portIdx := IndexFunc (pe_LocalPorts n) (fun c => c =? LocalPort parsedLine) in
        let n' :=
          if portIdx =? -1 then
            mkProcessEndpoints (pe_ProcessID n) (pe_ProcessName n) (pe_LocalIP n)
              (pe_LocalPorts n ++ [LocalPort parsedLine]) (pe_DotNode n)
          else n in
        Ok (mkState (graph s) (<[ProcessID parsedLine := n']> (nodes s))
              (knownEndpoints s) (edges s))
  end.

(** Lines 188-202: register the local endpoint to the local PID. *)
Definition registerLocalEndpoint (s : State) (parsedLine : InputLine) : result State :=
  let localEp := mkNetworkEndpoint (LocalIP parsedLine) (LocalPort parsedLine) in
  match knownEndpoints s !! localEp with
  | None =>
      Ok (mkState (graph s) (nodes s)
            (<[localEp := ProcessID parsedLine]> (knownEndpoints s)) (edges s))
  | Some e =>
      if negb (e =? ProcessID parsedLine) then Panic "logical bug??" else Ok s
  end.

(** Lines 213-228: the edge of a line whose remote endpoint belongs to
    [remotePID]. *)
Definition makeEdge (parsedLine : InputLine) (remotePID : Z) : Edge :=
  let edge :=
    mkEdge (mkProcessEndpoint (ProcessID parsedLine) (LocalPort parsedLine))
           (mkProcessEndpoint remotePID (RemotePort parsedLine)) in
  match Dir parsedLine with
  | Remote2Local => mkEdge (Dest edge) (Source edge)
  | Local2Remote => edge
  end.

(** Lines 204-244: draw an edge when the PID of the remote endpoint is
    known. *)
Definition drawEdge (s : State) (parsedLine : InputLine) : result State :=
  let remoteEp := mkNetworkEndpoint (RemoteIP parsedLine) (RemotePort parsedLine) in
  match knownEndpoints s !! remoteEp with
  | None => Ok s
  | Some remotePID =>
      let edge := makeEdge parsedLine remotePID in
      if bool_decide (edge ∈ edges s) then Ok s
      else
        let sourceNode := default ProcessEndpoints_zero (nodes s !! PID (Source edge)) in
        let destNode := default ProcessEndpoints_zero (nodes s !! PID (Dest edge)) in
        let label :=
          pe_LocalIP sourceNode +:+ ":" +:+ fmt_d (Port (Source edge)) +:+ "->" +:+
          pe_LocalIP destNode +:+ ":" +:+ fmt_d (Port (Dest edge)) in
        g ← Node_Edge (graph s) (pe_DotNode sourceNode) (pe_DotNode destNode) label;
        Ok (mkState g (nodes s) (knownEndpoints s) ({[edge]} ∪ edges s))
  end.

(** What the loop does with an observation that passed the filter. *)
Definition processObservation (s : State) (parsedLine : InputLine) : result State :=
  s1 ← upsertNode s parsedLine;
  s2 ← registerLocalEndpoint s1 parsedLine;
  drawEdge s2 parsedLine.

(** One turn of the loop, for one line of the input. *)
Definition processLine (s : State) (line : string) : result State :=
  match parseLine line with
  | None => Ok s
  | Some parsedLine =>
      if negb (IsValidLine parsedLine) then Ok s
      else processObservation s parsedLine
  end.

(** The loop over the lines that the scanner yields. *)
Fixpoint scanLines (s : State) (lines : list string) : result State :=
  match lines with
  | [] => Ok s
  | line :: lines' => s' ← processLine s line; scanLines s' lines'
  end.

(** [createGraphFromStdin], as a function of the lines of the standard
    input; the Go function returns the [graph] of the final state. *)
Definition createGraphFromStdin (lines : list string) : result State :=
  scanLines initState lines.

Definition example_lines : list string :=
  ["10.0.0.5:8080<-10.0.0.9:443|PID=100 CMD=svcA";
   "10.0.0.9:443->10.0.0.5:8080|PID=200 CMD=svcB"].

(** ** A declarative reading of the patterns *)

(** [Matches re s caps rest]: the text [s] starts with a match of [re]
    whose captures are [caps], and [rest] follows the match. *)
Fixpoint Matches (re : list item) (s : list ascii)
         (caps : list (list ascii)) (rest : list ascii) : Prop :=
  match re with
  | [] => caps = [] /\ s = rest
  | Lit l :: re' => exists s', s = l ++ s' /\ Matches re' s' caps rest
  | Cap c :: re' =>
      exists w caps' s',
        w <> [] /\ forallb (in_class c) w = true /\ s = w ++ s'
        /\ caps = w :: caps' /\ Matches re' s' caps' rest
  end.

(** ** The example scenario of the specification *)

Definition svcA_id : string := "PID=100" +:+ nl +:+ "Name=svcA" +:+ nl +:+ "IP=10.0.0.9".
Definition svcB_id : string := "PID=200" +:+ nl +:+ "Name=svcB" +:+ nl +:+ "IP=10.0.0.5".

(** The state the two example lines lead to. *)
Definition example_final : State :=
  mkState
    (mkGraph [svcA_id; svcB_id] [(svcA_id, svcB_id, "10.0.0.9:443->10.0.0.5:8080")])
    (<[100 := mkProcessEndpoints 100 "svcA" "10.0.0.9" [443] (mkNode true svcA_id)]>
       (<[200 := mkProcessEndpoints 200 "svcB" "10.0.0.5" [8080] (mkNode true svcB_id)]> ∅))
    (<[mkNetworkEndpoint "10.0.0.9" 443 := 100]>
       (<[mkNetworkEndpoint "10.0.0.5" 8080 := 200]> ∅))
    {[mkEdge (mkProcessEndpoint 100 443) (mkProcessEndpoint 200 8080)]}.

(** The outcome of the example as the specification words it: svcA (pid
    100) at 10.0.0.5, svcB (pid 200) at 10.0.0.9, and the single edge
    svcB(200:443) -> svcA(100:8080). *)
Definition example_as_specified (s : State) : Prop :=
  dom (nodes s) = {[100; 200]}
  /\ (exists n, nodes s !! 100 = Some n
                /\ pe_ProcessName n = "svcA" /\ pe_LocalIP n = "10.0.0.5")
  /\ (exists n, nodes s !! 200 = Some n
                /\ pe_ProcessName n = "svcB" /\ pe_LocalIP n = "10.0.0.9")
  /\ edges s = {[mkEdge (mkProcessEndpoint 200 443) (mkProcessEndpoint 100 8080)]}.

(** ** The two line shapes *)

Definition chars (s : string) : list ascii := list_ascii_of_string s.

(** The text [<A-ip>:<A-port><arrow><B-ip>:<B-port>|PID=<pid> CMD=<name>]. *)
Definition shaped_line (ipA portA arrow ipB portB pid name : string) : string :=
  ipA +:+ ":" +:+ portA +:+ arrow +:+ ipB +:+ ":" +:+ portB
      +:+ "|PID=" +:+ pid +:+ " CMD=" +:+ name.

(** An address field: a non-empty text without [<], [>], [|] and newline
    (every textual IPv4 or IPv6 address is one). *)
Definition address_char (c : ascii) : bool :=
  negb (is_char "<" c || is_char ">" c || is_char "|" c || is_char newline c).

Definition address_field (s : string) : bool :=
  negb (String.eqb s "") && forallb address_char (chars s).

(** A numeric field: one or more decimal digits, the value within the
    range of a signed 64-bit integer. *)
Definition number_field (s : string) : bool :=
  negb (String.eqb s "") && forallb is_digit (chars s)
  && (digits_val (chars s) <=? MaxInt64).

Definition dec_val (s : string) : Z := digits_val (chars s).

(** A run of one or more decimal digits, of any value. *)
Definition digits_field (s : string) : bool :=
  negb (String.eqb s "") && forallb is_digit (chars s).

(** A name field: a non-empty text without [|] and newline. *)
Definition name_char (c : ascii) : bool :=
  negb (is_char "|" c || is_char newline c).

Definition name_field (s : string) : bool :=
  negb (String.eqb s "") && forallb name_char (chars s).

(** Both patterns, as a function of the direction marker. *)
Definition line_regex (arrow : string) : list item :=
  [Cap AnyChar; lit ":"; Cap Digit; lit arrow; Cap AnyChar; lit ":"; Cap Digit;
   lit "|PID="; Cap Digit; lit " CMD="; Cap AnyChar].

(** The line holds a match of the pattern somewhere. *)
Definition matches_somewhere (re : list item) (line : string) : Prop :=
  exists pre suf caps rest, chars line = pre ++ suf /\ Matches re suf caps rest.

(** ** The noise filter, in the words of the specification *)

(** The text parses to an address of the loopback range 127.0.0.0/8. *)
Definition loopback_ip (s : string) : Prop :=
  exists b c d, ParseIP s = IPv4 127 b c d.

(** [net.IPv6loopback], the address [::1]. *)
Definition IPv6loopback : IP := replicate 15 0 ++ [1].

(** The text parses to a loopback address of either family: an address
    of 127.0.0.0/8, or the IPv6 loopback address [::1]. *)
Definition loopback_address (s : string) : Prop :=
  loopback_ip s \/ ParseIP s = IPv6loopback.

(** The process names that the filter refuses. *)
Definition denylist : list string := ["k3s-server"].

Definition noise (o : InputLine) : Prop :=
  loopback_ip (LocalIP o) \/ loopback_ip (RemoteIP o)
  \/ LocalPort o = 0 \/ RemotePort o = 0
  \/ ProcessName o ∈ denylist.

(** The text is an IP address, as [net.ParseIP] reads it. *)
Definition valid_ip_syntax (s : string) : Prop := ParseIP s <> [].

(** An observation that reaches the correlator. *)
Definition accepted (line : string) (o : InputLine) : Prop :=
  parseLine line = Some o /\ IsValidLine o = true.

(** ** Vocabulary for the properties of the correlator *)

Definition localEndpoint (o : InputLine) : NetworkEndpoint :=
  mkNetworkEndpoint (LocalIP o) (LocalPort o).

Definition remoteEndpoint (o : InputLine) : NetworkEndpoint :=
  mkNetworkEndpoint (RemoteIP o) (RemotePort o).

(** The stored identity of a process is the one the observation reports. *)
Definition same_identity (n : ProcessEndpoints) (o : InputLine) : Prop :=
  pe_ProcessID n = ProcessID o
  /\ pe_ProcessName n = ProcessName o
  /\ pe_LocalIP n = LocalIP o.

(** The node of a process seen for the first time. *)
Definition new_node (o : InputLine) : ProcessEndpoints :=
  mkProcessEndpoints (ProcessID o) (ProcessName o) (LocalIP o) [LocalPort o]
                     (mkNode true (nodeLabel o)).

(** A known node, with one more port if the port is new. *)
Definition add_port (n : ProcessEndpoints) (p : Z) : ProcessEndpoints :=
  if bool_decide (p ∈ pe_LocalPorts n) then n
  else mkProcessEndpoints (pe_ProcessID n) (pe_ProcessName n) (pe_LocalIP n)
                          (pe_LocalPorts n ++ [p]) (pe_DotNode n).

(** The observation contradicts nothing that the stores hold: its process
    is new or known under the same identity, and its local endpoint is
    free or registered to its process. *)
Definition consistent (s : State) (o : InputLine) : Prop :=
  (forall n, nodes s !! ProcessID o = Some n -> same_identity n o)
  /\ (forall e, knownEndpoints s !! localEndpoint o = Some e -> e = ProcessID o).

(** Invariants of the stores. *)
Definition nodes_ok (s : State) : Prop :=
  forall k n, nodes s !! k = Some n ->
              pe_ProcessID n = k /\ node_graph (pe_DotNode n) = true.

Definition registry_refs_ok (s : State) : Prop :=
  forall ep pid, knownEndpoints s !! ep = Some pid -> is_Some (nodes s !! pid).

Definition edge_refs_ok (s : State) : Prop :=
  forall e, e ∈ edges s ->
            is_Some (nodes s !! PID (Source e)) /\ is_Some (nodes s !! PID (Dest e)).

Definition wf (s : State) : Prop :=
  nodes_ok s /\ registry_refs_ok s /\ edge_refs_ok s.

(** No port is listed twice in a node. *)
Definition ports_nodup (s : State) : Prop :=
  forall k n, nodes s !! k = Some n -> NoDup (pe_LocalPorts n).

(** Two observations of one connection, one from each side: [o2] has the
    endpoints of [o1] swapped, [o1] is outbound-from-local and [o2] is
    inbound-to-local. *)
Definition mirror (o1 o2 : InputLine) : Prop :=
  Dir o1 = Local2Remote /\ Dir o2 = Remote2Local
  /\ localEndpoint o2 = remoteEndpoint o1
  /\ remoteEndpoint o2 = localEndpoint o1.

(** Two observations that do not contradict each other. *)
Definition agree (o1 o2 : InputLine) : Prop :=
  (ProcessID o1 = ProcessID o2 ->
   ProcessName o1 = ProcessName o2 /\ LocalIP o1 = LocalIP o2)
  /\ (localEndpoint o1 = localEndpoint o2 -> ProcessID o1 = ProcessID o2).

(** The node of the observation's process after the upsert. *)
Definition upserted_node (s : State) (o : InputLine) : ProcessEndpoints :=
  match nodes s !! ProcessID o with
  | None => new_node o
  | Some n => add_port n (LocalPort o)
  end.

(** The edge set after an observation, given the registry that the lookup
    of the remote endpoint consults. *)
Definition edges_after (ke : gmap NetworkEndpoint Z) (o : InputLine)
           (es : gset Edge) : gset Edge :=
  match ke !! remoteEndpoint o with
  | None => es
  | Some remotePID => {[makeEdge o remotePID]} ∪ es
  end.

(** The edge of a connection between the local endpoints of its two
    observations: from the side that observed it as outbound. *)
Definition connection_edge (o1 o2 : InputLine) : Edge :=
  mkEdge (mkProcessEndpoint (ProcessID o1) (LocalPort o1))
         (mkProcessEndpoint (ProcessID o2) (LocalPort o2)).

(** The state after the first line of the example. *)
Definition example_middle : State :=
  mkState
    (mkGraph [svcA_id] [])
    (<[100 := mkProcessEndpoints 100 "svcA" "10.0.0.9" [443] (mkNode true svcA_id)]> ∅)
    (<[mkNetworkEndpoint "10.0.0.9" 443 := 100]> ∅)
    ∅.

(** A state of the stores that a run of the program goes through, between
    two lines of its input. *)
Definition reachable (s : State) : Prop :=
  exists lines, createGraphFromStdin lines = Ok s.

(** The turn of the loop for [line] panics, and with it the run, whatever
    lines follow. *)
Definition aborts (s : State) (line : string) : Prop :=
  exists msg,
    processLine s line = Panic msg
    /\ forall rest, scanLines s (line :: rest) = Panic msg.

(** Lines that show that an edge from a process to itself is drawn. *)
Definition self_loop_lines : list string :=
  ["10.0.0.9:443->10.0.0.5:8080|PID=100 CMD=svcA";
   "10.0.0.5:8080->10.0.0.5:9090|PID=100 CMD=svcA"].

(** ** Vocabulary for further properties of the parser *)

(** The direction marker of each pattern. *)
Definition arrow_of (d : Direction) : string :=
  match d with
  | Local2Remote => "<-"
  | Remote2Local => "->"
  end.

(** A text that a [(.+)] group can hold: non-empty, without newline. *)
Definition group_text (s : string) : Prop :=
  s <> "" /\ newline ∉ chars s.

(** A list of octets. *)
Definition octets (l : list Z) : Prop := Forall (fun x => 0 <= x <= 255) l.

(** ** Vocabulary for further properties of the correlator *)

(** The observation that a line contributes to the run, if any. *)
Definition observation (line : string) : option InputLine :=
  match parseLine line with
  | Some o => if IsValidLine o then Some o else None
  | None => None
  end.

Definition observations (lines : list string) : list InputLine :=
  omap observation lines.

(** The turns of the loop for a list of observations. *)
Fixpoint correlate (s : State) (os : list InputLine) : result State :=
  match os with
  | [] => Ok s
  | o :: os' => s' ← processObservation s o; correlate s' os'
  end.

(** The id of the graph node of a stored process. *)
Definition label_of_node (n : ProcessEndpoints) : string :=
  "PID=" +:+ fmt_d (pe_ProcessID n) +:+ nl +:+
  "Name=" +:+ pe_ProcessName n +:+ nl +:+
  "IP=" +:+ pe_LocalIP n.

(** Every stored node is filed under its own process id, holds the handle
    of its graph node, and lists at least one port and no port twice. *)
Definition nodes_sound (s : State) : Prop :=
  forall k n, nodes s !! k = Some n ->
    pe_ProcessID n = k
    /\ pe_DotNode n = mkNode true (label_of_node n)
    /\ pe_LocalPorts n <> []
    /\ NoDup (pe_LocalPorts n).

(** The registry holds exactly the endpoints that the nodes list. *)
Definition registry_sound (s : State) : Prop :=
  forall ip p k,
    knownEndpoints s !! mkNetworkEndpoint ip p = Some k
    <-> exists n, nodes s !! k = Some n /\ pe_LocalIP n = ip /\ p ∈ pe_LocalPorts n.

(** Both ends of every edge are registered endpoints of their process. *)
Definition edges_sound (s : State) : Prop :=
  forall e, e ∈ edges s ->
    exists ip1 ip2,
      knownEndpoints s !! mkNetworkEndpoint ip1 (Port (Source e)) = Some (PID (Source e))
      /\ knownEndpoints s !! mkNetworkEndpoint ip2 (Port (Dest e)) = Some (PID (Dest e)).

(** The graph holds one node per stored process and one edge per element
    of the edge set, between nodes of the graph. *)
Definition graph_sound (s : State) : Prop :=
  NoDup (g_nodes (graph s))
  /\ (forall id, id ∈ g_nodes (graph s)
                 <-> exists k n, nodes s !! k = Some n /\ label_of_node n = id)
  /\ length (g_nodes (graph s)) = size (nodes s)
  /\ length (g_edges (graph s)) = size (edges s)
  /\ (forall a b l, (a, b, l) ∈ g_edges (graph s)
                    -> a ∈ g_nodes (graph s) /\ b ∈ g_nodes (graph s)).

Definition coherent (s : State) : Prop :=
  nodes_sound s /\ registry_sound s /\ edges_sound s /\ graph_sound s.

(** An endpoint that some observation of the list reports as the local
    endpoint of the process. *)
Definition registered_by (os : list InputLine) (ep : NetworkEndpoint) (k : Z) : Prop :=
  exists o, o ∈ os /\ localEndpoint o = ep /\ ProcessID o = k.

(** The edge of an observation of the list whose remote endpoint is the
    local endpoint of an observation that does not come after it. *)
Definition drawn_by (os : list InputLine) (e : Edge) : Prop :=
  exists i j o o',
    (j <= i)%nat /\ os !! i = Some o /\ os !! j = Some o'
    /\ localEndpoint o' = remoteEndpoint o
    /\ e = makeEdge o (ProcessID o').

(** The stores hold what the observations of the list say, no more and
    no less. *)
Definition explains (os : list InputLine) (s : State) : Prop :=
  (forall ep k, knownEndpoints s !! ep = Some k <-> registered_by os ep k)
  /\ (forall e, e ∈ edges s <-> drawn_by os e)
  /\ (forall k, is_Some (nodes s !! k) <-> exists o, o ∈ os /\ ProcessID o = k)
  /\ (forall k n, nodes s !! k = Some n ->
        (forall o, o ∈ os -> ProcessID o = k -> same_identity n o)
        /\ (forall p, p ∈ pe_LocalPorts n
                      <-> exists o, o ∈ os /\ ProcessID o = k /\ LocalPort o = p)).

(** Any two observations of the list agree. *)
Definition all_agree (os : list InputLine) : Prop :=
  forall o1 o2, o1 ∈ os -> o2 ∈ os -> agree o1 o2.

(** The second state holds all that the first one holds: the processes
    with their identity and their ports, in the order they were added,
    the registered endpoints, the edges, and the nodes and edges of the
    graph, in the order they were drawn. *)
Definition grows (s s' : State) : Prop :=
  (forall k n, nodes s !! k = Some n ->
     exists n', nodes s' !! k = Some n'
                /\ pe_ProcessID n' = pe_ProcessID n
                /\ pe_ProcessName n' = pe_ProcessName n
                /\ pe_LocalIP n' = pe_LocalIP n
                /\ pe_DotNode n' = pe_DotNode n
                /\ pe_LocalPorts n `prefix_of` pe_LocalPorts n')
  /\ knownEndpoints s ⊆ knownEndpoints s'
  /\ edges s ⊆ edges s'
  /\ g_nodes (graph s) `prefix_of` g_nodes (graph s')
  /\ g_edges (graph s) `prefix_of` g_edges (graph s').

(** * Properties *)

(** ** Sample evaluations *)

Example parse_ex1 :
  parseLine "10.0.0.5:8080<-10.0.0.9:443|PID=100 CMD=svcA"
  = Some (mkInputLine Local2Remote "10.0.0.5" 8080 "10.0.0.9" 443 100 "svcA").
Proof. vm_compute. reflexivity. Qed.

Example parse_ex2 :
  parseLine "10.0.0.9:443->10.0.0.5:8080|PID=200 CMD=svcB"
  = Some (mkInputLine Remote2Local "10.0.0.9" 443 "10.0.0.5" 8080 200 "svcB").
Proof. vm_compute. reflexivity. Qed.

Example ParseIP_v4 : ParseIP "10.0.0.5" = IPv4 10 0 0 5.
Proof. vm_compute. reflexivity. Qed.

Example ParseIP_v6 :
  ParseIP "2001:db8::1" = [32; 1; 13; 184; 0; 0; 0; 0; 0; 0; 0; 0; 0; 0; 0; 1].
Proof. vm_compute. reflexivity. Qed.

Example ParseIP_mapped : ParseIP "::ffff:127.0.0.1" = IPv4 127 0 0 1.
Proof. vm_compute. reflexivity. Qed.

Example ParseIP_bad :
  ParseIP "foo" = [] /\ ParseIP "1.2.3" = [] /\ ParseIP "01.2.3.4" = []
  /\ ParseIP "1.2.3.256" = [] /\ ParseIP "1::2::3" = [] /\ ParseIP "fe80::1%eth0" = [].
Proof. vm_compute. repeat split. Qed.

Example loopback_contains :
  Contains loopbackNet (ParseIP "127.0.0.1") = true
  /\ Contains loopbackNet (ParseIP "127.255.3.4") = true
  /\ Contains loopbackNet (ParseIP "10.0.0.5") = false
  /\ Contains loopbackNet (ParseIP "::1") = false
  /\ Contains loopbackNet (ParseIP "foo") = false.
Proof. vm_compute. repeat split. Qed.

(** ** The matcher against a declarative reading of the patterns *)

Lemma strip_prefix_Some l s s' : strip_prefix l s = Some s' <-> s = l ++ s'.
Proof.
  revert s. induction l as [|a l IH]; intros s; simpl.
  - split; congruence.
  - destruct s as [|b s]; [split; discriminate|].
    destruct (Ascii.eqb_spec a b) as [->|Hne].
    + rewrite IH. split; congruence.
    + split; [discriminate|]. intros [= ? ?]. congruence.
Qed.

Lemma greedy_sound p k s : forall acc r,
  greedy p k acc s = Some r ->
  exists w s' caps rest,
    w <> [] /\ forallb p w = true /\ s = w ++ s'
    /\ k s' = Some (caps, rest) /\ r = ((rev acc ++ w) :: caps, rest).
Proof.
  induction s as [|a s IH]; intros acc r; simpl; [discriminate|].
  destruct (p a) eqn:Hpa; [|discriminate].
  destruct (greedy p k (a :: acc) s) as [r'|] eqn:Hg.
  - intros [= <-]. destruct (IH _ _ Hg) as (w & s' & caps & rest & Hw & Hall & -> & Hk & ->).
    exists (a :: w), s', caps, rest. simpl. rewrite Hpa, Hall.
    repeat split; try done. by rewrite <- app_assoc.
  - destruct (k s) as [[caps rest]|] eqn:Hk; [|discriminate].
    intros [= <-]. exists [a], s, caps, rest. simpl. rewrite Hpa. done.
Qed.

Lemma greedy_complete p k w s' : forall acc,
  w <> [] -> forallb p w = true -> is_Some (k s') ->
  is_Some (greedy p k acc (w ++ s')).
Proof.
  induction w as [|a w IH]; intros acc Hw Hall Hk; [done|].
  simpl in *. apply andb_prop in Hall as [Hpa Hall]. rewrite Hpa.
  destruct w as [|b w].
  - simpl. destruct (greedy p k (a :: acc) s'); [done|].
    destruct Hk as [[caps rest] ->]. done.
  - destruct (IH (a :: acc)) as [r Hr]; [done..|].
    rewrite Hr. done.
Qed.

Lemma match_here_sound re : forall s caps rest,
  match_here re s = Some (caps, rest) -> Matches re s caps rest.
Proof.
  induction re as [|[l|c] re IH]; intros s caps rest; simpl.
  - intros [= <- <-]. done.
  - destruct (strip_prefix l s) as [s'|] eqn:Hp; [|discriminate].
    apply strip_prefix_Some in Hp as ->. intros H. exists s'. split; [done|]. by apply IH.
  - intros H. apply greedy_sound in H
      as (w & s' & caps' & rest' & Hw & Hall & -> & Hk & [= -> ->]).
    exists w, caps', s'. repeat split; try done. by apply IH.
Qed.

Lemma match_here_complete re : forall s caps rest,
  Matches re s caps rest -> is_Some (match_here re s).
Proof.
  induction re as [|[l|c] re IH]; intros s caps rest; simpl.
  - done.
  - intros (s' & -> & H). rewrite (proj2 (strip_prefix_Some l _ s') eq_refl). eauto.
  - intros (w & caps' & s' & Hw & Hall & -> & -> & H).
    apply greedy_complete; eauto.
Qed.

Lemma find_from_sound re s : forall ms,
  find_from re s = Some ms ->
  exists pre suf caps rest,
    s = pre ++ suf /\ Matches re suf caps rest
    /\ ms = take (length suf - length rest)%nat suf :: caps.
Proof.
  induction s as [|a s IH]; intros ms.
  - simpl. destruct (match_here re []) as [[caps rest]|] eqn:Hm; [|discriminate].
    intros [= <-]. exists [], [], caps, rest. split; [done|].
    split; [by apply match_here_sound|done].
  - simpl. destruct (match_here re (a :: s)) as [[caps rest]|] eqn:Hm.
    + intros [= <-]. exists [], (a :: s), caps, rest. split; [done|].
      split; [by apply match_here_sound|done].
    + intros H. destruct (IH _ H) as (pre & suf & caps & rest & -> & HM & ->).
      exists (a :: pre), suf, caps, rest. done.
Qed.

Lemma find_from_head re s caps rest :
  match_here re s = Some (caps, rest) ->
  find_from re s = Some (take (length s - length rest)%nat s :: caps).
Proof. intros H. destruct s; simpl; rewrite H; done. Qed.

(** ** The example scenario *)

Lemma example_run : createGraphFromStdin example_lines = Ok example_final.
Proof. vm_compute. reflexivity. Qed.

(** ** Splitting a text at a character *)

Section Split.
Context {A : Type}.
Implicit Types (c : A) (l r : list A).

(** [c] occurs once in the left text. *)
Lemma split_once c l1 r1 l2 r2 :
  c ∉ l1 -> c ∉ r1 -> l1 ++ c :: r1 = l2 ++ c :: r2 -> l1 = l2 /\ r1 = r2.
Proof.
  revert l2. induction l1 as [|a l1 IH]; intros [|b l2] Hl Hr; simpl.
  - intros [= ->]. done.
  - intros [= <- ->]. exfalso. apply Hr, elem_of_app. right. left.
  - intros [= -> _]. exfalso. apply Hl. left.
  - intros [= <- H]. apply not_elem_of_cons in Hl as [_ Hl].
    destruct (IH l2 Hl Hr H) as [-> ->]. done.
Qed.

(** Both texts are cut at the first [c]. *)
Lemma split_first c l1 r1 l2 r2 :
  c ∉ l1 -> c ∉ l2 -> l1 ++ c :: r1 = l2 ++ c :: r2 -> l1 = l2 /\ r1 = r2.
Proof.
  revert l2. induction l1 as [|a l1 IH]; intros [|b l2] H1 H2; simpl.
  - intros [= ->]. done.
  - intros [= <- _]. exfalso. apply H2. left.
  - intros [= -> _]. exfalso. apply H1. left.
  - intros [= <- H]. apply not_elem_of_cons in H1 as [_ H1].
    apply not_elem_of_cons in H2 as [_ H2].
    destruct (IH l2 H1 H2 H) as [-> ->]. done.
Qed.

(** Both texts are cut at the last [c]. *)
Lemma split_last c l1 r1 l2 r2 :
  c ∉ r1 -> c ∉ r2 -> l1 ++ c :: r1 = l2 ++ c :: r2 -> l1 = l2 /\ r1 = r2.
Proof.
  intros H1 H2 H. apply (f_equal (@rev A)) in H.
  rewrite !rev_app_distr in H. simpl in H. rewrite <- !app_assoc in H. simpl in H.
  apply split_first in H as [Hr Hl].
  - split; [apply rev_inj|apply rev_inj]; done.
  - rewrite list_elem_of_In, <- in_rev, <- list_elem_of_In. exact H1.
  - rewrite list_elem_of_In, <- in_rev, <- list_elem_of_In. exact H2.
Qed.
End Split.

Lemma forallb_not_elem (p : ascii -> bool) c l :
  p c = false -> forallb p l = true -> c ∉ l.
Proof.
  intros Hc Hall Hin. apply list_elem_of_In in Hin.
  rewrite forallb_forall in Hall. rewrite (Hall _ Hin) in Hc. discriminate.
Qed.

Lemma chars_app a b : chars (a +:+ b) = chars a ++ chars b.
Proof. unfold chars. induction a as [|c a IH]; simpl; [done|]. by rewrite IH. Qed.

Lemma chars_nonempty s : String.eqb s "" = false -> chars s <> [].
Proof. destruct s; simpl; [discriminate|done]. Qed.

Lemma string_of_chars s : string_of_list_ascii (chars s) = s.
Proof. apply string_of_list_ascii_of_string. Qed.

Lemma chars_inj a b : chars a = chars b -> a = b.
Proof.
  intros H. rewrite <- (string_of_chars a), <- (string_of_chars b). by rewrite H.
Qed.

(** ** The last group of a pattern runs as far as its class allows *)

Lemma greedy_head p k a s acc :
  (forall s', is_Some (k s')) -> p a = true -> is_Some (greedy p k acc (a :: s)).
Proof.
  intros Hk Hpa. simpl. rewrite Hpa.
  destruct (greedy p k (a :: acc) s); [done|].
  destruct (Hk s) as [[caps rest] ->]. done.
Qed.

Lemma greedy_last_maximal p k s :
  (forall s', k s' = Some ([], s')) ->
  forall acc caps rest,
  greedy p k acc s = Some (caps, rest) ->
  match rest with
  | [] => True
  | a :: _ => p a = false
  end.
Proof.
  intros Hk. induction s as [|a s IH]; intros acc caps rest; simpl; [discriminate|].
  destruct (p a) eqn:Hpa; [|discriminate].
  destruct (greedy p k (a :: acc) s) as [r|] eqn:Hg.
  - intros [= ->]. by eapply IH.
  - rewrite Hk. intros [= <- <-]. destruct s as [|b s]; [done|].
    destruct (p b) eqn:Hpb; [|done].
    destruct (greedy_head p k b s (a :: acc)) as [r Hr]; [|done|].
    + intros s'. rewrite Hk. eauto.
    + rewrite Hr in Hg. discriminate.
Qed.

Lemma match_here_last_maximal re c : forall s caps rest,
  last re = Some (Cap c) ->
  match_here re s = Some (caps, rest) ->
  match rest with
  | [] => True
  | a :: _ => in_class c a = false
  end.
Proof.
  induction re as [|it re IH]; intros s caps rest Hlast; [discriminate|].
  destruct re as [|it' re].
  - injection Hlast as ->. cbn [match_here]. apply greedy_last_maximal. done.
  - assert (Hl : last (it' :: re) = Some (Cap c)) by exact Hlast.
    destruct it as [l|c']; cbn [match_here].
    + destruct (strip_prefix l s) as [s'|]; [|discriminate]. by apply IH.
    + intros H. apply greedy_sound in H
        as (w & s' & caps' & rest' & _ & _ & _ & Hk & [= _ ->]).
      by eapply IH.
Qed.

(** ** Lines of the two shapes *)

Lemma forallb_weaken (p q : ascii -> bool) l :
  (forall a, p a = true -> q a = true) -> forallb p l = true -> forallb q l = true.
Proof. rewrite !forallb_forall. auto. Qed.

Lemma address_char_any a : address_char a = true -> in_class AnyChar a = true.
Proof.
  unfold address_char, in_class, is_char.
  destruct (Ascii.eqb a newline); [|done]. rewrite !orb_true_r. done.
Qed.

Lemma name_char_any a : name_char a = true -> in_class AnyChar a = true.
Proof.
  unfold name_char, in_class, is_char.
  destruct (Ascii.eqb a newline); [|done]. rewrite !orb_true_r. done.
Qed.

Lemma address_field_inv s :
  address_field s = true ->
  chars s <> [] /\ forallb (in_class AnyChar) (chars s) = true
  /\ ("<"%char ∉ chars s) /\ (">"%char ∉ chars s) /\ ("|"%char ∉ chars s).
Proof.
  unfold address_field. intros [Hne Hall]%andb_prop.
  apply negb_true_iff in Hne.
  split; [by apply chars_nonempty|].
  split; [by apply (forallb_weaken address_char), Hall; apply address_char_any|].
  repeat split; by apply (forallb_not_elem address_char).
Qed.

Lemma number_field_inv s :
  number_field s = true ->
  chars s <> [] /\ forallb is_digit (chars s) = true /\ dec_val s <= MaxInt64.
Proof.
  unfold number_field. intros [[Hne Hall]%andb_prop Hle]%andb_prop.
  apply negb_true_iff in Hne. apply Z.leb_le in Hle.
  split; [by apply chars_nonempty|]. done.
Qed.

Lemma digits_field_inv s :
  digits_field s = true -> chars s <> [] /\ forallb is_digit (chars s) = true.
Proof.
  unfold digits_field. intros [Hne Hall]%andb_prop.
  apply negb_true_iff in Hne. split; [by apply chars_nonempty|done].
Qed.

Lemma number_field_digits s : number_field s = true -> digits_field s = true.
Proof. unfold number_field, digits_field. by intros [H _]%andb_prop. Qed.

Lemma name_field_inv s :
  name_field s = true ->
  chars s <> [] /\ forallb (in_class AnyChar) (chars s) = true
  /\ forallb name_char (chars s) = true /\ ("|"%char ∉ chars s).
Proof.
  unfold name_field. intros [Hne Hall]%andb_prop.
  apply negb_true_iff in Hne.
  split; [by apply chars_nonempty|].
  split; [by apply (forallb_weaken name_char), Hall; apply name_char_any|].
  split; [done|]. by apply (forallb_not_elem name_char).
Qed.

Lemma digits_not_elem c d :
  is_digit c = false -> forallb is_digit d = true -> c ∉ d.
Proof. apply forallb_not_elem. Qed.

(** Closes [c ∉ l] for a text [l] built from literal characters and from
    fields known not to hold [c]. *)
Ltac notin :=
  repeat match goal with
         | |- _ ∉ _ ++ _ => apply not_elem_of_app; split
         | |- _ ∉ _ :: _ => apply not_elem_of_cons; split; [discriminate|]
         | |- _ ∉ [] => apply not_elem_of_nil
         | |- _ ∉ _ => assumption
         | |- _ ∉ _ => apply digits_not_elem; [reflexivity|assumption]
         end.

(** The part of a line after [|]: the pid and the name are determined. *)
Lemma tail_unique (d5 g6 rest pid name : list ascii) :
  forallb is_digit d5 = true -> forallb is_digit pid = true ->
  forallb name_char name = true ->
  match rest with
  | [] => True
  | a :: _ => in_class AnyChar a = false
  end ->
  chars "PID=" ++ d5 ++ chars " CMD=" ++ g6 ++ rest
  = chars "PID=" ++ pid ++ chars " CMD=" ++ name ->
  d5 = pid /\ g6 = name /\ rest = [].
Proof.
  intros Hd5 Hpid Hname Hmax E. simpl in E.
  injection E as E. apply split_first in E as [-> E]; [|notin..].
  injection E as E. split; [done|].
  destruct rest as [|a rest]; [by rewrite app_nil_r in E|].
  exfalso. rewrite forallb_forall in Hname.
  assert (Hin : In a name) by (rewrite <- E; apply in_or_app; right; left; done).
  apply Hname in Hin. revert Hmax Hin. unfold in_class, name_char, is_char.
  destruct (Ascii.eqb a newline); [|done]. rewrite orb_true_r. done.
Qed.

(** The part of a line before [|], for each direction marker. *)
Lemma head_unique_L2R (g1 d2 g3 d4 A pA B pB : list ascii) :
  forallb is_digit d2 = true -> forallb is_digit d4 = true ->
  forallb is_digit pA = true -> forallb is_digit pB = true ->
  "<"%char ∉ A -> "<"%char ∉ B ->
  g1 ++ chars ":" ++ d2 ++ chars "<-" ++ g3 ++ chars ":" ++ d4
  = A ++ chars ":" ++ pA ++ chars "<-" ++ B ++ chars ":" ++ pB ->
  g1 = A /\ d2 = pA /\ g3 = B /\ d4 = pB.
Proof.
  intros Hd2 Hd4 HpA HpB HA HB E. simpl in E.
  assert (E' : (A ++ ":"%char :: pA) ++ "<"%char :: ("-"%char :: B ++ ":"%char :: pB)
               = (g1 ++ ":"%char :: d2) ++ "<"%char :: ("-"%char :: g3 ++ ":"%char :: d4))
    by (rewrite <- !app_assoc; simpl; done).
  apply split_once in E' as [E1 E2]; [|notin..].
  injection E2 as E2.
  apply split_last in E1 as [-> ->]; [|notin..].
  apply split_last in E2 as [-> ->]; [|notin..].
  done.
Qed.

Lemma head_unique_R2L (g1 d2 g3 d4 A pA B pB : list ascii) :
  forallb is_digit d2 = true -> forallb is_digit d4 = true ->
  forallb is_digit pA = true -> forallb is_digit pB = true ->
  ">"%char ∉ A -> ">"%char ∉ B ->
  g1 ++ chars ":" ++ d2 ++ chars "->" ++ g3 ++ chars ":" ++ d4
  = A ++ chars ":" ++ pA ++ chars "->" ++ B ++ chars ":" ++ pB ->
  g1 = A /\ d2 = pA /\ g3 = B /\ d4 = pB.
Proof.
  intros Hd2 Hd4 HpA HpB HA HB E. simpl in E.
  assert (E' : (A ++ ":"%char :: pA ++ ["-"%char]) ++ ">"%char :: (B ++ ":"%char :: pB)
               = (g1 ++ ":"%char :: d2 ++ ["-"%char]) ++ ">"%char :: (g3 ++ ":"%char :: d4))
    by (rewrite <- !app_assoc; simpl; rewrite <- !app_assoc; simpl; done).
  apply split_once in E' as [E1 E2]; [|notin..].
  apply split_last in E1 as [-> E1]; [|notin..].
  apply app_inv_tail in E1 as ->.
  apply split_last in E2 as [-> ->]; [|notin..].
  done.
Qed.

(** A match of either pattern at the head of a text, spelled out. *)
Lemma Matches_line_regex arrow s caps rest :
  Matches (line_regex arrow) s caps rest ->
  exists g1 d2 g3 d4 d5 g6,
    caps = [g1; d2; g3; d4; d5; g6]
    /\ s = (g1 ++ chars ":" ++ d2 ++ chars arrow ++ g3 ++ chars ":" ++ d4)
             ++ "|"%char :: (chars "PID=" ++ d5 ++ chars " CMD=" ++ g6 ++ rest)
    /\ g1 <> [] /\ g3 <> [] /\ g6 <> []
    /\ forallb is_digit d2 = true /\ forallb is_digit d4 = true
    /\ forallb is_digit d5 = true.
Proof.
  unfold line_regex, lit. cbn [Matches].
  intros (g1 & c1 & s1 & Hg1 & _ & -> & -> & s2 & -> &
          d2 & c2 & s3 & _ & Hd2 & -> & -> & s4 & -> &
          g3 & c3 & s5 & Hg3 & _ & -> & -> & s6 & -> &
          d4 & c4 & s7 & _ & Hd4 & -> & -> & s8 & -> &
          d5 & c5 & s9 & _ & Hd5 & -> & -> & s10 & -> &
          g6 & c6 & s11 & Hg6 & _ & -> & -> & -> & ->).
  exists g1, d2, g3, d4, d5, g6. repeat split; try done.
  fold (chars ":") (chars arrow) (chars "|PID=") (chars " CMD=").
  rewrite <- !app_assoc. reflexivity.
Qed.

Lemma shaped_line_chars A pA arrow B pB pid name :
  chars (shaped_line A pA arrow B pB pid name)
  = (chars A ++ chars ":" ++ chars pA ++ chars arrow ++ chars B ++ chars ":" ++ chars pB)
      ++ "|"%char :: (chars "PID=" ++ chars pid ++ chars " CMD=" ++ chars name).
Proof.
  unfold shaped_line. rewrite !chars_app, <- !app_assoc. reflexivity.
Qed.

Lemma shaped_line_Matches A pA arrow B pB pid name :
  address_field A = true -> digits_field pA = true ->
  address_field B = true -> digits_field pB = true ->
  digits_field pid = true -> name_field name = true ->
  Matches (line_regex arrow) (chars (shaped_line A pA arrow B pB pid name))
          [chars A; chars pA; chars B; chars pB; chars pid; chars name] [].
Proof.
  intros (HA & HA' & _)%address_field_inv (HpA & HpA')%digits_field_inv
         (HB & HB' & _)%address_field_inv (HpB & HpB')%digits_field_inv
         (Hpid & Hpid')%digits_field_inv (Hn & Hn' & _)%name_field_inv.
  unfold shaped_line. rewrite !chars_app.
  unfold line_regex, lit. cbn [Matches].
  eexists (chars A), _, _. do 4 (split; [done|]). eexists. split; [reflexivity|].
  eexists (chars pA), _, _. do 4 (split; [done|]). eexists. split; [reflexivity|].
  eexists (chars B), _, _. do 4 (split; [done|]). eexists. split; [reflexivity|].
  eexists (chars pB), _, _. do 4 (split; [done|]). eexists. split; [reflexivity|].
  eexists (chars pid), _, _. do 4 (split; [done|]). eexists. split; [reflexivity|].
  eexists (chars name), _, []. rewrite app_nil_r. done.
Qed.

Section Shaped.
Variables (arrow A pA B pB pid name : string).
Hypothesis HA : address_field A = true.
Hypothesis HpA : digits_field pA = true.
Hypothesis HB : address_field B = true.
Hypothesis HpB : digits_field pB = true.
Hypothesis Hpid : digits_field pid = true.
Hypothesis Hname : name_field name = true.
Hypothesis Harrow : arrow = "<-" \/ arrow = "->".

Local Abbreviation line := (shaped_line A pA arrow B pB pid name).

(** The pattern of the line's own marker matches at the head of the
    line, and its groups are the fields of the line. *)
Lemma match_here_shaped :
  match_here (line_regex arrow) (chars line)
  = Some ([chars A; chars pA; chars B; chars pB; chars pid; chars name], []).
Proof.
  pose proof (shaped_line_Matches A pA arrow B pB pid name HA HpA HB HpB Hpid Hname) as HM.
  destruct (match_here_complete _ _ _ _ HM) as [[caps rest] Hm].
  rewrite Hm. f_equal.
  pose proof (match_here_last_maximal (line_regex arrow) AnyChar _ _ _ eq_refl Hm) as Hmax.
  apply match_here_sound, Matches_line_regex in Hm
    as (g1 & d2 & g3 & d4 & d5 & g6 & -> & E & _ & _ & _ & Hd2 & Hd4 & Hd5).
  rewrite shaped_line_chars in E.
  apply address_field_inv in HA as (_ & _ & HA1 & HA2 & HA3).
  apply address_field_inv in HB as (_ & _ & HB1 & HB2 & HB3).
  apply digits_field_inv in HpA as (_ & HpA').
  apply digits_field_inv in HpB as (_ & HpB').
  apply digits_field_inv in Hpid as (_ & Hpid').
  apply name_field_inv in Hname as (_ & _ & Hn1 & Hn2).
  apply split_once in E as [E1 E2].
  - symmetry in E2. apply tail_unique in E2 as (-> & -> & ->); [|done..].
    symmetry in E1.
    destruct Harrow as [-> | ->].
    + apply head_unique_L2R in E1 as (-> & -> & -> & ->); done.
    + apply head_unique_R2L in E1 as (-> & -> & -> & ->); done.
  - destruct Harrow as [-> | ->]; simpl; notin.
  - simpl; notin.
Qed.

Lemma find_from_shaped :
  find_from (line_regex arrow) (chars line)
  = Some [chars line; chars A; chars pA; chars B; chars pB; chars pid; chars name].
Proof.
  rewrite (find_from_head _ _ _ _ match_here_shaped). simpl.
  rewrite Nat.sub_0_r, firstn_all. done.
Qed.

Lemma FindStringSubmatch_shaped :
  FindStringSubmatch (line_regex arrow) line = [line; A; pA; B; pB; pid; name].
Proof.
  unfold FindStringSubmatch. fold (chars line). rewrite find_from_shaped.
  simpl. rewrite !string_of_chars. done.
Qed.
End Shaped.

(** ** Numeric fields *)

Lemma digit_val_range c : is_digit c = true -> 0 <= digit_val c <= 9.
Proof.
  unfold is_digit, digit_val. intros [H1 H2]%andb_prop.
  apply Nat.leb_le in H1, H2. lia.
Qed.

Lemma fold_digits_nonneg ds : forall acc,
  forallb is_digit ds = true -> 0 <= acc ->
  0 <= fold_left (fun acc a => 10 * acc + digit_val a) ds acc.
Proof.
  induction ds as [|c ds IH]; intros acc Hall Hacc; simpl in *; [done|].
  apply andb_prop in Hall as [Hc Hall]. apply IH; [done|].
  pose proof (digit_val_range c Hc). lia.
Qed.

Lemma digits_val_nonneg ds : forallb is_digit ds = true -> 0 <= digits_val ds.
Proof. intros H. apply fold_digits_nonneg; [done|lia]. Qed.

Lemma digit_not_sign c :
  is_digit c = true -> is_char "+" c = false /\ is_char "-" c = false.
Proof.
  intros Hc. unfold is_char.
  split; apply Ascii.eqb_neq; intros ->; vm_compute in Hc; discriminate.
Qed.

(** [ParseInt] on a run of digits: the value, unless it is out of range. *)
Lemma ParseInt_digits ds :
  ds <> [] -> forallb is_digit ds = true ->
  ParseInt (string_of_list_ascii ds)
  = if digits_val ds <=? MaxInt64 then Some (digits_val ds) else None.
Proof.
  intros Hne Hall. unfold ParseInt. rewrite list_ascii_of_string_of_list_ascii.
  destruct ds as [|c ds]; [done|].
  pose proof Hall as Hall'. simpl in Hall'. apply andb_prop in Hall' as [Hc _].
  destruct (digit_not_sign c Hc) as [-> ->].
  unfold parse_digits. rewrite Hall.
  pose proof (digits_val_nonneg _ Hall) as Hpos.
  assert ((MinInt64 <=? digits_val (c :: ds)) = true) as ->
    by (apply Z.leb_le; unfold MinInt64; lia).
  done.
Qed.

Lemma ParseInt_number s : number_field s = true -> ParseInt s = Some (dec_val s).
Proof.
  intros (Hne & Hall & Hle)%number_field_inv.
  rewrite <- (string_of_chars s) at 1. rewrite ParseInt_digits by done.
  fold (dec_val s). apply Z.leb_le in Hle. by rewrite Hle.
Qed.

(** ** parseLine on lines of the two shapes *)

Lemma parseLine_Local2Remote A pA B pB pid name :
  address_field A = true -> number_field pA = true ->
  address_field B = true -> number_field pB = true ->
  number_field pid = true -> name_field name = true ->
  parseLine (shaped_line A pA "<-" B pB pid name)
  = Some (mkInputLine Local2Remote A (dec_val pA) B (dec_val pB) (dec_val pid) name).
Proof.
  intros HA HpA HB HpB Hpid Hname. unfold parseLine.
  change regexLocalToRemote with (line_regex "<-").
  rewrite FindStringSubmatch_shaped by auto using number_field_digits.
  cbn [length Nat.ltb Nat.leb sub nth]. unfold Atoi.
  rewrite !ParseInt_number by done. done.
Qed.

(** A line of the [->] shape holds no match of the [<-] pattern. *)
Lemma no_Local2Remote_match A pA B pB pid name :
  address_field A = true -> digits_field pA = true ->
  address_field B = true -> digits_field pB = true ->
  digits_field pid = true -> name_field name = true ->
  find_from (line_regex "<-") (chars (shaped_line A pA "->" B pB pid name)) = None.
Proof.
  intros (_ & _ & HA1 & HA2 & HA3)%address_field_inv (_ & HpA')%digits_field_inv
         (_ & _ & HB1 & HB2 & HB3)%address_field_inv (_ & HpB')%digits_field_inv
         (_ & Hpid')%digits_field_inv (_ & _ & Hn1 & Hn2)%name_field_inv.
  destruct (find_from _ _) as [ms|] eqn:Hf; [exfalso|done].
  apply find_from_sound in Hf as (pre & suf & caps & rest & Hs & HM & _).
  apply Matches_line_regex in HM
    as (g1 & d2 & g3 & d4 & d5 & g6 & _ & -> & _).
  rewrite shaped_line_chars in Hs. rewrite (app_assoc pre) in Hs.
  apply split_once in Hs as [E _]; [|simpl; notin..].
  assert (Hnot : "<"%char ∉ chars A ++ chars ":" ++ chars pA ++ chars "->"
                              ++ chars B ++ chars ":" ++ chars pB)
    by (simpl; notin).
  apply Hnot. rewrite E. simpl.
  rewrite !elem_of_app, !elem_of_cons. right. right. right.
  rewrite !elem_of_app, !elem_of_cons. right. left. done.
Qed.

Lemma parseLine_Remote2Local A pA B pB pid name :
  address_field A = true -> number_field pA = true ->
  address_field B = true -> number_field pB = true ->
  number_field pid = true -> name_field name = true ->
  parseLine (shaped_line A pA "->" B pB pid name)
  = Some (mkInputLine Remote2Local A (dec_val pA) B (dec_val pB) (dec_val pid) name).
Proof.
  intros HA HpA HB HpB Hpid Hname. unfold parseLine.
  change regexLocalToRemote with (line_regex "<-").
  change regexRemoteToLocal with (line_regex "->").
  assert (FindStringSubmatch (line_regex "<-") (shaped_line A pA "->" B pB pid name) = [])
    as -> by (unfold FindStringSubmatch; fold (chars (shaped_line A pA "->" B pB pid name));
              by rewrite no_Local2Remote_match by auto using number_field_digits).
  rewrite FindStringSubmatch_shaped by auto using number_field_digits.
  cbn [length Nat.ltb Nat.leb sub nth]. unfold Atoi.
  rewrite !ParseInt_number by done. done.
Qed.

(** ** What parseLine accepts *)

Lemma FindStringSubmatch_None re line :
  ~ matches_somewhere re line -> FindStringSubmatch re line = [].
Proof.
  intros Hno. unfold FindStringSubmatch.
  destruct (find_from re (list_ascii_of_string line)) as [ms|] eqn:Hf; [|done].
  exfalso. apply Hno.
  apply find_from_sound in Hf as (pre & suf & caps & rest & Hs & HM & _).
  exists pre, suf, caps, rest. done.
Qed.

Lemma FindStringSubmatch_line_regex arrow line :
  (0 < length (FindStringSubmatch (line_regex arrow) line))%nat ->
  exists whole g1 d2 g3 d4 d5 g6,
    FindStringSubmatch (line_regex arrow) line
    = map string_of_list_ascii [whole; g1; d2; g3; d4; d5; g6]
    /\ g1 <> [] /\ g3 <> [] /\ g6 <> []
    /\ (d2 <> [] /\ forallb is_digit d2 = true)
    /\ (d4 <> [] /\ forallb is_digit d4 = true)
    /\ (d5 <> [] /\ forallb is_digit d5 = true).
Proof.
  unfold FindStringSubmatch.
  destruct (find_from _ _) as [ms|] eqn:Hf; [|simpl; lia]. intros _.
  apply find_from_sound in Hf as (pre & suf & caps & rest & Hs & HM & ->).
  revert HM. unfold line_regex, lit. cbn [Matches].
  intros (g1 & c1 & s1 & Hg1 & _ & -> & -> & s2 & -> &
          d2 & c2 & s3 & Hd2' & Hd2 & -> & -> & s4 & -> &
          g3 & c3 & s5 & Hg3 & _ & -> & -> & s6 & -> &
          d4 & c4 & s7 & Hd4' & Hd4 & -> & -> & s8 & -> &
          d5 & c5 & s9 & Hd5' & Hd5 & -> & -> & s10 & -> &
          g6 & c6 & s11 & Hg6 & _ & -> & -> & -> & ->).
  eexists _, g1, d2, g3, d4, d5, g6. split; [reflexivity|]. done.
Qed.

Lemma string_of_nonempty l : l <> [] -> string_of_list_ascii l <> "".
Proof. destruct l; [done|discriminate]. Qed.

(** What an accepted line yields: the direction of the pattern that
    matched, non-empty texts for the addresses and the name, and numbers
    read from runs of digits. *)
Lemma parseLine_Some line o :
  parseLine line = Some o ->
  RemoteIP o <> "" /\ LocalIP o <> "" /\ ProcessName o <> ""
  /\ 0 <= RemotePort o <= MaxInt64 /\ 0 <= LocalPort o <= MaxInt64
  /\ 0 <= ProcessID o <= MaxInt64
  /\ (matches_somewhere regexLocalToRemote line \/ matches_somewhere regexRemoteToLocal line).
Proof.
  unfold parseLine.
  change regexLocalToRemote with (line_regex "<-").
  change regexRemoteToLocal with (line_regex "->").
  set (m1 := FindStringSubmatch (line_regex "<-") line).
  set (m2 := FindStringSubmatch (line_regex "->") line).
  assert (Hgen : forall arrow dir,
    (0 < length (FindStringSubmatch (line_regex arrow) line))%nat ->
    match Atoi (sub (FindStringSubmatch (line_regex arrow) line) 2) with
    | None => None
    | Some rport =>
        match Atoi (sub (FindStringSubmatch (line_regex arrow) line) 4) with
        | None => None
        | Some lport =>
            match ParseInt (sub (FindStringSubmatch (line_regex arrow) line) 5) with
            | None => None
            | Some pid =>
                Some (mkInputLine dir (sub (FindStringSubmatch (line_regex arrow) line) 1)
                        rport (sub (FindStringSubmatch (line_regex arrow) line) 3)
                        lport pid (sub (FindStringSubmatch (line_regex arrow) line) 6))
            end
        end
    end = Some o ->
    RemoteIP o <> "" /\ LocalIP o <> "" /\ ProcessName o <> ""
    /\ 0 <= RemotePort o <= MaxInt64 /\ 0 <= LocalPort o <= MaxInt64
    /\ 0 <= ProcessID o <= MaxInt64).
  { intros arrow dir Hlen.
    destruct (FindStringSubmatch_line_regex arrow line Hlen)
      as (whole & g1 & d2 & g3 & d4 & d5 & g6 & -> & Hg1 & Hg3 & Hg6
          & [Hd2' Hd2] & [Hd4' Hd4] & [Hd5' Hd5]).
    cbn [map sub nth]. unfold Atoi. rewrite !ParseInt_digits by done.
    destruct (Z.leb_spec (digits_val d2) MaxInt64); [|discriminate].
    destruct (Z.leb_spec (digits_val d4) MaxInt64); [|discriminate].
    destruct (Z.leb_spec (digits_val d5) MaxInt64); [|discriminate].
    intros [= <-]. cbn.
    pose proof (digits_val_nonneg _ Hd2). pose proof (digits_val_nonneg _ Hd4).
    pose proof (digits_val_nonneg _ Hd5).
    repeat split; try lia; by apply string_of_nonempty. }
  destruct (0 <? length m1)%nat eqn:H1.
  - apply Nat.ltb_lt in H1. intros H. pose proof (Hgen "<-" Local2Remote H1 H) as Hg.
    repeat (split; [apply Hg|]). left.
    subst m1. unfold FindStringSubmatch in H1.
    destruct (find_from _ _) as [ms|] eqn:Hf; [|simpl in H1; lia].
    apply find_from_sound in Hf as (pre & suf & caps & rest & Hs & HM & _).
    exists pre, suf, caps, rest. done.
  - destruct (0 <? length m2)%nat eqn:H2; [|discriminate].
    apply Nat.ltb_lt in H2. intros H. pose proof (Hgen "->" Remote2Local H2 H) as Hg.
    repeat (split; [apply Hg|]). right.
    subst m2. unfold FindStringSubmatch in H2.
    destruct (find_from _ _) as [ms|] eqn:Hf; [|simpl in H2; lia].
    apply find_from_sound in Hf as (pre & suf & caps & rest & Hs & HM & _).
    exists pre, suf, caps, rest. done.
Qed.

Lemma parseLine_no_match line :
  ~ matches_somewhere regexLocalToRemote line ->
  ~ matches_somewhere regexRemoteToLocal line ->
  parseLine line = None.
Proof.
  intros H1 H2. destruct (parseLine line) as [o|] eqn:Hp; [|done].
  apply parseLine_Some in Hp as (_ & _ & _ & _ & _ & _ & [H|H]); done.
Qed.

Lemma find_from_complete re line :
  matches_somewhere re line -> is_Some (find_from re (chars line)).
Proof.
  intros (pre & suf & caps & rest & -> & HM).
  apply match_here_complete in HM as [[caps' rest'] Hm].
  induction pre as [|a pre IH].
  - simpl. rewrite (find_from_head _ _ _ _ Hm). done.
  - simpl. destruct (match_here re (a :: pre ++ suf)) as [[c r]|]; [done|exact IH].
Qed.

Lemma not_matches_somewhere re line :
  find_from re (chars line) = None -> ~ matches_somewhere re line.
Proof. intros Hf [ms Hms]%find_from_complete. congruence. Qed.

(** C2 (amended): a line of the shape [A-ip:A-port<-B-ip:B-port|PID=pid
    CMD=name] parses to an outbound-from-local (Local2Remote) observation
    and a line of the shape [A-ip:A-port->B-ip:B-port|PID=pid CMD=name] to
    an inbound-to-local (Remote2Local) one; in both, the remote endpoint
    is the first pair (A) and the local endpoint is the second pair (B).
    The address fields are non-empty texts without [<], [>], [|] and
    newline, the port and pid fields are runs of decimal digits whose
    value fits a signed 64-bit integer, the name is a non-empty text
    without [|] and newline.  A line that holds no match of either
    pattern is rejected. *)
Theorem C2_parseLine_shapes (A pA B pB pid name : string)
  (HA : address_field A = true) (HpA : number_field pA = true)
  (HB : address_field B = true) (HpB : number_field pB = true)
  (Hpid : number_field pid = true) (Hname : name_field name = true) :
  parseLine (shaped_line A pA "<-" B pB pid name)
  = Some {| Dir := Local2Remote;
            RemoteIP := A; RemotePort := dec_val pA;
            LocalIP := B; LocalPort := dec_val pB;
            ProcessID := dec_val pid; ProcessName := name |}
  /\ parseLine (shaped_line A pA "->" B pB pid name)
     = Some {| Dir := Remote2Local;
               RemoteIP := A; RemotePort := dec_val pA;
               LocalIP := B; LocalPort := dec_val pB;
               ProcessID := dec_val pid; ProcessName := name |}
  /\ (forall line,
        ~ matches_somewhere regexLocalToRemote line ->
        ~ matches_somewhere regexRemoteToLocal line ->
        parseLine line = None).
Proof.
  split; [by apply parseLine_Local2Remote|].
  split; [by apply parseLine_Remote2Local|].
  apply parseLine_no_match.
Qed.

Lemma C2_parseLine_shapes_witness :
  parseLine "10.0.0.5:8080<-10.0.0.9:443|PID=100 CMD=svcA"
  = Some (mkInputLine Local2Remote "10.0.0.5" 8080 "10.0.0.9" 443 100 "svcA")
  /\ parseLine "10.0.0.5:8080->10.0.0.9:443|PID=100 CMD=svcA"
     = Some (mkInputLine Remote2Local "10.0.0.5" 8080 "10.0.0.9" 443 100 "svcA")
  /\ parseLine "no connection here" = None.
Proof.
  pose proof (C2_parseLine_shapes "10.0.0.5" "8080" "10.0.0.9" "443" "100" "svcA"
                eq_refl eq_refl eq_refl eq_refl eq_refl eq_refl) as (H1 & H2 & H3).
  split; [exact H1|]. split; [exact H2|].
  apply H3; apply not_matches_somewhere; vm_compute; reflexivity.
Defined.

(** The claim as stated fails: on a [<-] line the local endpoint is the
    second pair, not the first. *)
Lemma C2_counterexample :
  exists o,
    parseLine (shaped_line "10.0.0.5" "8080" "<-" "10.0.0.9" "443" "100" "svcA") = Some o
    /\ Dir o = Local2Remote
    /\ (LocalIP o, LocalPort o) <> ("10.0.0.5", 8080)
    /\ (RemoteIP o, RemotePort o) <> ("10.0.0.9", 443).
Proof.
  eexists. split; [vm_compute; reflexivity|]. simpl.
  split; [done|]. split; discriminate.
Qed.

(** ** The noise filter *)

Lemma networkNumberAndMask_loopback :
  networkNumberAndMask loopbackNet = ([127; 0; 0; 0], [255; 0; 0; 0]).
Proof. vm_compute. reflexivity. Qed.

Lemma Contains_loopback s : loopback_ip s -> Contains loopbackNet (ParseIP s) = true.
Proof.
  intros (b & c & d & ->). unfold Contains.
  rewrite networkNumberAndMask_loopback.
  change (To4 (IPv4 127 b c d)) with [127; b; c; d].
  cbn [length Nat.eqb negb masked_eq]. rewrite !Z.land_0_r. reflexivity.
Qed.

Lemma IsValidLine_noise o : noise o -> IsValidLine o = false.
Proof.
  unfold IsValidLine.
  intros [H|[H|[H|[H|H]]]].
  - apply Contains_loopback in H. rewrite H.
    destruct (_ || _); [done|]. done.
  - apply Contains_loopback in H. rewrite H, orb_true_r.
    destruct (_ || _); done.
  - rewrite H. done.
  - rewrite H, orb_true_r. done.
  - apply list_elem_of_singleton in H. rewrite H.
    repeat (destruct (_ || _); [done|]). done.
Qed.

Lemma IsValidLine_true o :
  IsValidLine o = true ->
  LocalPort o <> 0 /\ RemotePort o <> 0
  /\ Contains loopbackNet (ParseIP (LocalIP o)) = false
  /\ Contains loopbackNet (ParseIP (RemoteIP o)) = false
  /\ ProcessName o <> "k3s-server".
Proof.
  unfold IsValidLine.
  destruct (LocalPort o =? 0) eqn:H1; [done|].
  destruct (RemotePort o =? 0) eqn:H2; [done|]. cbn [orb].
  destruct (Contains loopbackNet (ParseIP (LocalIP o))); [done|].
  destruct (Contains loopbackNet (ParseIP (RemoteIP o))); [done|]. cbn [orb].
  destruct (String.eqb_spec (ProcessName o) "k3s-server"); [done|].
  intros _. apply Z.eqb_neq in H1, H2. done.
Qed.

(** C6 (amended): an observation with an IP of the loopback range
    127.0.0.0/8 (an IPv4 address, or an IPv4-mapped IPv6 one) on either
    side, a zero port on either side, or a denylisted process name leaves
    the node store, the endpoint registry and the edge set (and the
    graph) unchanged.  The IPv6 loopback address is outside that range
    and is not filtered. *)
Theorem C6_noise_is_skipped (s : State) (line : string) (o : InputLine) :
  parseLine line = Some o -> noise o -> processLine s line = Ok s.
Proof.
  intros Hp Hn. unfold processLine. rewrite Hp.
  rewrite (IsValidLine_noise o Hn). reflexivity.
Qed.

Lemma C6_noise_is_skipped_witness :
  processLine example_final "127.0.0.1:80->10.0.0.1:90|PID=1 CMD=x" = Ok example_final.
Proof.
  apply (C6_noise_is_skipped example_final _
           (mkInputLine Remote2Local "127.0.0.1" 80 "10.0.0.1" 90 1 "x")).
  - vm_compute. reflexivity.
  - right. left. exists 0, 0, 1. vm_compute. reflexivity.
Defined.

(** The claim as stated fails for the loopback address of IPv6: the
    filter tests 127.0.0.0/8 only, so that an observation with [::1] on a
    side is processed, and gets its node and its registry entry. *)
Lemma C6_counterexample :
  exists line o s',
    parseLine line = Some o
    /\ loopback_address (RemoteIP o)
    /\ processLine initState line = Ok s'
    /\ nodes initState !! ProcessID o = None
    /\ nodes s' !! ProcessID o = Some (new_node o)
    /\ knownEndpoints initState !! localEndpoint o = None
    /\ knownEndpoints s' !! localEndpoint o = Some (ProcessID o).
Proof.
  pose (o := mkInputLine Remote2Local "::1" 80 "10.0.0.1" 90 1 "x").
  exists "::1:80->10.0.0.1:90|PID=1 CMD=x", o,
         (mkState (mkGraph [nodeLabel o] [])
                  (<[1 := new_node o]> ∅) (<[localEndpoint o := 1]> ∅) ∅).
  split; [vm_compute; reflexivity|].
  split; [right; vm_compute; reflexivity|].
  split; [vm_compute; reflexivity|].
  cbn. rewrite !lookup_empty, !lookup_insert_eq. done.
Qed.

(** C8 (amended): an observation that passed parsing and validation has
    a local and a remote port that are positive (and within the 64-bit
    range), and local and remote address texts that are non-empty and
    do not parse to an address of 127.0.0.0/8.  Whether the address
    texts are syntactically valid IP addresses is not checked. *)
Theorem C8_accepted_observation (line : string) (o : InputLine) :
  accepted line o ->
  0 < LocalPort o <= MaxInt64 /\ 0 < RemotePort o <= MaxInt64
  /\ LocalIP o <> "" /\ RemoteIP o <> ""
  /\ ~ loopback_ip (LocalIP o) /\ ~ loopback_ip (RemoteIP o).
Proof.
  intros [Hp Hv].
  apply parseLine_Some in Hp as (Hr & Hl & _ & Hrp & Hlp & _).
  apply IsValidLine_true in Hv as (Hl0 & Hr0 & Hcl & Hcr & _).
  repeat split; try done; try lia.
  - intros H%Contains_loopback. congruence.
  - intros H%Contains_loopback. congruence.
Qed.

Lemma C8_accepted_observation_witness :
  let o := mkInputLine Remote2Local "10.0.0.9" 443 "10.0.0.5" 8080 200 "svcB" in
  0 < LocalPort o <= MaxInt64 /\ 0 < RemotePort o <= MaxInt64
  /\ LocalIP o <> "" /\ RemoteIP o <> ""
  /\ ~ loopback_ip (LocalIP o) /\ ~ loopback_ip (RemoteIP o).
Proof.
  apply (C8_accepted_observation "10.0.0.9:443->10.0.0.5:8080|PID=200 CMD=svcB").
  split; vm_compute; reflexivity.
Defined.

(** The claim as stated fails: the filter lets through address texts that
    are no IP addresses. *)
Lemma C8_counterexample :
  exists line o,
    accepted line o
    /\ ~ valid_ip_syntax (LocalIP o) /\ ~ valid_ip_syntax (RemoteIP o).
Proof.
  exists "foo:1->bar:2|PID=3 CMD=x",
         (mkInputLine Remote2Local "foo" 1 "bar" 2 3 "x").
  split; [split; vm_compute; reflexivity|].
  split; intros H; apply H; vm_compute; reflexivity.
Qed.

(** ** The three steps of the loop body *)

Lemma IndexFunc_ge {A} (l : list A) f : -1 <= IndexFunc l f.
Proof.
  induction l as [|x l IH]; simpl; [lia|].
  destruct (f x); [lia|]. destruct (IndexFunc l f =? -1); lia.
Qed.

Lemma IndexFunc_absent (l : list Z) p :
  IndexFunc l (fun c => c =? p) = -1 <-> p ∉ l.
Proof.
  induction l as [|x l IH]; simpl.
  - split; [intros _; apply not_elem_of_nil|done].
  - rewrite not_elem_of_cons. destruct (Z.eqb_spec x p) as [->|Hne].
    + split; [lia|]. intros [? _]. done.
    + pose proof (IndexFunc_ge l (fun c => c =? p)).
      destruct (Z.eqb_spec (IndexFunc l (fun c => c =? p)) (-1)) as [E|E].
      * split; [|done]. intros _. split; [done|]. by apply IH.
      * split; [lia|]. intros [_ H']. apply IH in H'. done.
Qed.

Lemma union_singleton_elem (e : Edge) (X : gset Edge) : e ∈ X -> X = {[e]} ∪ X.
Proof.
  intros H. apply set_eq. intros x. rewrite elem_of_union, elem_of_singleton.
  split; [auto|]. intros [->|]; auto.
Qed.

Lemma State_eta s : mkState (graph s) (nodes s) (knownEndpoints s) (edges s) = s.
Proof. by destruct s. Qed.

Lemma add_port_elem n p : p ∈ pe_LocalPorts (add_port n p).
Proof.
  unfold add_port. case_bool_decide; [done|]. simpl.
  apply elem_of_app. right. left.
Qed.

Lemma add_port_known n p : p ∈ pe_LocalPorts n -> add_port n p = n.
Proof. intros H. unfold add_port. by rewrite bool_decide_eq_true_2. Qed.

Lemma add_port_identity n p o : same_identity n o -> same_identity (add_port n p) o.
Proof. unfold add_port. case_bool_decide; done. Qed.

Lemma add_port_DotNode n p : pe_DotNode (add_port n p) = pe_DotNode n.
Proof. unfold add_port. case_bool_decide; done. Qed.

Lemma add_port_ProcessID n p : pe_ProcessID (add_port n p) = pe_ProcessID n.
Proof. unfold add_port. case_bool_decide; done. Qed.

(** upsertNode, by cases on what the node store holds. *)
Lemma upsertNode_new s o :
  nodes s !! ProcessID o = None ->
  upsertNode s o
  = Ok (mkState (Graph_Node (graph s) (nodeLabel o)).1
                (<[ProcessID o := new_node o]> (nodes s))
                (knownEndpoints s) (edges s)).
Proof.
  intros H. unfold upsertNode, Graph_Node. rewrite H.
  case_bool_decide; reflexivity.
Qed.

Lemma upsertNode_known s o n :
  nodes s !! ProcessID o = Some n -> same_identity n o ->
  upsertNode s o
  = Ok (mkState (graph s) (<[ProcessID o := add_port n (LocalPort o)]> (nodes s))
                (knownEndpoints s) (edges s)).
Proof.
  intros H (Hid & Hname & Hip). unfold upsertNode. rewrite H.
  rewrite Hid, Hname, Hip, !String.eqb_refl, Z.eqb_refl. cbn [negb].
  unfold add_port. do 3 f_equal.
  destruct (Z.eqb_spec (IndexFunc (pe_LocalPorts n) (fun c => c =? LocalPort o)) (-1)) as [E|E].
  - apply IndexFunc_absent in E. rewrite bool_decide_eq_false_2 by done.
    by rewrite Hid, Hname, Hip.
  - rewrite bool_decide_eq_true_2; [done|].
    destruct (decide (LocalPort o ∈ pe_LocalPorts n)) as [|Hn]; [done|].
    apply IndexFunc_absent in Hn. done.
Qed.

Lemma upsertNode_conflict s o n :
  nodes s !! ProcessID o = Some n -> ~ same_identity n o ->
  exists msg, upsertNode s o = Panic msg.
Proof.
  intros H Hno. unfold upsertNode. rewrite H.
  destruct (String.eqb_spec (pe_LocalIP n) (LocalIP o)); [|eauto].
  destruct (Z.eqb_spec (pe_ProcessID n) (ProcessID o)); [|eauto].
  destruct (String.eqb_spec (pe_ProcessName n) (ProcessName o)); [|eauto].
  exfalso. apply Hno. done.
Qed.

(** registerLocalEndpoint, by cases on what the registry holds. *)
Lemma registerLocalEndpoint_new s o :
  knownEndpoints s !! localEndpoint o = None ->
  registerLocalEndpoint s o
  = Ok (mkState (graph s) (nodes s)
                (<[localEndpoint o := ProcessID o]> (knownEndpoints s)) (edges s)).
Proof. intros H. unfold registerLocalEndpoint. fold (localEndpoint o). by rewrite H. Qed.

Lemma registerLocalEndpoint_known s o :
  knownEndpoints s !! localEndpoint o = Some (ProcessID o) ->
  registerLocalEndpoint s o = Ok s.
Proof.
  intros H. unfold registerLocalEndpoint. fold (localEndpoint o).
  by rewrite H, Z.eqb_refl.
Qed.

Lemma registerLocalEndpoint_conflict s o e :
  knownEndpoints s !! localEndpoint o = Some e -> e <> ProcessID o ->
  exists msg, registerLocalEndpoint s o = Panic msg.
Proof.
  intros H Hne. unfold registerLocalEndpoint. fold (localEndpoint o). rewrite H.
  apply Z.eqb_neq in Hne. rewrite Hne. eauto.
Qed.

(** drawEdge, by cases on what the registry and the edge set hold. *)
Lemma drawEdge_unknown s o :
  knownEndpoints s !! remoteEndpoint o = None -> drawEdge s o = Ok s.
Proof. intros H. unfold drawEdge. fold (remoteEndpoint o). by rewrite H. Qed.

Lemma drawEdge_exists s o remotePID :
  knownEndpoints s !! remoteEndpoint o = Some remotePID ->
  makeEdge o remotePID ∈ edges s ->
  drawEdge s o = Ok s.
Proof.
  intros H Hin. unfold drawEdge. fold (remoteEndpoint o). rewrite H.
  by rewrite bool_decide_eq_true_2.
Qed.

Lemma drawEdge_inv s o s' :
  drawEdge s o = Ok s' ->
  nodes s' = nodes s /\ knownEndpoints s' = knownEndpoints s
  /\ match knownEndpoints s !! remoteEndpoint o with
     | None => s' = s
     | Some remotePID => edges s' = {[makeEdge o remotePID]} ∪ edges s
     end.
Proof.
  unfold drawEdge. fold (remoteEndpoint o).
  destruct (knownEndpoints s !! remoteEndpoint o) as [remotePID|]; [|by intros [= <-]].
  case_bool_decide as Hin.
  - intros [= <-]. repeat split. by apply union_singleton_elem.
  - destruct (Node_Edge _ _ _ _) as [g|msg]; [|discriminate].
    intros [= <-]. done.
Qed.

(** drawEdge draws when the node of the source of the edge is attached
    to the graph. *)
Lemma drawEdge_new s o remotePID n :
  knownEndpoints s !! remoteEndpoint o = Some remotePID ->
  nodes s !! PID (Source (makeEdge o remotePID)) = Some n ->
  node_graph (pe_DotNode n) = true ->
  exists g, drawEdge s o
            = Ok (mkState g (nodes s) (knownEndpoints s)
                          ({[makeEdge o remotePID]} ∪ edges s)).
Proof.
  intros H Hn Hg. unfold drawEdge. fold (remoteEndpoint o). rewrite H.
  case_bool_decide as Hin.
  - exists (graph s). destruct s as [g ns ke es]. cbn in *.
    do 2 f_equal. by apply union_singleton_elem.
  - cbv zeta. rewrite Hn. cbn [default from_option]. unfold id, Node_Edge.
    rewrite Hg. cbn. eauto.
Qed.

(** ** One observation *)

Lemma same_identity_dec n o : {same_identity n o} + {~ same_identity n o}.
Proof.
  unfold same_identity.
  destruct (decide (pe_ProcessID n = ProcessID o)); [|right; tauto].
  destruct (decide (pe_ProcessName n = ProcessName o)); [|right; tauto].
  destruct (decide (pe_LocalIP n = LocalIP o)); [|right; tauto].
  left. done.
Qed.

Lemma upsertNode_inv s o s1 :
  upsertNode s o = Ok s1 ->
  (forall n, nodes s !! ProcessID o = Some n -> same_identity n o)
  /\ nodes s1 = <[ProcessID o := upserted_node s o]> (nodes s)
  /\ knownEndpoints s1 = knownEndpoints s /\ edges s1 = edges s.
Proof.
  unfold upserted_node.
  destruct (nodes s !! ProcessID o) as [n|] eqn:Hn.
  - destruct (same_identity_dec n o) as [Hid|Hno].
    + rewrite (upsertNode_known s o n Hn Hid). intros [= <-]. cbn.
      split; [|done]. by intros ? [= <-].
    + destruct (upsertNode_conflict s o n Hn Hno) as [msg ->]. discriminate.
  - rewrite (upsertNode_new s o Hn). intros [= <-]. cbn. done.
Qed.

Lemma upsertNode_ok s o :
  (forall n, nodes s !! ProcessID o = Some n -> same_identity n o) ->
  exists s1, upsertNode s o = Ok s1.
Proof.
  intros Hc. destruct (nodes s !! ProcessID o) as [n|] eqn:Hn.
  - rewrite (upsertNode_known s o n Hn (Hc n eq_refl)). eauto.
  - rewrite (upsertNode_new s o Hn). eauto.
Qed.

Lemma registerLocalEndpoint_inv s o s2 :
  registerLocalEndpoint s o = Ok s2 ->
  (forall e, knownEndpoints s !! localEndpoint o = Some e -> e = ProcessID o)
  /\ graph s2 = graph s /\ nodes s2 = nodes s
  /\ knownEndpoints s2 = <[localEndpoint o := ProcessID o]> (knownEndpoints s)
  /\ edges s2 = edges s.
Proof.
  destruct (knownEndpoints s !! localEndpoint o) as [e|] eqn:He.
  - destruct (decide (e = ProcessID o)) as [->|Hne].
    + rewrite (registerLocalEndpoint_known s o He). intros [= <-].
      split; [by intros ? [= <-]|]. by rewrite insert_id.
    + destruct (registerLocalEndpoint_conflict s o e He Hne) as [msg ->]. discriminate.
  - rewrite (registerLocalEndpoint_new s o He). intros [= <-]. cbn. done.
Qed.

Lemma registerLocalEndpoint_ok s o :
  (forall e, knownEndpoints s !! localEndpoint o = Some e -> e = ProcessID o) ->
  exists s2, registerLocalEndpoint s o = Ok s2.
Proof.
  intros Hc. destruct (knownEndpoints s !! localEndpoint o) as [e|] eqn:He.
  - rewrite (Hc e eq_refl) in He. rewrite (registerLocalEndpoint_known s o He). eauto.
  - rewrite (registerLocalEndpoint_new s o He). eauto.
Qed.

Lemma processObservation_steps s o s' :
  processObservation s o = Ok s' <->
  exists s1 s2, upsertNode s o = Ok s1 /\ registerLocalEndpoint s1 o = Ok s2
                /\ drawEdge s2 o = Ok s'.
Proof.
  unfold processObservation, mbind, result_bind. split.
  - destruct (upsertNode s o) as [s1|]; [|discriminate].
    destruct (registerLocalEndpoint s1 o) as [s2|] eqn:H2; [|discriminate]. eauto.
  - intros (s1 & s2 & -> & -> & H3). done.
Qed.

(** What a completed turn of the loop leaves in the stores. *)
Lemma processObservation_inv s o s' :
  processObservation s o = Ok s' ->
  consistent s o
  /\ nodes s' = <[ProcessID o := upserted_node s o]> (nodes s)
  /\ knownEndpoints s' = <[localEndpoint o := ProcessID o]> (knownEndpoints s)
  /\ edges s' = edges_after (<[localEndpoint o := ProcessID o]> (knownEndpoints s)) o (edges s).
Proof.
  intros (s1 & s2 & H1 & H2 & H3)%processObservation_steps.
  apply upsertNode_inv in H1 as (Hc1 & Hn1 & Hk1 & He1).
  apply registerLocalEndpoint_inv in H2 as (Hc2 & _ & Hn2 & Hk2 & He2).
  apply drawEdge_inv in H3 as (Hn3 & Hk3 & He3).
  rewrite Hk1 in Hc2, Hk2.
  split; [split; done|].
  split; [congruence|]. split; [congruence|].
  unfold edges_after. rewrite <- Hk2.
  destruct (knownEndpoints s2 !! remoteEndpoint o); [|subst s']; congruence.
Qed.

Lemma upserted_node_identity s o :
  (forall n, nodes s !! ProcessID o = Some n -> same_identity n o) ->
  same_identity (upserted_node s o) o.
Proof.
  intros Hc. unfold upserted_node.
  destruct (nodes s !! ProcessID o) as [n|]; [|done].
  apply add_port_identity. by apply Hc.
Qed.

Lemma upserted_node_port s o : LocalPort o ∈ pe_LocalPorts (upserted_node s o).
Proof.
  unfold upserted_node. destruct (nodes s !! ProcessID o) as [n|].
  - apply add_port_elem.
  - left.
Qed.

Lemma upserted_node_ok s o :
  nodes_ok s ->
  pe_ProcessID (upserted_node s o) = ProcessID o
  /\ node_graph (pe_DotNode (upserted_node s o)) = true.
Proof.
  intros Hok. unfold upserted_node.
  destruct (nodes s !! ProcessID o) as [n|] eqn:Hn; [|done].
  rewrite add_port_ProcessID, add_port_DotNode. by apply Hok.
Qed.

(** The invariants of the stores are kept by each step. *)
Lemma upsertNode_wf s o s1 : wf s -> upsertNode s o = Ok s1 -> wf s1.
Proof.
  intros (Hn & Hr & He) (_ & Hn1 & Hk1 & He1)%upsertNode_inv.
  pose proof (upserted_node_ok s o Hn) as Hup.
  unfold wf, nodes_ok, registry_refs_ok, edge_refs_ok. rewrite Hn1, Hk1, He1.
  split; [|split].
  - intros k n. rewrite lookup_insert.
    case_decide as Hk; [intros [= <-]; by subst k|apply Hn].
  - intros ep pid Hep. apply lookup_insert_is_Some'. right. by eapply Hr.
  - intros e Hin. destruct (He e Hin).
    split; apply lookup_insert_is_Some'; by right.
Qed.

Lemma registerLocalEndpoint_wf s o s2 :
  wf s -> is_Some (nodes s !! ProcessID o) ->
  registerLocalEndpoint s o = Ok s2 -> wf s2.
Proof.
  intros (Hn & Hr & He) Hpid (_ & _ & Hn2 & Hk2 & He2)%registerLocalEndpoint_inv.
  unfold wf, nodes_ok, registry_refs_ok, edge_refs_ok. rewrite Hn2, Hk2, He2.
  split; [done|]. split; [|done].
  intros ep pid. rewrite lookup_insert.
  case_decide; [by intros [= <-]|apply Hr].
Qed.

Lemma makeEdge_PIDs o remotePID :
  (PID (Source (makeEdge o remotePID)) = ProcessID o
   /\ PID (Dest (makeEdge o remotePID)) = remotePID)
  \/ (PID (Source (makeEdge o remotePID)) = remotePID
      /\ PID (Dest (makeEdge o remotePID)) = ProcessID o).
Proof. unfold makeEdge. destruct (Dir o); cbn; auto. Qed.

Lemma drawEdge_wf s o s' :
  wf s -> is_Some (nodes s !! ProcessID o) -> drawEdge s o = Ok s' -> wf s'.
Proof.
  intros (Hn & Hr & He) Hpid (Hn3 & Hk3 & He3)%drawEdge_inv.
  unfold wf, nodes_ok, registry_refs_ok, edge_refs_ok. rewrite Hn3, Hk3.
  split; [done|]. split; [done|].
  destruct (knownEndpoints s !! remoteEndpoint o) as [remotePID|] eqn:Hrem;
    [|by subst s'].
  rewrite He3. intros e [->%elem_of_singleton|Hin]%elem_of_union; [|by apply He].
  apply Hr in Hrem.
  destruct (makeEdge_PIDs o remotePID) as [[-> ->]|[-> ->]]; done.
Qed.

Lemma processObservation_wf s o s' : wf s -> processObservation s o = Ok s' -> wf s'.
Proof.
  intros Hwf (s1 & s2 & H1 & H2 & H3)%processObservation_steps.
  pose proof (upsertNode_wf _ _ _ Hwf H1) as Hwf1.
  assert (Hpid : is_Some (nodes s1 !! ProcessID o)).
  { apply upsertNode_inv in H1 as (_ & -> & _). rewrite lookup_insert_eq. eauto. }
  pose proof (registerLocalEndpoint_wf _ _ _ Hwf1 Hpid H2) as Hwf2.
  assert (Hpid2 : is_Some (nodes s2 !! ProcessID o)).
  { apply registerLocalEndpoint_inv in H2 as (_ & _ & -> & _). done. }
  by apply (drawEdge_wf s2 o).
Qed.

(** With consistent input and sound stores, the turn completes. *)
Lemma drawEdge_ok s o :
  wf s -> is_Some (nodes s !! ProcessID o) -> exists s', drawEdge s o = Ok s'.
Proof.
  intros (Hn & Hr & He) [n0 Hpid].
  destruct (knownEndpoints s !! remoteEndpoint o) as [remotePID|] eqn:Hrem.
  - destruct (Hr _ _ Hrem) as [nr Hnr].
    assert (exists n, nodes s !! PID (Source (makeEdge o remotePID)) = Some n) as [n Hs].
    { destruct (makeEdge_PIDs o remotePID) as [[-> _]|[-> _]]; eauto. }
    destruct (drawEdge_new s o remotePID n Hrem Hs) as [g ->]; [|eauto].
    by apply (Hn _ _ Hs).
  - rewrite (drawEdge_unknown s o Hrem). eauto.
Qed.

Lemma processObservation_ok s o :
  wf s -> consistent s o -> exists s', processObservation s o = Ok s'.
Proof.
  intros Hwf [Hc1 Hc2].
  destruct (upsertNode_ok s o Hc1) as [s1 H1].
  pose proof (upsertNode_wf _ _ _ Hwf H1) as Hwf1.
  pose proof H1 as (_ & Hn1 & Hk1 & _)%upsertNode_inv.
  destruct (registerLocalEndpoint_ok s1 o) as [s2 H2]; [by rewrite Hk1|].
  assert (Hpid : is_Some (nodes s1 !! ProcessID o))
    by (rewrite Hn1, lookup_insert_eq; eauto).
  pose proof (registerLocalEndpoint_wf _ _ _ Hwf1 Hpid H2) as Hwf2.
  pose proof H2 as (_ & _ & Hn2 & _)%registerLocalEndpoint_inv.
  destruct (drawEdge_ok s2 o Hwf2) as [s' H3]; [by rewrite Hn2|].
  exists s'. apply processObservation_steps. eauto.
Qed.

Lemma processLine_accepted s line o :
  accepted line o -> processLine s line = processObservation s o.
Proof. intros [Hp Hv]. unfold processLine. by rewrite Hp, Hv. Qed.

(** ** Runs *)

Lemma processLine_wf s line s' : wf s -> processLine s line = Ok s' -> wf s'.
Proof.
  intros Hwf. unfold processLine.
  destruct (parseLine line) as [o|]; [|by intros [= <-]].
  destruct (IsValidLine o); cbn [negb]; [|by intros [= <-]].
  by apply processObservation_wf.
Qed.

Lemma scanLines_wf lines : forall s s', wf s -> scanLines s lines = Ok s' -> wf s'.
Proof.
  induction lines as [|line lines IH]; intros s s' Hwf; simpl.
  - by intros [= <-].
  - unfold mbind, result_bind.
    destruct (processLine s line) as [s1|] eqn:H1; [|discriminate].
    apply IH. by eapply processLine_wf.
Qed.

Lemma initState_wf : wf initState.
Proof.
  unfold wf, nodes_ok, registry_refs_ok, edge_refs_ok, initState. cbn.
  split; [|split].
  - intros k n. by rewrite lookup_empty.
  - intros ep pid. by rewrite lookup_empty.
  - intros e. by rewrite elem_of_empty.
Qed.

Lemma reachable_wf s : reachable s -> wf s.
Proof. intros [lines H]. eapply scanLines_wf; [apply initState_wf|exact H]. Qed.

Lemma scanLines_app l1 : forall s l2,
  scanLines s (l1 ++ l2) = scanLines s l1 ≫= fun s' => scanLines s' l2.
Proof.
  induction l1 as [|line l1 IH]; intros s l2; simpl; [done|].
  unfold mbind, result_bind. destruct (processLine s line); [|done]. apply IH.
Qed.

Lemma reachable_step s line s' :
  reachable s -> processLine s line = Ok s' -> reachable s'.
Proof.
  intros [lines H] H'. exists (lines ++ [line]).
  unfold createGraphFromStdin in *. rewrite scanLines_app, H. simpl.
  unfold mbind, result_bind. by rewrite H'.
Qed.

(** C9: in every state that a run goes through, every edge of the edge
    set has its source and its destination process id among the keys of
    the node store.  Within a turn of the loop, the node of the local
    process is in the store once the upsert is done, the edge set changes
    in the last step only, and that step leaves the node store as it is. *)
Theorem C9_edges_reference_nodes (lines : list string) (s : State) :
  createGraphFromStdin lines = Ok s ->
  (forall e, e ∈ edges s ->
             is_Some (nodes s !! PID (Source e)) /\ is_Some (nodes s !! PID (Dest e)))
  /\ (forall o s1 s2 s3,
        upsertNode s o = Ok s1 ->
        registerLocalEndpoint s1 o = Ok s2 ->
        drawEdge s2 o = Ok s3 ->
        is_Some (nodes s1 !! ProcessID o)
        /\ edges s1 = edges s /\ edges s2 = edges s
        /\ nodes s2 = nodes s1 /\ nodes s3 = nodes s1
        /\ (forall e, e ∈ edges s3 ->
                      is_Some (nodes s3 !! PID (Source e))
                      /\ is_Some (nodes s3 !! PID (Dest e)))).
Proof.
  intros Hrun. assert (Hwf : wf s) by (apply reachable_wf; by exists lines).
  split; [apply Hwf|].
  intros o s1 s2 s3 H1 H2 H3.
  assert (Hwf3 : wf s3).
  { apply (processObservation_wf s o); [done|].
    apply processObservation_steps. eauto. }
  apply upsertNode_inv in H1 as (_ & Hn1 & _ & He1).
  apply registerLocalEndpoint_inv in H2 as (_ & _ & Hn2 & _ & He2).
  apply drawEdge_inv in H3 as (Hn3 & _ & _).
  split; [rewrite Hn1, lookup_insert_eq; eauto|].
  split; [done|]. split; [congruence|]. split; [done|]. split; [congruence|].
  apply Hwf3.
Qed.

Lemma C9_edges_reference_nodes_witness :
  is_Some (nodes example_final !! 100) /\ is_Some (nodes example_final !! 200).
Proof.
  apply (proj1 (C9_edges_reference_nodes example_lines example_final example_run)
               (mkEdge (mkProcessEndpoint 100 443) (mkProcessEndpoint 200 8080))).
  unfold example_final. cbn. apply elem_of_singleton. reflexivity.
Defined.

(** C10: self-loop edges are not suppressed.  There is an input of
    accepted lines in which the remote endpoint of an observation is an
    endpoint that the same process registered earlier as its own local
    endpoint, and the run records an edge whose source and destination
    process ids are equal. *)
Theorem C10_self_loop_recorded :
  exists s e,
    Forall (fun line => exists o, accepted line o) self_loop_lines
    /\ createGraphFromStdin self_loop_lines = Ok s
    /\ e ∈ edges s
    /\ PID (Source e) = PID (Dest e).
Proof.
  exists (mkState
            (mkGraph [nodeLabel (mkInputLine Remote2Local "" 0 "10.0.0.5" 0 100 "svcA")]
                     [(nodeLabel (mkInputLine Remote2Local "" 0 "10.0.0.5" 0 100 "svcA"),
                       nodeLabel (mkInputLine Remote2Local "" 0 "10.0.0.5" 0 100 "svcA"),
                       "10.0.0.5:8080->10.0.0.5:9090")])
            (<[100 := mkProcessEndpoints 100 "svcA" "10.0.0.5" [8080; 9090]
                        (mkNode true
                           (nodeLabel (mkInputLine Remote2Local "" 0 "10.0.0.5" 0 100 "svcA")))]> ∅)
            (<[mkNetworkEndpoint "10.0.0.5" 9090 := 100]>
               (<[mkNetworkEndpoint "10.0.0.5" 8080 := 100]> ∅))
            {[mkEdge (mkProcessEndpoint 100 8080) (mkProcessEndpoint 100 9090)]}),
         (mkEdge (mkProcessEndpoint 100 8080) (mkProcessEndpoint 100 9090)).
  split.
  - repeat constructor.
    + exists (mkInputLine Remote2Local "10.0.0.9" 443 "10.0.0.5" 8080 100 "svcA").
      split; vm_compute; reflexivity.
    + exists (mkInputLine Remote2Local "10.0.0.5" 8080 "10.0.0.5" 9090 100 "svcA").
      split; vm_compute; reflexivity.
  - split; [vm_compute; reflexivity|]. split; [|reflexivity].
    cbn. apply elem_of_singleton. reflexivity.
Qed.

(** ** The example scenario of the specification *)

(** C1 (amended): fed to the program from the empty state, the two
    example lines yield exactly two nodes, pid 100 labelled "svcA" with
    local IP 10.0.0.9 (port 443) and pid 200 labelled "svcB" with local IP
    10.0.0.5 (port 8080), and exactly one directed edge, from (pid 100,
    port 443) to (pid 200, port 8080). *)
Theorem C1_example_scenario :
  exists s,
    createGraphFromStdin example_lines = Ok s
    /\ dom (nodes s) = {[100; 200]}
    /\ nodes s !! 100
       = Some (mkProcessEndpoints 100 "svcA" "10.0.0.9" [443] (mkNode true svcA_id))
    /\ nodes s !! 200
       = Some (mkProcessEndpoints 200 "svcB" "10.0.0.5" [8080] (mkNode true svcB_id))
    /\ edges s = {[mkEdge (mkProcessEndpoint 100 443) (mkProcessEndpoint 200 8080)]}
    /\ g_edges (graph s) = [(svcA_id, svcB_id, "10.0.0.9:443->10.0.0.5:8080")].
Proof.
  exists example_final. split; [exact example_run|].
  split; [vm_compute; reflexivity|]. done.
Qed.

(** The outcome that the specification expects of the example is not the
    outcome of the run. *)
Lemma C1_counterexample :
  exists s, createGraphFromStdin example_lines = Ok s /\ ~ example_as_specified s.
Proof.
  exists example_final. split; [exact example_run|].
  intros (_ & (n & Hn & _ & Hip) & _).
  unfold example_final in Hn. cbn in Hn. rewrite lookup_insert_eq in Hn.
  injection Hn as <-. discriminate.
Qed.

(** ** Idempotence *)

Lemma processObservation_twice s o s' :
  processObservation s o = Ok s' -> processObservation s' o = Ok s'.
Proof.
  intros H. pose proof H as (s1 & s2 & H1 & H2 & H3)%processObservation_steps.
  pose proof H as ([Hc1 Hc2] & Hn & Hk & He)%processObservation_inv.
  apply drawEdge_inv in H3 as (_ & Hk3 & He3).
  apply processObservation_steps. exists s', s'.
  assert (Hnode : nodes s' !! ProcessID o = Some (upserted_node s o))
    by (rewrite Hn; apply lookup_insert_eq).
  assert (Hreg : knownEndpoints s' !! localEndpoint o = Some (ProcessID o))
    by (rewrite Hk; apply lookup_insert_eq).
  split; [|split].
  - rewrite (upsertNode_known s' o _ Hnode (upserted_node_identity s o Hc1)).
    rewrite add_port_known by apply upserted_node_port.
    rewrite insert_id by done. by rewrite State_eta.
  - by apply registerLocalEndpoint_known.
  - rewrite <- Hk3 in He3.
    destruct (knownEndpoints s' !! remoteEndpoint o) as [remotePID|] eqn:Hrem.
    + apply (drawEdge_exists s' o remotePID Hrem).
      rewrite He3. apply elem_of_union. left. by apply elem_of_singleton.
    + by apply drawEdge_unknown.
Qed.

Lemma add_port_NoDup n p : NoDup (pe_LocalPorts n) -> NoDup (pe_LocalPorts (add_port n p)).
Proof.
  intros Hnd. unfold add_port. case_bool_decide as Hin; [done|]. cbn.
  apply NoDup_app. split; [done|]. split.
  - intros x Hx ->%list_elem_of_singleton. done.
  - apply NoDup_singleton.
Qed.

Lemma processObservation_ports_nodup s o s' :
  ports_nodup s -> processObservation s o = Ok s' -> ports_nodup s'.
Proof.
  intros Hnd (_ & Hn & _)%processObservation_inv.
  unfold ports_nodup. rewrite Hn. intros k n. rewrite lookup_insert.
  case_decide; [|apply Hnd]. intros [= <-]. unfold upserted_node.
  destruct (nodes s !! ProcessID o) as [n0|] eqn:Hn0.
  - apply add_port_NoDup. by eapply Hnd.
  - cbn. apply NoDup_singleton.
Qed.

(** C5: processing the same line twice in succession is idempotent on the
    stores.  Once a line has been processed, processing it again
    completes and leaves the state as it is: no port is added to the node
    of the process, whose ports stay free of duplicates, and no edge is
    added to the edge set nor drawn in the graph. *)
Theorem C5_same_line_twice (s : State) (line : string) (s' : State) :
  processLine s line = Ok s' ->
  processLine s' line = Ok s' /\ (ports_nodup s -> ports_nodup s').
Proof.
  unfold processLine. destruct (parseLine line) as [o|]; [|by intros [= <-]].
  destruct (IsValidLine o); cbn [negb]; [|by intros [= <-]].
  intros H. split; [by apply (processObservation_twice s)|].
  intros Hnd. by apply (processObservation_ports_nodup s o).
Qed.

Lemma C5_same_line_twice_witness :
  exists s',
    processLine initState "10.0.0.9:443->10.0.0.5:8080|PID=200 CMD=svcB" = Ok s'
    /\ processLine s' "10.0.0.9:443->10.0.0.5:8080|PID=200 CMD=svcB" = Ok s'.
Proof.
  eexists. split; [vm_compute; reflexivity|].
  apply (C5_same_line_twice initState). vm_compute. reflexivity.
Defined.

(** ** Observations whose remote endpoint is unknown *)

(** C7 (amended): for an accepted observation whose remote endpoint is
    absent from the endpoint registry and is not the observation's own
    local endpoint, processing completes unless the observation
    contradicts the stores, and when it completes it has created or
    updated the node of the local process, registered the local endpoint,
    and added no edge. *)
Theorem C7_unresolved_remote (s : State) (line : string) (o : InputLine) :
  accepted line o ->
  knownEndpoints s !! remoteEndpoint o = None ->
  remoteEndpoint o <> localEndpoint o ->
  (consistent s o -> exists s', processLine s line = Ok s')
  /\ (forall s',
        processLine s line = Ok s' ->
        edges s' = edges s
        /\ (exists n, nodes s' !! ProcessID o = Some n
                      /\ same_identity n o /\ LocalPort o ∈ pe_LocalPorts n)
        /\ knownEndpoints s' !! localEndpoint o = Some (ProcessID o)).
Proof.
  intros Hacc Hrem Hne. rewrite (processLine_accepted s line o Hacc). split.
  - intros [Hc1 Hc2].
    destruct (upsertNode_ok s o Hc1) as [s1 H1].
    pose proof H1 as (_ & _ & Hk1 & _)%upsertNode_inv.
    destruct (registerLocalEndpoint_ok s1 o) as [s2 H2]; [by rewrite Hk1|].
    pose proof H2 as (_ & _ & _ & Hk2 & _)%registerLocalEndpoint_inv.
    exists s2. apply processObservation_steps. exists s1, s2.
    split; [done|]. split; [done|]. apply drawEdge_unknown.
    rewrite Hk2, Hk1, lookup_insert_ne; done.
  - intros s' ([Hc1 _] & Hn & Hk & He)%processObservation_inv.
    split; [|split].
    + rewrite He. unfold edges_after. rewrite lookup_insert_ne by done. by rewrite Hrem.
    + exists (upserted_node s o). rewrite Hn, lookup_insert_eq.
      split; [done|]. split; [by apply upserted_node_identity|apply upserted_node_port].
    + rewrite Hk. apply lookup_insert_eq.
Qed.

Lemma C7_unresolved_remote_witness :
  exists s',
    processLine initState "10.0.0.5:8080<-10.0.0.9:443|PID=100 CMD=svcA" = Ok s'
    /\ edges s' = edges initState
    /\ knownEndpoints s' !! mkNetworkEndpoint "10.0.0.9" 443 = Some 100.
Proof.
  destruct (C7_unresolved_remote initState
              "10.0.0.5:8080<-10.0.0.9:443|PID=100 CMD=svcA"
              (mkInputLine Local2Remote "10.0.0.5" 8080 "10.0.0.9" 443 100 "svcA"))
    as [Hok Hprop].
  - split; vm_compute; reflexivity.
  - reflexivity.
  - discriminate.
  - destruct Hok as [s' Hs'].
    + split; intros x; cbn; rewrite lookup_empty; discriminate.
    + exists s'. destruct (Hprop s' Hs') as (He & _ & Hk). done.
Defined.

(** The claim as stated fails when the remote endpoint, absent from the
    registry, is the local endpoint of the observation itself: the local
    endpoint is registered before the remote one is looked up. *)
Lemma C7_counterexample :
  exists line o s',
    accepted line o
    /\ knownEndpoints initState !! remoteEndpoint o = None
    /\ processLine initState line = Ok s'
    /\ edges s' <> edges initState.
Proof.
  pose (o := mkInputLine Remote2Local "10.0.0.1" 80 "10.0.0.1" 80 1 "x").
  pose (e := mkEdge (mkProcessEndpoint 1 80) (mkProcessEndpoint 1 80)).
  exists "10.0.0.1:80->10.0.0.1:80|PID=1 CMD=x", o,
         (mkState (mkGraph [nodeLabel o]
                           [(nodeLabel o, nodeLabel o, "10.0.0.1:80->10.0.0.1:80")])
                  (<[1 := new_node o]> ∅) (<[localEndpoint o := 1]> ∅) {[e]}).
  split; [split; vm_compute; reflexivity|].
  split; [reflexivity|]. split; [vm_compute; reflexivity|].
  cbn. intros H. assert (Hin : e ∈ (∅ : gset Edge)).
  { rewrite <- H. by apply elem_of_singleton. }
  by apply elem_of_empty in Hin.
Qed.

(** ** Consistency violations *)

Lemma Panic_aborts s line :
  (exists msg, processLine s line = Panic msg) -> aborts s line.
Proof.
  intros [msg H]. exists msg. split; [done|].
  intros rest. simpl. by rewrite H.
Qed.

(** C4: processing an accepted observation whose process id is known
    under another label or another local IP, or whose local endpoint is
    registered to another process id, panics.  When the observation
    contradicts nothing in the stores (the identity it reports is the
    stored one, the mapping of its endpoint is the registered one),
    processing completes, the stored identity of the process is
    unchanged, and a registry that held the endpoint is unchanged. *)
Theorem C4_consistency_violations (s : State) (line : string) (o : InputLine) :
  reachable s ->
  accepted line o ->
  (forall n, nodes s !! ProcessID o = Some n ->
             pe_ProcessName n <> ProcessName o \/ pe_LocalIP n <> LocalIP o ->
             aborts s line)
  /\ (forall e, knownEndpoints s !! localEndpoint o = Some e ->
                e <> ProcessID o ->
                aborts s line)
  /\ (consistent s o ->
      exists s',
        processLine s line = Ok s'
        /\ (forall n, nodes s !! ProcessID o = Some n ->
                      exists n', nodes s' !! ProcessID o = Some n'
                                 /\ pe_ProcessID n' = pe_ProcessID n
                                 /\ pe_ProcessName n' = pe_ProcessName n
                                 /\ pe_LocalIP n' = pe_LocalIP n
                                 /\ pe_DotNode n' = pe_DotNode n)
        /\ (forall e, knownEndpoints s !! localEndpoint o = Some e ->
                      knownEndpoints s' = knownEndpoints s)).
Proof.
  intros Hwf%reachable_wf Hacc.
  split; [|split].
  - intros n Hn Hdiff. apply Panic_aborts.
    rewrite (processLine_accepted s line o Hacc).
    destruct (upsertNode_conflict s o n Hn) as [msg Hp].
    { intros (_ & ? & ?). destruct Hdiff; done. }
    exists msg. unfold processObservation. by rewrite Hp.
  - intros e He Hne. apply Panic_aborts.
    rewrite (processLine_accepted s line o Hacc).
    unfold processObservation, mbind, result_bind.
    destruct (upsertNode s o) as [s1|msg] eqn:H1; [|eauto].
    apply upsertNode_inv in H1 as (_ & _ & Hk1 & _).
    destruct (registerLocalEndpoint_conflict s1 o e) as [msg ->]; [by rewrite Hk1|done|].
    eauto.
  - rewrite (processLine_accepted s line o Hacc). intros Hc. destruct (processObservation_ok s o Hwf Hc) as [s' H].
    exists s'. split; [done|].
    apply processObservation_inv in H as (_ & Hn' & Hk' & _).
    split.
    + intros n Hn. exists (add_port n (LocalPort o)).
      rewrite Hn', lookup_insert_eq. unfold upserted_node. rewrite Hn.
      split; [done|]. unfold add_port. case_bool_decide; done.
    + intros e He. rewrite Hk'. apply insert_id.
      destruct Hc as [_ Hc2]. by rewrite (Hc2 e He) in He.
Qed.

Lemma C4_consistency_violations_witness :
  aborts example_final "10.0.0.9:443->10.0.0.5:8080|PID=200 CMD=other"
  /\ aborts example_final "10.0.0.9:443->10.0.0.5:8080|PID=300 CMD=svcC"
  /\ (exists s', processLine example_final "10.0.0.9:443->10.0.0.5:8080|PID=200 CMD=svcB"
                 = Ok s').
Proof.
  assert (Hr : reachable example_final) by (exists example_lines; exact example_run).
  split; [|split].
  - refine (proj1 (C4_consistency_violations example_final _
              (mkInputLine Remote2Local "10.0.0.9" 443 "10.0.0.5" 8080 200 "other") Hr _) _ _ _).
    + split; vm_compute; reflexivity.
    + reflexivity.
    + left. discriminate.
  - refine (proj1 (proj2 (C4_consistency_violations example_final _
              (mkInputLine Remote2Local "10.0.0.9" 443 "10.0.0.5" 8080 300 "svcC") Hr _)) 200 _ _).
    + split; vm_compute; reflexivity.
    + reflexivity.
    + discriminate.
  - destruct (proj2 (proj2 (C4_consistency_violations example_final
              "10.0.0.9:443->10.0.0.5:8080|PID=200 CMD=svcB"
              (mkInputLine Remote2Local "10.0.0.9" 443 "10.0.0.5" 8080 200 "svcB") Hr
              (conj eq_refl eq_refl)))) as [s' [H _]].
    + split.
      * intros n Hn. unfold example_final in Hn. cbn in Hn.
        rewrite lookup_insert_ne, lookup_insert_eq in Hn by discriminate.
        injection Hn as <-. done.
      * intros e He. unfold example_final in He. cbn in He.
        rewrite lookup_insert_ne, lookup_insert_eq in He by discriminate.
        by injection He as <-.
    + exists s'. exact H.
Defined.

(** ** The two observations of one connection *)

Lemma processObservation_run s o :
  wf s -> consistent s o ->
  exists s',
    processObservation s o = Ok s' /\ wf s'
    /\ nodes s' = <[ProcessID o := upserted_node s o]> (nodes s)
    /\ knownEndpoints s' = <[localEndpoint o := ProcessID o]> (knownEndpoints s)
    /\ edges s' = edges_after (<[localEndpoint o := ProcessID o]> (knownEndpoints s))
                              o (edges s).
Proof.
  intros Hwf Hc. destruct (processObservation_ok s o Hwf Hc) as [s' H].
  exists s'. split; [done|]. split; [by apply (processObservation_wf s o)|].
  by apply processObservation_inv in H as (_ & ? & ? & ?).
Qed.

Lemma agree_sym o1 o2 : agree o1 o2 -> agree o2 o1.
Proof.
  intros [H1 H2]. split.
  - intros E. destruct (H1 (eq_sym E)). done.
  - intros E. symmetry. by apply H2.
Qed.

Lemma same_identity_agree n o1 o2 :
  agree o1 o2 -> ProcessID o1 = ProcessID o2 ->
  same_identity n o1 -> same_identity n o2.
Proof.
  intros [Ha _] E (Hid & Hname & Hip). destruct (Ha E) as [En Ei].
  unfold same_identity. rewrite <- E, <- En, <- Ei. done.
Qed.

(** An observation that agrees with the one just processed is still
    consistent with the stores. *)
Lemma consistent_after s o1 o2 s1 :
  consistent s o1 -> consistent s o2 -> agree o1 o2 ->
  processObservation s o1 = Ok s1 ->
  consistent s1 o2.
Proof.
  intros [Hc1 _] [Hc2 Hc2'] Hag (_ & Hn & Hk & _)%processObservation_inv.
  unfold consistent. rewrite Hn, Hk. split.
  - intros n. rewrite lookup_insert. case_decide as E; [|apply Hc2].
    intros [= <-]. apply (same_identity_agree _ o1); [done..|].
    by apply upserted_node_identity.
  - intros e. rewrite lookup_insert. case_decide as E; [|apply Hc2'].
    intros [= <-]. by apply Hag.
Qed.

Section Mirror.
Variables (o1 o2 : InputLine).
Hypothesis Hmirror : mirror o1 o2.

Lemma mirror_ports :
  LocalPort o2 = RemotePort o1 /\ RemotePort o2 = LocalPort o1.
Proof.
  destruct Hmirror as (_ & _ & E1 & E2).
  unfold localEndpoint, remoteEndpoint in *.
  injection E1 as _ ->. injection E2 as _ ->. done.
Qed.

Lemma makeEdge_outbound : makeEdge o1 (ProcessID o2) = connection_edge o1 o2.
Proof.
  destruct Hmirror as (D1 & _). destruct mirror_ports as [E _].
  unfold makeEdge, connection_edge. rewrite D1, E. done.
Qed.

Lemma makeEdge_inbound : makeEdge o2 (ProcessID o1) = connection_edge o1 o2.
Proof.
  destruct Hmirror as (_ & D2 & _). destruct mirror_ports as [_ E].
  unfold makeEdge, connection_edge. rewrite D2, E. done.
Qed.

(** With the remote endpoint of the outbound observation owned by the
    process of the inbound one, or by nobody. *)
Lemma edges_after_outbound (ke : gmap NetworkEndpoint Z) (es : gset Edge) :
  (forall q, ke !! remoteEndpoint o1 = Some q -> q = ProcessID o2) ->
  {[connection_edge o1 o2]} ∪ edges_after ke o1 es = {[connection_edge o1 o2]} ∪ es.
Proof.
  intros Hq. unfold edges_after.
  destruct (ke !! remoteEndpoint o1) as [q|]; [|done].
  rewrite (Hq q eq_refl), makeEdge_outbound.
  by rewrite (assoc_L (∪)), union_idemp_L.
Qed.

Lemma edges_after_inbound (ke : gmap NetworkEndpoint Z) (es : gset Edge) :
  (forall q, ke !! remoteEndpoint o2 = Some q -> q = ProcessID o1) ->
  {[connection_edge o1 o2]} ∪ edges_after ke o2 es = {[connection_edge o1 o2]} ∪ es.
Proof.
  intros Hq. unfold edges_after.
  destruct (ke !! remoteEndpoint o2) as [q|]; [|done].
  rewrite (Hq q eq_refl), makeEdge_inbound.
  by rewrite (assoc_L (∪)), union_idemp_L.
Qed.

Lemma edges_after_outbound_known (ke : gmap NetworkEndpoint Z) (es : gset Edge) :
  ke !! remoteEndpoint o1 = Some (ProcessID o2) ->
  edges_after ke o1 es = {[connection_edge o1 o2]} ∪ es.
Proof. intros H. unfold edges_after. by rewrite H, makeEdge_outbound. Qed.

Lemma edges_after_inbound_known (ke : gmap NetworkEndpoint Z) (es : gset Edge) :
  ke !! remoteEndpoint o2 = Some (ProcessID o1) ->
  edges_after ke o2 es = {[connection_edge o1 o2]} ∪ es.
Proof. intros H. unfold edges_after. by rewrite H, makeEdge_inbound. Qed.

Variable s : State.

Lemma outbound_then_inbound_edges s1 s12 :
  processObservation s o1 = Ok s1 -> processObservation s1 o2 = Ok s12 ->
  edges s12 = {[connection_edge o1 o2]} ∪ edges s.
Proof.
  destruct Hmirror as (_ & _ & EL & ER).
  intros (_ & _ & Hk1 & He1)%processObservation_inv
         ([_ Hc2] & _ & _ & He2)%processObservation_inv.
  rewrite He2, edges_after_inbound_known.
  - rewrite He1. apply edges_after_outbound.
    intros q Hq. apply Hc2. by rewrite EL, Hk1.
  - rewrite ER, lookup_insert. case_decide as E.
    + f_equal. symmetry. apply Hc2. rewrite E, Hk1. apply lookup_insert_eq.
    + rewrite Hk1. apply lookup_insert_eq.
Qed.

Lemma inbound_then_outbound_edges s2 s21 :
  processObservation s o2 = Ok s2 -> processObservation s2 o1 = Ok s21 ->
  edges s21 = {[connection_edge o1 o2]} ∪ edges s.
Proof.
  destruct Hmirror as (_ & _ & EL & ER).
  intros (_ & _ & Hk2 & He2)%processObservation_inv
         ([_ Hc1] & _ & _ & He1)%processObservation_inv.
  rewrite He1, edges_after_outbound_known.
  - rewrite He2. apply edges_after_inbound.
    intros q Hq. apply Hc1. by rewrite <- ER, Hk2.
  - rewrite <- EL, lookup_insert. case_decide as E.
    + f_equal. symmetry. apply Hc1. rewrite E, Hk2. apply lookup_insert_eq.
    + rewrite Hk2. apply lookup_insert_eq.
Qed.

Hypothesis Hwf : wf s.
Hypothesis Hc1 : consistent s o1.
Hypothesis Hc2 : consistent s o2.
Hypothesis Hag : agree o1 o2.

Lemma outbound_then_inbound_ok :
  exists s12, (processObservation s o1 ≫= fun s1 => processObservation s1 o2) = Ok s12.
Proof.
  destruct (processObservation_run s o1 Hwf Hc1) as (s1 & H1 & Hwf1 & _).
  pose proof (consistent_after s o1 o2 s1 Hc1 Hc2 Hag H1) as Hc2'.
  destruct (processObservation_ok s1 o2 Hwf1 Hc2') as (s12 & H2).
  exists s12. unfold mbind, result_bind. by rewrite H1.
Qed.

Lemma inbound_then_outbound_ok :
  exists s21, (processObservation s o2 ≫= fun s2 => processObservation s2 o1) = Ok s21.
Proof.
  destruct (processObservation_run s o2 Hwf Hc2) as (s2 & H2 & Hwf2 & _).
  pose proof (consistent_after s o2 o1 s2 Hc2 Hc1 (agree_sym _ _ Hag) H2) as Hc1'.
  destruct (processObservation_ok s2 o1 Hwf2 Hc1') as (s21 & H1).
  exists s21. unfold mbind, result_bind. by rewrite H2.
Qed.
End Mirror.

Lemma bind_Ok_inv {A B} (r : result A) (f : A -> result B) b :
  r ≫= f = Ok b -> exists a, r = Ok a /\ f a = Ok b.
Proof. unfold mbind, result_bind. destruct r as [a|]; [eauto|discriminate]. Qed.

(** C3: two observations that are mirrors of one connection, processed
    from the same state of a run in either order.  Whenever the two
    turns complete, the edge set is the edge set of that state with the
    one edge of the connection added to it: the same ordered pair in both
    orders, from the endpoint of the process that observed the connection
    as outbound to the endpoint of the one that observed it as inbound.
    Both orders do complete when the observations contradict neither the
    stores nor each other. *)
Theorem C3_mirror_observations (s : State) (o1 o2 : InputLine) :
  reachable s ->
  mirror o1 o2 ->
  (forall s12,
     (processObservation s o1 ≫= fun s1 => processObservation s1 o2) = Ok s12 ->
     edges s12 = {[connection_edge o1 o2]} ∪ edges s)
  /\ (forall s21,
        (processObservation s o2 ≫= fun s2 => processObservation s2 o1) = Ok s21 ->
        edges s21 = {[connection_edge o1 o2]} ∪ edges s)
  /\ (consistent s o1 -> consistent s o2 -> agree o1 o2 ->
      (exists s12,
         (processObservation s o1 ≫= fun s1 => processObservation s1 o2) = Ok s12)
      /\ (exists s21,
            (processObservation s o2 ≫= fun s2 => processObservation s2 o1) = Ok s21)).
Proof.
  intros Hwf%reachable_wf Hm. split; [|split].
  - intros s12 (s1 & H1 & H2)%bind_Ok_inv.
    by apply (outbound_then_inbound_edges o1 o2 Hm s s1).
  - intros s21 (s2 & H2 & H1)%bind_Ok_inv.
    by apply (inbound_then_outbound_edges o1 o2 Hm s s2).
  - intros Hc1 Hc2 Hag. split.
    + by apply outbound_then_inbound_ok.
    + by apply inbound_then_outbound_ok.
Qed.

Lemma C3_mirror_observations_witness :
  let o1 := mkInputLine Local2Remote "10.0.0.5" 8080 "10.0.0.9" 443 100 "svcA" in
  let o2 := mkInputLine Remote2Local "10.0.0.9" 443 "10.0.0.5" 8080 200 "svcB" in
  exists s12 s21,
    (processObservation initState o1 ≫= fun s1 => processObservation s1 o2) = Ok s12
    /\ (processObservation initState o2 ≫= fun s2 => processObservation s2 o1) = Ok s21
    /\ edges s12 = {[mkEdge (mkProcessEndpoint 100 443) (mkProcessEndpoint 200 8080)]}
    /\ edges s21 = {[mkEdge (mkProcessEndpoint 100 443) (mkProcessEndpoint 200 8080)]}.
Proof.
  intros o1 o2.
  destruct (C3_mirror_observations initState o1 o2) as (E12 & E21 & Hok).
  - exists []. reflexivity.
  - repeat split; reflexivity.
  - destruct Hok as [[s12 H12] [s21 H21]].
    + split; intros x; cbn; rewrite lookup_empty; discriminate.
    + split; intros x; cbn; rewrite lookup_empty; discriminate.
    + split; discriminate.
    + exists s12, s21. split; [done|]. split; [done|].
      rewrite (E12 s12 H12), (E21 s21 H21). cbn.
      rewrite (right_id_L ∅ (∪)). done.
Defined.

(** ** Remarks on the limits of the filter and of the patterns *)

(** The loopback range of the filter is 127.0.0.0/8: the IPv6 loopback
    address is let through. *)
Remark ipv6_loopback_is_accepted :
  accepted "::1:80->10.0.0.1:90|PID=1 CMD=x"
           (mkInputLine Remote2Local "::1" 80 "10.0.0.1" 90 1 "x").
Proof. split; vm_compute; reflexivity. Qed.

(** The groups are greedy: a name that itself holds the tail of a line
    moves the fields. *)
Remark greedy_groups :
  parseLine "1.1.1.1:1->2.2.2.2:2|PID=3 CMD=a:4|PID=5 CMD=b"
  = Some (mkInputLine Remote2Local "1.1.1.1" 1 "2.2.2.2:2|PID=3 CMD=a" 4 5 "b").
Proof. vm_compute. reflexivity. Qed.

(** A numeric field beyond the 64-bit range is a rejection. *)
Remark port_out_of_range :
  parseLine "1.1.1.1:99999999999999999999->2.2.2.2:2|PID=3 CMD=a" = None.
Proof. vm_compute. reflexivity. Qed.

(** A line that holds both markers is read with the [<-] pattern. *)
Remark both_markers :
  parseLine "a:1->b:2<-c:3|PID=4 CMD=x"
  = Some (mkInputLine Local2Remote "a:1->b" 2 "c" 3 4 "x").
Proof. vm_compute. reflexivity. Qed.

(** * Further properties *)

(** ** What parseLine accepts, and how it reads it *)

Lemma find_from_inv re s : forall ms,
  find_from re s = Some ms ->
  exists pre suf caps rest,
    s = pre ++ suf /\ match_here re suf = Some (caps, rest)
    /\ ms = take (length suf - length rest)%nat suf :: caps.
Proof.
  induction s as [|a s IH]; intros ms.
  - simpl. destruct (match_here re []) as [[caps rest]|] eqn:Hm; [|discriminate].
    intros [= <-]. by exists [], [], caps, rest.
  - simpl. destruct (match_here re (a :: s)) as [[caps rest]|] eqn:Hm.
    + intros [= <-]. by exists [], (a :: s), caps, rest.
    + intros H. destruct (IH _ H) as (pre & suf & caps & rest & -> & HM & ->).
      by exists (a :: pre), suf, caps, rest.
Qed.

Lemma any_class_no_newline l :
  forallb (in_class AnyChar) l = true -> newline ∉ l.
Proof. apply forallb_not_elem. reflexivity. Qed.

Lemma chars_of_string l : chars (string_of_list_ascii l) = l.
Proof. apply list_ascii_of_string_of_list_ascii. Qed.

Lemma string_app_of_lists l1 l2 :
  string_of_list_ascii (l1 ++ l2) = string_of_list_ascii l1 +:+ string_of_list_ascii l2.
Proof. apply chars_inj. by rewrite chars_app, !chars_of_string. Qed.

(** The text of a match of either pattern is a line of the shape. *)
Lemma Matches_shaped_line arrow suf caps rest :
  Matches (line_regex arrow) suf caps rest ->
  exists g1 d2 g3 d4 d5 g6,
    caps = map chars [g1; d2; g3; d4; d5; g6]
    /\ suf = chars (shaped_line g1 d2 arrow g3 d4 d5 g6) ++ rest
    /\ group_text g1 /\ group_text g3 /\ group_text g6
    /\ digits_field d2 = true /\ digits_field d4 = true /\ digits_field d5 = true.
Proof.
  unfold line_regex, lit. cbn [Matches].
  intros (g1 & c1 & s1 & Hg1 & Ag1 & -> & -> & s2 & -> &
          d2 & c2 & s3 & Hd2' & Hd2 & -> & -> & s4 & -> &
          g3 & c3 & s5 & Hg3 & Ag3 & -> & -> & s6 & -> &
          d4 & c4 & s7 & Hd4' & Hd4 & -> & -> & s8 & -> &
          d5 & c5 & s9 & Hd5' & Hd5 & -> & -> & s10 & -> &
          g6 & c6 & s11 & Hg6 & Ag6 & -> & -> & -> & ->).
  exists (string_of_list_ascii g1), (string_of_list_ascii d2), (string_of_list_ascii g3),
         (string_of_list_ascii d4), (string_of_list_ascii d5), (string_of_list_ascii g6).
  assert (Hgt : forall g, g <> [] -> forallb (in_class AnyChar) g = true ->
                          group_text (string_of_list_ascii g)).
  { intros g Hne Hall. split; [by apply string_of_nonempty|].
    rewrite chars_of_string. by apply any_class_no_newline. }
  assert (Hdf : forall d, d <> [] -> forallb is_digit d = true ->
                          digits_field (string_of_list_ascii d) = true).
  { intros d Hne Hall. unfold digits_field. rewrite chars_of_string, Hall.
    destruct d; [done|reflexivity]. }
  split; [cbn [map]; by rewrite !chars_of_string|].
  split.
  { unfold shaped_line. rewrite !chars_app, !chars_of_string, <- !app_assoc. reflexivity. }
  do 3 (split; [by apply Hgt|]). do 2 (split; [by apply Hdf|]). by apply Hdf.
Qed.

Lemma FindStringSubmatch_inv arrow line :
  (0 < length (FindStringSubmatch (line_regex arrow) line))%nat ->
  exists pre post g1 d2 g3 d4 d5 g6,
    line = pre +:+ shaped_line g1 d2 arrow g3 d4 d5 g6 +:+ post
    /\ FindStringSubmatch (line_regex arrow) line
       = [shaped_line g1 d2 arrow g3 d4 d5 g6; g1; d2; g3; d4; d5; g6]
    /\ group_text g1 /\ group_text g3 /\ group_text g6
    /\ digits_field d2 = true /\ digits_field d4 = true /\ digits_field d5 = true
    /\ (post = "" \/ exists post', post = String newline post').
Proof.
  unfold FindStringSubmatch. fold (chars line).
  destruct (find_from _ _) as [ms|] eqn:Hf; [|simpl; lia]. intros _.
  apply find_from_inv in Hf as (pre & suf & caps & rest & Hs & Hm & ->).
  pose proof (match_here_last_maximal (line_regex arrow) AnyChar _ _ _ eq_refl Hm) as Hmax.
  apply match_here_sound, Matches_shaped_line in Hm
    as (g1 & d2 & g3 & d4 & d5 & g6 & -> & -> & Hg1 & Hg3 & Hg6 & Hd2 & Hd4 & Hd5).
  exists (string_of_list_ascii pre), (string_of_list_ascii rest), g1, d2, g3, d4, d5, g6.
  split; [|split].
  - apply chars_inj. by rewrite !chars_app, !chars_of_string.
  - rewrite length_app, Nat.add_sub, take_app_length. cbn [map].
    by rewrite !string_of_chars.
  - repeat (split; [done|]).
    destruct rest as [|a rest]; [by left|right].
    exists (string_of_list_ascii rest). simpl. f_equal.
    revert Hmax. unfold in_class. destruct (Ascii.eqb_spec a newline); [done|discriminate].
Qed.

(** The branches of parseLine. *)
Lemma parseLine_cases line o :
  parseLine line = Some o ->
  exists m,
    m = FindStringSubmatch (line_regex (arrow_of (Dir o))) line
    /\ (0 < length m)%nat
    /\ (Dir o = Remote2Local -> FindStringSubmatch (line_regex "<-") line = [])
    /\ Atoi (sub m 2) = Some (RemotePort o)
    /\ Atoi (sub m 4) = Some (LocalPort o)
    /\ ParseInt (sub m 5) = Some (ProcessID o)
    /\ RemoteIP o = sub m 1 /\ LocalIP o = sub m 3 /\ ProcessName o = sub m 6.
Proof.
  unfold parseLine.
  change regexLocalToRemote with (line_regex "<-").
  change regexRemoteToLocal with (line_regex "->").
  destruct (0 <? length (FindStringSubmatch (line_regex "<-") line))%nat eqn:H1.
  - apply Nat.ltb_lt in H1.
    destruct (Atoi _) as [rport|] eqn:Ha; [|discriminate].
    destruct (Atoi (sub _ 4)) as [lport|] eqn:Hb; [|discriminate].
    destruct (ParseInt _) as [pid|] eqn:Hc; [|discriminate].
    intros [= <-]. cbn. eexists. split; [reflexivity|]. split; [done|].
    split; [discriminate|]. done.
  - apply Nat.ltb_ge in H1.
    destruct (0 <? length (FindStringSubmatch (line_regex "->") line))%nat eqn:H2;
      [|discriminate].
    apply Nat.ltb_lt in H2.
    destruct (Atoi _) as [rport|] eqn:Ha; [|discriminate].
    destruct (Atoi (sub _ 4)) as [lport|] eqn:Hb; [|discriminate].
    destruct (ParseInt _) as [pid|] eqn:Hc; [|discriminate].
    intros [= <-]. cbn. eexists. split; [reflexivity|]. split; [done|].
    split; [|done]. intros _.
    destruct (FindStringSubmatch (line_regex "<-") line); [done|simpl in H1; lia].
Qed.

Lemma ParseInt_digits_field d v :
  digits_field d = true -> ParseInt d = Some v -> v = dec_val d /\ 0 <= v <= MaxInt64.
Proof.
  intros [Hne Hall]%digits_field_inv. rewrite <- (string_of_chars d) at 1.
  rewrite ParseInt_digits by done. fold (dec_val d).
  destruct (Z.leb_spec (dec_val d) MaxInt64); [|discriminate].
  intros [= <-]. pose proof (digits_val_nonneg _ Hall). unfold dec_val in *. lia.
Qed.

(** X1: parseLine is sound.  Whatever it accepts holds a text of one of
    the two shapes, the one of the direction it reports, that runs to the
    end of the line or to its first newline; the fields of the observation
    are the fields of that text: the first pair is the remote endpoint,
    the second the local one; the numbers are the values of digit runs
    and lie between 0 and the largest signed 64-bit integer; the texts
    are non-empty and hold no newline. *)
Theorem parseLine_sound (line : string) (o : InputLine) :
  parseLine line = Some o ->
  exists pre post rport lport pid,
    line = pre +:+ shaped_line (RemoteIP o) rport (arrow_of (Dir o))
                               (LocalIP o) lport pid (ProcessName o) +:+ post
    /\ (post = "" \/ exists post', post = String newline post')
    /\ group_text (RemoteIP o) /\ group_text (LocalIP o) /\ group_text (ProcessName o)
    /\ digits_field rport = true /\ RemotePort o = dec_val rport
    /\ digits_field lport = true /\ LocalPort o = dec_val lport
    /\ digits_field pid = true /\ ProcessID o = dec_val pid
    /\ 0 <= RemotePort o <= MaxInt64 /\ 0 <= LocalPort o <= MaxInt64
    /\ 0 <= ProcessID o <= MaxInt64.
Proof.
  intros (m & Hm & Hlen & _ & Ha & Hb & Hc & -> & -> & ->)%parseLine_cases.
  rewrite Hm in Hlen.
  destruct (FindStringSubmatch_inv _ _ Hlen)
    as (pre & post & g1 & d2 & g3 & d4 & d5 & g6 & Hline & Hfs & Hg1 & Hg3 & Hg6
        & Hd2 & Hd4 & Hd5 & Hpost).
  rewrite Hfs in Hm. subst m. cbn [sub nth] in *. unfold Atoi in *.
  apply (ParseInt_digits_field _ _ Hd2) in Ha as [Ha Ha'].
  apply (ParseInt_digits_field _ _ Hd4) in Hb as [Hb Hb'].
  apply (ParseInt_digits_field _ _ Hd5) in Hc as [Hc Hc'].
  exists pre, post, d2, d4, d5. done.
Qed.

Lemma parseLine_sound_witness :
  exists pre post rport lport pid,
    "10.0.0.5:8080<-10.0.0.9:443|PID=100 CMD=svcA"
    = pre +:+ shaped_line "10.0.0.5" rport "<-" "10.0.0.9" lport pid "svcA" +:+ post
    /\ dec_val rport = 8080 /\ dec_val lport = 443 /\ dec_val pid = 100.
Proof.
  destruct (parseLine_sound "10.0.0.5:8080<-10.0.0.9:443|PID=100 CMD=svcA"
              (mkInputLine Local2Remote "10.0.0.5" 8080 "10.0.0.9" 443 100 "svcA"))
    as (pre & post & rport & lport & pid & H & _ & _ & _ & _ & _ & Hr & _ & Hl & _ & Hp & _).
  - vm_compute. reflexivity.
  - exists pre, post, rport, lport, pid. cbn in *. done.
Defined.

(** X2: the [<-] pattern is tried first.  An accepted line is read as
    outbound-from-local exactly when it holds a match of the [<-]
    pattern, also when it holds a match of the [->] pattern as well; it is
    read as inbound-to-local only when it holds no match of the [<-]
    pattern. *)
Theorem parseLine_direction (line : string) (o : InputLine) :
  parseLine line = Some o ->
  (Dir o = Local2Remote <-> matches_somewhere regexLocalToRemote line)
  /\ (Dir o = Remote2Local <->
      ~ matches_somewhere regexLocalToRemote line
      /\ matches_somewhere regexRemoteToLocal line).
Proof.
  intros (m & Hm & Hlen & Hno & _)%parseLine_cases. rewrite Hm in Hlen.
  change regexLocalToRemote with (line_regex "<-").
  change regexRemoteToLocal with (line_regex "->").
  assert (Hsome : matches_somewhere (line_regex (arrow_of (Dir o))) line).
  { unfold FindStringSubmatch in Hlen.
    destruct (find_from _ _) as [ms|] eqn:Hf; [|simpl in Hlen; lia].
    apply find_from_sound in Hf as (pre & suf & caps & rest & Hs & HM & _).
    by exists pre, suf, caps, rest. }
  assert (Hnone : Dir o = Remote2Local -> ~ matches_somewhere (line_regex "<-") line).
  { intros HD [ms Hms]%find_from_complete. specialize (Hno HD).
    unfold FindStringSubmatch in Hno. fold (chars line) in Hno. rewrite Hms in Hno.
    apply find_from_sound in Hms as (? & ? & ? & ? & _ & _ & ->). discriminate. }
  destruct (Dir o) eqn:HD; cbn [arrow_of] in Hsome.
  - split; split; try done.
    + intros H. exfalso. by apply Hnone.
    + intros _. split; [by apply Hnone|done].
  - split; split; try done. by intros [H _].
Qed.

Lemma parseLine_direction_witness :
  matches_somewhere regexLocalToRemote "a:1->b:2<-c:3|PID=4 CMD=x".
Proof.
  apply (parseLine_direction "a:1->b:2<-c:3|PID=4 CMD=x"
           (mkInputLine Local2Remote "a:1->b" 2 "c" 3 4 "x")).
  - vm_compute. reflexivity.
  - reflexivity.
Defined.

(** X3: a number that does not fit is a rejection, not an abort.  A line
    of either shape one of whose three numeric fields exceeds the largest
    signed 64-bit integer is rejected by parseLine, so that the loop skips
    it. *)
Theorem parseLine_number_out_of_range
  (A pA arrow B pB pid name : string) (s : State) :
  arrow = "<-" \/ arrow = "->" ->
  address_field A = true -> digits_field pA = true ->
  address_field B = true -> digits_field pB = true ->
  digits_field pid = true -> name_field name = true ->
  MaxInt64 < dec_val pA \/ MaxInt64 < dec_val pB \/ MaxInt64 < dec_val pid ->
  parseLine (shaped_line A pA arrow B pB pid name) = None
  /\ processLine s (shaped_line A pA arrow B pB pid name) = Ok s.
Proof.
  intros Harrow HA HpA HB HpB Hpid Hname Hbig.
  assert (Hp : parseLine (shaped_line A pA arrow B pB pid name) = None).
  { destruct (parseLine _) as [o|] eqn:Hp; [exfalso|done].
    apply parseLine_cases in Hp as (m & Hm & _ & Hno & Ha & Hb & Hc & _).
    assert (Hdir : arrow_of (Dir o) = arrow).
    { destruct Harrow as [-> | ->]; destruct (Dir o) eqn:HD; try done.
      - specialize (Hno eq_refl).
        rewrite FindStringSubmatch_shaped in Hno by auto. discriminate.
      - exfalso. cbn [arrow_of] in Hm.
        unfold FindStringSubmatch in Hm.
        fold (chars (shaped_line A pA "->" B pB pid name)) in Hm.
        rewrite no_Local2Remote_match in Hm by done. subst m.
        cbn in Ha. discriminate. }
    rewrite Hdir, FindStringSubmatch_shaped in Hm by done. subst m.
    cbn [sub nth] in *. unfold Atoi in *.
    apply (ParseInt_digits_field _ _ HpA) in Ha as [-> Ha].
    apply (ParseInt_digits_field _ _ HpB) in Hb as [-> Hb].
    apply (ParseInt_digits_field _ _ Hpid) in Hc as [-> Hc].
    lia. }
  split; [done|]. unfold processLine. by rewrite Hp.
Qed.

Lemma parseLine_number_out_of_range_witness :
  parseLine "1.1.1.1:1->2.2.2.2:2|PID=9223372036854775808 CMD=a" = None.
Proof.
  apply (parseLine_number_out_of_range
           "1.1.1.1" "1" "->" "2.2.2.2" "2" "9223372036854775808" "a" initState).
  - by right.
  - reflexivity.
  - reflexivity.
  - reflexivity.
  - reflexivity.
  - reflexivity.
  - reflexivity.
  - right. right. vm_compute. reflexivity.
Defined.

(** ** The filter rejects noise only *)

Lemma parseIPv4Fields_octets s : forall first prevdot val digLen fields r,
  0 <= val <= 255 -> octets fields -> (length fields <= 3)%nat ->
  parseIPv4Fields s first prevdot val digLen fields = Some r ->
  length r = 4%nat /\ octets r.
Proof.
  induction s as [|c s IH]; intros first prevdot val digLen fields r Hval Hf Hlen; simpl.
  - destruct (Nat.ltb_spec (length fields) 3); [discriminate|].
    intros [= <-]. rewrite length_app. simpl. split; [lia|].
    apply Forall_app. split; [done|]. by constructor.
  - destruct (is_digit c) eqn:Hc.
    + destruct ((digLen =? 1) && (val =? 0)); [discriminate|].
      destruct (Z.ltb_spec 255 (val * 10 + digit_val c)); [discriminate|].
      apply IH; [|done..]. pose proof (digit_val_range c Hc). lia.
    + destruct (is_char "." c); [|discriminate].
      destruct (first || _ || prevdot); [discriminate|].
      destruct (Nat.eqb_spec (length fields) 3); [discriminate|].
      apply IH; [lia| |].
      * apply Forall_app. split; [done|]. by constructor.
      * rewrite length_app. simpl. lia.
Qed.

Lemma parseIPv4_octets s r : parseIPv4 s = Some r -> length r = 4%nat /\ octets r.
Proof.
  unfold parseIPv4. apply parseIPv4Fields_octets; [lia|constructor|simpl; lia].
Qed.

Lemma hex_val_range c d : hex_val c = Some d -> 0 <= d <= 15.
Proof.
  unfold hex_val.
  destruct ((48 <=? nat_of_ascii c)%nat && (nat_of_ascii c <=? 57)%nat) eqn:H1.
  { apply andb_prop in H1 as [?%Nat.leb_le ?%Nat.leb_le]. intros [= <-]. lia. }
  destruct ((97 <=? nat_of_ascii c)%nat && (nat_of_ascii c <=? 102)%nat) eqn:H2.
  { apply andb_prop in H2 as [?%Nat.leb_le ?%Nat.leb_le]. intros [= <-]. lia. }
  destruct ((65 <=? nat_of_ascii c)%nat && (nat_of_ascii c <=? 70)%nat) eqn:H3.
  { apply andb_prop in H3 as [?%Nat.leb_le ?%Nat.leb_le]. intros [= <-]. lia. }
  discriminate.
Qed.

Lemma hex_run_range s : forall off acc off' acc' rest,
  (off <= 4)%nat -> 0 <= acc < 16 ^ Z.of_nat off ->
  hex_run s off acc = Some (off', acc', rest) ->
  0 <= acc' < 65536.
Proof.
  induction s as [|c s IH]; intros off acc off' acc' rest Hoff Hacc; simpl.
  - intros [= _ <- _]. assert (16 ^ Z.of_nat off <= 16 ^ 4)
      by (apply Z.pow_le_mono_r; lia). lia.
  - destruct (hex_val c) as [d|] eqn:Hd.
    + destruct (Nat.ltb_spec 3 off); [discriminate|].
      apply IH; [lia|]. apply hex_val_range in Hd.
      rewrite Z.shiftl_mul_pow2 by lia.
      replace (Z.of_nat (S off)) with (Z.of_nat off + 1) by lia.
      rewrite Z.pow_add_r by lia. lia.
    + intros [= _ <- _]. assert (16 ^ Z.of_nat off <= 16 ^ 4)
        by (apply Z.pow_le_mono_r; lia). lia.
Qed.

Lemma land_255 x : Z.land x 255 = x mod 256.
Proof. change 255 with (Z.ones 8). by rewrite Z.land_ones by lia. Qed.

Lemma chunk_octets acc :
  0 <= acc < 65536 -> octets [Z.shiftr acc 8; Z.land acc 255].
Proof.
  intros H. rewrite land_255, Z.shiftr_div_pow2 by lia.
  change (2 ^ 8) with 256.
  pose proof (Z.mod_pos_bound acc 256).
  assert (0 <= acc / 256 < 256)
    by (split; [apply Z.div_pos; lia|apply Z.div_lt_upper_bound; lia]).
  repeat constructor; lia.
Qed.

Lemma parseIPv6_loop_octets fuel : forall s ip ellipsis s' ip' ellipsis',
  octets ip -> Nat.Even (length ip) -> (length ip <= 16)%nat ->
  parseIPv6_loop fuel s ip ellipsis = Some (s', ip', ellipsis') ->
  octets ip' /\ Nat.Even (length ip') /\ (length ip' <= 16)%nat.
Proof.
  induction fuel as [|fuel IH]; intros s ip ellipsis s' ip' ellipsis' Ho Hev Hlen;
    cbn [parseIPv6_loop].
  - by intros [= _ <- _].
  - destruct (Nat.leb_spec 16 (length ip)); [by intros [= _ <- _]|].
    destruct (hex_run s 0 0) as [[[off acc] rest]|] eqn:Hhex; [|discriminate].
    destruct off as [|off]; [discriminate|].
    assert (Hacc : 0 <= acc < 65536)
      by (apply (hex_run_range s 0 0 _ _ _) in Hhex; [done|lia|simpl; lia]).
    assert (Hnext : octets (ip ++ [Z.shiftr acc 8; Z.land acc 255])
                    /\ Nat.Even (length (ip ++ [Z.shiftr acc 8; Z.land acc 255]))
                    /\ (length (ip ++ [Z.shiftr acc 8; Z.land acc 255]) <= 16)%nat).
    { split; [apply Forall_app; split; [done|by apply chunk_octets]|].
      rewrite length_app. simpl. destruct Hev as [k Hk].
      split; [exists (S k); lia|lia]. }
    destruct Hnext as (Ho' & Hev' & Hlen').
    assert (Hplain : forall r,
      match r with
      | [] => Some ([], ip ++ [Z.shiftr acc 8; Z.land acc 255], ellipsis)
      | c :: s1 =>
          if negb (is_char ":" c) then None
          else
            match s1 with
            | [] => None
            | c1 :: s2 =>
                if is_char ":" c1 then
                  match ellipsis with
                  | Some _ => None
                  | None =>
                      match s2 with
                      | [] => Some ([], ip ++ [Z.shiftr acc 8; Z.land acc 255],
                                    Some (length (ip ++ [Z.shiftr acc 8; Z.land acc 255])))
                      | _ => parseIPv6_loop fuel s2 (ip ++ [Z.shiftr acc 8; Z.land acc 255])
                               (Some (length (ip ++ [Z.shiftr acc 8; Z.land acc 255])))
                      end
                  end
                else parseIPv6_loop fuel s1 (ip ++ [Z.shiftr acc 8; Z.land acc 255]) ellipsis
            end
      end = Some (s', ip', ellipsis') ->
      octets ip' /\ Nat.Even (length ip') /\ (length ip' <= 16)%nat).
    { intros r. destruct r as [|c s1]; [by intros [= _ <- _]|].
      destruct (negb (is_char ":" c)); [discriminate|].
      destruct s1 as [|c1 s2]; [discriminate|].
      destruct (is_char ":" c1).
      - destruct ellipsis; [discriminate|].
        destruct s2; [by intros [= _ <- _]|]. by apply IH.
      - by apply IH. }
    destruct rest as [|c rest]; [apply (Hplain [])|].
    destruct (Ascii.eqb_spec c ".") as [->|Hne].
    + destruct ((match ellipsis with None => true | Some _ => false end)
                && negb (length ip =? 12)%nat); [discriminate|].
      destruct (Nat.ltb_spec 16 (length ip + 4)); [discriminate|].
      destruct (parseIPv4 s) as [ip4|] eqn:H4; [|discriminate].
      apply parseIPv4_octets in H4 as [H4l H4o].
      intros [= _ <- _]. split; [by apply Forall_app|].
      rewrite length_app, H4l. destruct Hev as [k Hk].
      split; [exists (k + 2)%nat; lia|lia].
    + intros H'. apply (Hplain (c :: rest)).
      revert H'. clear -Hne. destruct c as [[] [] [] [] [] [] [] []]; try done.
Qed.

Lemma parseIPv6_octets s r : parseIPv6 s = Some r -> length r = 16%nat /\ octets r.
Proof.
  unfold parseIPv6.
  assert (Hz : length IPv6zero = 16%nat /\ octets IPv6zero)
    by (split; [reflexivity|repeat constructor; lia]).
  assert (Hloop : forall s0 e0,
    match parseIPv6_loop 8 s0 [] e0 with
    | None => None
    | Some (_ :: _, _, _) => None
    | Some ([], ip, ellipsis) =>
        if (length ip <? 16)%nat then
          match ellipsis with
          | None => None
          | Some e => Some (take e ip ++ replicate (16 - length ip) 0 ++ drop e ip)
          end
        else match ellipsis with
             | Some _ => None
             | None => Some ip
             end
    end = Some r -> length r = 16%nat /\ octets r).
  { intros s0 e0.
    destruct (parseIPv6_loop 8 s0 [] e0) as [[[s1 ip] e1]|] eqn:Hl; [|discriminate].
    apply parseIPv6_loop_octets in Hl as (Ho & _ & Hlen);
      [|constructor|by exists 0%nat|simpl; lia].
    destruct s1; [|discriminate].
    destruct (Nat.ltb_spec (length ip) 16).
    - destruct e1 as [e|]; [|discriminate]. intros [= <-]. split.
      + rewrite !length_app, length_replicate, length_take, length_drop. lia.
      + apply Forall_app. split; [by apply Forall_take|].
        apply Forall_app. split; [|by apply Forall_drop].
        apply Forall_replicate. lia.
    - destruct e1; [discriminate|]. intros [= <-]. split; [lia|done]. }
  destruct s as [|c s]; [apply Hloop|].
  destruct (Ascii.eqb_spec c ":") as [->|Hne].
  - destruct s as [|c' s]; [apply Hloop|].
    destruct (Ascii.eqb_spec c' ":") as [->|Hne'].
    + destruct s; [by intros [= <-]|apply Hloop].
    + intros H. apply (Hloop (":"%char :: c' :: s) None).
      revert H. clear -Hne'. destruct c' as [[] [] [] [] [] [] [] []]; try done.
  - intros H. apply (Hloop (c :: s) None).
    revert H. clear -Hne. destruct c as [[] [] [] [] [] [] [] []]; try done.
Qed.

Lemma ParseAddr_scan_octets whole s r :
  ParseAddr_scan whole s = Some r -> length r = 16%nat /\ octets r.
Proof.
  induction s as [|c s IH]; cbn [ParseAddr_scan]; [discriminate|].
  destruct (is_char "." c).
  - destruct (parseIPv4 whole) as [f|] eqn:H4; [|discriminate].
    apply parseIPv4_octets in H4 as [Hl Ho]. intros [= <-].
    split; [simpl; by rewrite Hl|].
    unfold octets. simpl. repeat (constructor; [lia|]). exact Ho.
  - destruct (is_char ":" c).
    + destruct (existsb _ whole); [discriminate|]. apply parseIPv6_octets.
    + destruct (is_char "%" c); [discriminate|]. exact IH.
Qed.

(** What net.ParseIP returns: nil, or sixteen octets. *)
Lemma ParseIP_octets s :
  ParseIP s = [] \/ (length (ParseIP s) = 16%nat /\ octets (ParseIP s)).
Proof.
  unfold ParseIP. destruct (ParseAddr_scan _ _) as [r|] eqn:H; [|by left].
  right. by apply ParseAddr_scan_octets in H.
Qed.

Lemma Contains_loopback_inv s :
  Contains loopbackNet (ParseIP s) = true -> loopback_ip s.
Proof.
  unfold loopback_ip.
  destruct (ParseIP_octets s) as [->|[Hlen Ho]]; [vm_compute; discriminate|].
  destruct (ParseIP s) as [|a0 r]; [discriminate|].
  do 15 (destruct r as [|? r]; [discriminate|]).
  destruct r; [|discriminate]. clear Hlen.
  unfold Contains. rewrite networkNumberAndMask_loopback.
  unfold To4. cbn [length Nat.eqb take forallb nth drop andb].
  destruct (Z.eqb_spec 0 a0) as [<-|]; [|cbn; discriminate].
  destruct (Z.eqb_spec 0 z) as [<-|]; [|cbn; discriminate].
  destruct (Z.eqb_spec 0 z0) as [<-|]; [|cbn; discriminate].
  destruct (Z.eqb_spec 0 z1) as [<-|]; [|cbn; discriminate].
  destruct (Z.eqb_spec 0 z2) as [<-|]; [|cbn; discriminate].
  destruct (Z.eqb_spec 0 z3) as [<-|]; [|cbn; discriminate].
  destruct (Z.eqb_spec 0 z4) as [<-|]; [|cbn; discriminate].
  destruct (Z.eqb_spec 0 z5) as [<-|]; [|cbn; discriminate].
  destruct (Z.eqb_spec 0 z6) as [<-|]; [|cbn; discriminate].
  destruct (Z.eqb_spec 0 z7) as [<-|]; [|cbn; discriminate].
  destruct (Z.eqb_spec z8 255) as [->|]; [|cbn; discriminate].
  destruct (Z.eqb_spec z9 255) as [->|]; [|cbn; discriminate].
  cbn [andb length Nat.eqb negb masked_eq].
  intros H. exists z11, z12, z13. unfold IPv4, v4InV6Prefix. cbn [app].
  do 12 f_equal. f_equal.
  apply andb_prop in H as [H _]. apply Z.eqb_eq in H.
  assert (Hz : 0 <= z10 <= 255).
  { unfold octets in Ho. rewrite Forall_forall in Ho. apply Ho.
    rewrite !elem_of_cons. do 12 right. by left. }
  rewrite !land_255 in H. rewrite (Z.mod_small z10) in H by lia.
  symmetry. exact H.
Qed.

(** X4: the filter rejects noise and nothing else.  IsValidLine refuses
    an observation exactly when one of its ports is zero, one of its
    address texts parses to an address of 127.0.0.0/8, or its process
    name is on the denylist; in particular an address text that is no IP
    address at all is never a reason to refuse. *)
Theorem IsValidLine_rejects_exactly_noise (o : InputLine) :
  IsValidLine o = false <-> noise o.
Proof.
  split; [|apply IsValidLine_noise].
  unfold IsValidLine, noise.
  destruct (Z.eqb_spec (LocalPort o) 0) as [H1|H1]; [auto|].
  destruct (Z.eqb_spec (RemotePort o) 0) as [H2|H2]; [auto|]. cbn [orb].
  destruct (Contains loopbackNet (ParseIP (LocalIP o))) eqn:H3.
  { intros _. left. by apply Contains_loopback_inv. }
  destruct (Contains loopbackNet (ParseIP (RemoteIP o))) eqn:H4.
  { intros _. right. left. by apply Contains_loopback_inv. }
  cbn [orb].
  destruct (String.eqb_spec (ProcessName o) "k3s-server") as [H5|H5]; [|discriminate].
  intros _. do 4 right. rewrite H5. by left.
Qed.

(** ** The run is a function of the accepted observations *)

Lemma processLine_observation s line :
  processLine s line
  = match observation line with
    | Some o => processObservation s o
    | None => Ok s
    end.
Proof.
  unfold processLine, observation. destruct (parseLine line) as [o|]; [|done].
  by destruct (IsValidLine o).
Qed.

Lemma scanLines_correlate s lines :
  scanLines s lines = correlate s (observations lines).
Proof.
  revert s. induction lines as [|line lines IH]; intros s; [done|].
  cbn [scanLines]. rewrite processLine_observation.
  unfold observations. cbn [omap list_omap].
  destruct (observation line) as [o|].
  - cbn [correlate]. unfold mbind, result_bind.
    destruct (processObservation s o); [apply IH|done].
  - cbn. apply IH.
Qed.

(** X5: the lines that parseLine or IsValidLine refuse leave no trace.
    A run over the lines of the input is the sequence of turns for the
    observations of the accepted lines, in their order: it completes or
    panics, and ends in the same state, as if the refused lines were not
    in the input. *)
Theorem scanLines_observations (s : State) (lines : list string) :
  scanLines s lines = correlate s (observations lines).
Proof. apply scanLines_correlate. Qed.

(** ** Labels of graph nodes *)

Lemma string_of_uint_digits d :
  forallb is_digit (chars (NilEmpty.string_of_uint d)) = true.
Proof. induction d; simpl; [done|by rewrite IHd..]. Qed.

Lemma fmt_d_no_newline z : newline ∉ chars (fmt_d z).
Proof.
  unfold fmt_d, NilZero.string_of_int.
  assert (Hu : forall d, newline ∉ chars (NilZero.string_of_uint d)).
  { intros d. apply (forallb_not_elem is_digit); [reflexivity|].
    destruct d; try apply string_of_uint_digits. reflexivity. }
  destruct (Z.to_int z) as [d|d]; [apply Hu|].
  cbn. apply not_elem_of_cons. split; [discriminate|apply Hu].
Qed.

Lemma fmt_d_inj z1 z2 : fmt_d z1 = fmt_d z2 -> z1 = z2.
Proof.
  unfold fmt_d. intros H. apply DecimalZ.to_int_inj.
  assert (Hn : forall z, Z.to_int z <> Decimal.Pos Decimal.Nil
                         /\ Z.to_int z <> Decimal.Neg Decimal.Nil).
  { intros [|p|p]; simpl; split; try discriminate.
    - intros [= E]. by destruct (DecimalPos.Unsigned.to_uint_nonnil p).
    - intros [= E]. by destruct (DecimalPos.Unsigned.to_uint_nonnil p). }
  destruct (Hn z1) as [A1 B1]. destruct (Hn z2) as [A2 B2].
  pose proof (NilZero.isi _ A1 B1) as E1. pose proof (NilZero.isi _ A2 B2) as E2.
  rewrite H in E1. rewrite E1 in E2. by injection E2.
Qed.

(** The label of a graph node names its process. *)
Lemma label_of_node_inj n1 n2 :
  label_of_node n1 = label_of_node n2 -> pe_ProcessID n1 = pe_ProcessID n2.
Proof.
  unfold label_of_node. intros H%(f_equal chars).
  rewrite !chars_app in H. cbn in H. injection H as H.
  apply split_first in H as [H _]; try apply fmt_d_no_newline.
  apply chars_inj in H. by apply fmt_d_inj.
Qed.

Lemma label_of_add_port n p : label_of_node (add_port n p) = label_of_node n.
Proof. unfold add_port. by case_bool_decide. Qed.

(** ** What one turn does to the graph *)

Lemma upsertNode_graph s o s1 :
  upsertNode s o = Ok s1 ->
  graph s1 = match nodes s !! ProcessID o with
             | None => (Graph_Node (graph s) (nodeLabel o)).1
             | Some _ => graph s
             end.
Proof.
  destruct (nodes s !! ProcessID o) as [n|] eqn:Hn.
  - destruct (same_identity_dec n o) as [Hid|Hno].
    + rewrite (upsertNode_known s o n Hn Hid). by intros [= <-].
    + destruct (upsertNode_conflict s o n Hn Hno) as [msg ->]. discriminate.
  - rewrite (upsertNode_new s o Hn). by intros [= <-].
Qed.

(** The state after the first two steps of a turn. *)
Lemma upsert_register_inv s o s1 s2 :
  upsertNode s o = Ok s1 -> registerLocalEndpoint s1 o = Ok s2 ->
  consistent s o
  /\ nodes s2 = <[ProcessID o := upserted_node s o]> (nodes s)
  /\ knownEndpoints s2 = <[localEndpoint o := ProcessID o]> (knownEndpoints s)
  /\ edges s2 = edges s
  /\ graph s2 = match nodes s !! ProcessID o with
                | None => (Graph_Node (graph s) (nodeLabel o)).1
                | Some _ => graph s
                end.
Proof.
  intros H1 H2. pose proof (upsertNode_graph _ _ _ H1) as Hg.
  apply upsertNode_inv in H1 as (Hc1 & Hn1 & Hk1 & He1).
  apply registerLocalEndpoint_inv in H2 as (Hc2 & Hg2 & Hn2 & Hk2 & He2).
  rewrite Hk1 in Hc2, Hk2.
  split; [by split|]. split; [congruence|]. split; [done|].
  split; congruence.
Qed.

(** The last step of a turn: nothing, or one edge more in the edge set
    and in the graph. *)
Lemma drawEdge_cases s o s' :
  drawEdge s o = Ok s' ->
  s' = s
  \/ exists remotePID,
       knownEndpoints s !! remoteEndpoint o = Some remotePID
       /\ (makeEdge o remotePID ∉ edges s)
       /\ nodes s' = nodes s /\ knownEndpoints s' = knownEndpoints s
       /\ edges s' = {[makeEdge o remotePID]} ∪ edges s
       /\ g_nodes (graph s') = g_nodes (graph s)
       /\ exists l,
            g_edges (graph s')
            = g_edges (graph s)
              ++ [(node_id (pe_DotNode (default ProcessEndpoints_zero
                                          (nodes s !! PID (Source (makeEdge o remotePID))))),
                   node_id (pe_DotNode (default ProcessEndpoints_zero
                                          (nodes s !! PID (Dest (makeEdge o remotePID))))),
                   l)].
Proof.
  unfold drawEdge. fold (remoteEndpoint o).
  destruct (knownEndpoints s !! remoteEndpoint o) as [remotePID|]; [|intros [= <-]; by left].
  case_bool_decide as Hin; [intros [= <-]; by left|].
  cbv zeta. unfold Node_Edge.
  destruct (node_graph _); [|discriminate].
  cbn. intros [= <-]. right. exists remotePID. cbn. repeat split; try done. eauto.
Qed.

(** ** The stores and the graph stay coherent *)

Lemma initState_coherent : coherent initState.
Proof.
  unfold coherent, nodes_sound, registry_sound, edges_sound, graph_sound, initState. cbn.
  split; [|split; [|split]].
  - intros k n. by rewrite lookup_empty.
  - intros ip p k. rewrite lookup_empty. split; [done|].
    intros (n & Hn & _). by rewrite lookup_empty in Hn.
  - intros e. by rewrite elem_of_empty.
  - split; [constructor|]. split.
    + intros id. split; [by intros ?%elem_of_nil|].
      intros (k & n & Hn & _). by rewrite lookup_empty in Hn.
    + split; [done|]. split; [done|]. intros a b l. by intros ?%elem_of_nil.
Qed.

Lemma upserted_node_ports s o p :
  p ∈ pe_LocalPorts (upserted_node s o)
  <-> p = LocalPort o
      \/ exists n0, nodes s !! ProcessID o = Some n0 /\ p ∈ pe_LocalPorts n0.
Proof.
  unfold upserted_node. destruct (nodes s !! ProcessID o) as [n0|].
  - unfold add_port. case_bool_decide as Hin; cbn.
    + split; [eauto|]. intros [->|(n & [= <-] & H)]; done.
    + rewrite elem_of_app, list_elem_of_singleton.
      split; [intros [H| ->]; eauto|]. intros [->|(n & [= <-] & H)]; auto.
  - cbn. rewrite list_elem_of_singleton. split; [auto|].
    intros [->|(n & [=] & _)]. done.
Qed.

Lemma upserted_node_sound s o :
  nodes_sound s ->
  pe_ProcessID (upserted_node s o) = ProcessID o
  /\ pe_DotNode (upserted_node s o) = mkNode true (label_of_node (upserted_node s o))
  /\ pe_LocalPorts (upserted_node s o) <> []
  /\ NoDup (pe_LocalPorts (upserted_node s o)).
Proof.
  intros Hs. unfold upserted_node.
  destruct (nodes s !! ProcessID o) as [n0|] eqn:Hn.
  - destruct (Hs _ _ Hn) as (Hid & Hdn & Hne & Hnd).
    rewrite add_port_ProcessID, add_port_DotNode, label_of_add_port.
    split; [done|]. split; [done|]. split; [|by apply add_port_NoDup].
    unfold add_port. case_bool_decide; [done|]. cbn. by destruct (pe_LocalPorts n0).
  - cbn. split; [done|]. split; [done|]. split; [done|]. apply NoDup_singleton.
Qed.

Section AfterRegister.
Variables (s s2 : State) (o : InputLine).
Hypothesis Hcoh : coherent s.
Hypothesis Hcons : consistent s o.
Hypothesis Hnodes : nodes s2 = <[ProcessID o := upserted_node s o]> (nodes s).
Hypothesis Hreg :
  knownEndpoints s2 = <[localEndpoint o := ProcessID o]> (knownEndpoints s).
Hypothesis Hedges : edges s2 = edges s.
Hypothesis Hgraph :
  graph s2 = match nodes s !! ProcessID o with
             | None => (Graph_Node (graph s) (nodeLabel o)).1
             | Some _ => graph s
             end.

Lemma after_register_nodes : nodes_sound s2.
Proof.
  destruct Hcoh as (Hn & _). intros k n. rewrite Hnodes, lookup_insert.
  case_decide as E; [|apply Hn]. intros [= <-]. subst k.
  by apply upserted_node_sound.
Qed.

Lemma registry_kept x v :
  knownEndpoints s !! x = Some v -> knownEndpoints s2 !! x = Some v.
Proof.
  intros H. rewrite Hreg, lookup_insert. case_decide as E; [|done].
  subst x. destruct Hcons as [_ Hc]. by rewrite (Hc _ H).
Qed.

Lemma after_register_registry : registry_sound s2.
Proof.
  destruct Hcoh as (Hn & Hr & _). destruct Hcons as [Hc1 Hc2].
  pose proof (upserted_node_identity s o Hc1) as (_ & _ & Hip).
  intros ip p k. rewrite Hreg, Hnodes. split.
  - rewrite lookup_insert. case_decide as E.
    + intros [= <-]. exists (upserted_node s o). rewrite lookup_insert_eq.
      injection E as <- <-. split; [done|]. split; [done|apply upserted_node_port].
    + intros (n0 & Hn0 & Hip0 & Hp0)%Hr. rewrite lookup_insert.
      case_decide as E'; [|eauto]. subst k.
      exists (upserted_node s o). split; [done|].
      split; [rewrite Hip; rewrite <- Hip0; symmetry; by apply Hc1|].
      apply upserted_node_ports. eauto.
  - intros (n & Hlk & Hipn & Hp). rewrite lookup_insert in Hlk.
    case_decide as E.
    + injection Hlk as <-. subst k. rewrite Hip in Hipn. subst ip.
      apply upserted_node_ports in Hp as [->|(n0 & Hn0 & Hp0)];
        [apply lookup_insert_eq|].
      rewrite lookup_insert. case_decide; [done|].
      apply Hr. exists n0. split; [done|]. split; [by apply Hc1|done].
    + rewrite lookup_insert. case_decide as E'.
      * exfalso. apply E. symmetry. apply Hc2. rewrite E'. apply Hr. eauto.
      * apply Hr. eauto.
Qed.

Lemma after_register_edges : edges_sound s2.
Proof.
  destruct Hcoh as (_ & _ & He & _). intros e. rewrite Hedges.
  intros (ip1 & ip2 & H1 & H2)%He. exists ip1, ip2. split; by apply registry_kept.
Qed.

Lemma after_register_graph : graph_sound s2.
Proof.
  destruct Hcoh as (Hn & _ & _ & Hnd & Hids & Hlen & Hel & Hends).
  unfold graph_sound. rewrite Hgraph, Hnodes, Hedges.
  destruct (nodes s !! ProcessID o) as [n0|] eqn:Hn0.
  - (* a known process: the graph is untouched, the node keeps its label *)
    split; [done|]. split; [|split; [|done]].
    + intros id. rewrite Hids. split.
      * intros (k & n & Hk & Hl). destruct (decide (ProcessID o = k)) as [<-|Hne].
        -- exists (ProcessID o), (upserted_node s o). rewrite lookup_insert_eq.
           split; [done|]. unfold upserted_node. rewrite Hn0, label_of_add_port.
           by rewrite Hn0 in Hk; injection Hk as <-.
        -- exists k, n. by rewrite lookup_insert_ne.
      * intros (k & n & Hk & Hl). rewrite lookup_insert in Hk. case_decide as E.
        -- injection Hk as <-. exists (ProcessID o), n0. split; [done|].
           rewrite <- Hl. unfold upserted_node. by rewrite Hn0, label_of_add_port.
        -- eauto.
    + rewrite Hlen. symmetry. apply map_size_insert_Some. eauto.
  - (* a new process: one node more in the graph *)
    assert (Hfresh : nodeLabel o ∉ g_nodes (graph s)).
    { intros (k & n & Hk & Hl)%Hids.
      destruct (Hn _ _ Hk) as (Hid & _).
      change (nodeLabel o) with (label_of_node (new_node o)) in Hl.
      apply label_of_node_inj in Hl. cbn in Hl. rewrite Hid in Hl. subst k.
      rewrite Hn0 in Hk. discriminate. }
    unfold Graph_Node. rewrite bool_decide_eq_false_2 by done. cbn.
    split; [|split; [|split; [|split]]].
    + apply NoDup_app. split; [done|]. split; [|apply NoDup_singleton].
      intros x Hx ->%list_elem_of_singleton. done.
    + intros id. rewrite elem_of_app, list_elem_of_singleton, Hids. split.
      * intros [(k & n & Hk & Hl)| ->].
        -- exists k, n. rewrite lookup_insert_ne; [done|]. intros <-.
           rewrite Hn0 in Hk. discriminate.
        -- exists (ProcessID o), (upserted_node s o). rewrite lookup_insert_eq.
           split; [done|]. unfold upserted_node. by rewrite Hn0.
      * intros (k & n & Hk & Hl). rewrite lookup_insert in Hk. case_decide as E.
        -- injection Hk as <-. right. rewrite <- Hl. unfold upserted_node.
           by rewrite Hn0.
        -- left. eauto.
    + rewrite length_app, Hlen, map_size_insert_None by done. simpl. lia.
    + done.
    + intros a b l Hab. destruct (Hends a b l Hab).
      rewrite !elem_of_app. auto.
Qed.

Lemma after_register_coherent : coherent s2.
Proof.
  split; [apply after_register_nodes|].
  split; [apply after_register_registry|].
  split; [apply after_register_edges|apply after_register_graph].
Qed.
End AfterRegister.

Lemma makeEdge_endpoints o remotePID :
  (Source (makeEdge o remotePID) = mkProcessEndpoint (ProcessID o) (LocalPort o)
   /\ Dest (makeEdge o remotePID) = mkProcessEndpoint remotePID (RemotePort o))
  \/ (Source (makeEdge o remotePID) = mkProcessEndpoint remotePID (RemotePort o)
      /\ Dest (makeEdge o remotePID) = mkProcessEndpoint (ProcessID o) (LocalPort o)).
Proof. unfold makeEdge. destruct (Dir o); cbn; auto. Qed.

Lemma drawEdge_coherent s o s' :
  coherent s ->
  knownEndpoints s !! localEndpoint o = Some (ProcessID o) ->
  drawEdge s o = Ok s' ->
  coherent s'.
Proof.
  intros Hcoh Hloc [->|(q & Hq & Hnew & Hn & Hk & He & Hgn & l & Hge)]%drawEdge_cases;
    [done|].
  destruct Hcoh as (Hns & Hrs & Hes & Hnd & Hids & Hlen & Hel & Hends).
  assert (Hreg : exists ip1 ip2,
    knownEndpoints s !! mkNetworkEndpoint ip1 (Port (Source (makeEdge o q)))
    = Some (PID (Source (makeEdge o q)))
    /\ knownEndpoints s !! mkNetworkEndpoint ip2 (Port (Dest (makeEdge o q)))
       = Some (PID (Dest (makeEdge o q)))).
  { destruct (makeEdge_endpoints o q) as [[-> ->]|[-> ->]]; cbn.
    - by exists (LocalIP o), (RemoteIP o).
    - by exists (RemoteIP o), (LocalIP o). }
  split; [|split; [|split]].
  - intros k n. rewrite Hn. apply Hns.
  - intros ip p k. rewrite Hn, Hk. apply Hrs.
  - intros e. rewrite He, Hk.
    intros [->%elem_of_singleton|Hin]%elem_of_union; [done|by apply Hes].
  - unfold graph_sound. rewrite Hgn, Hn, He, Hge.
    split; [done|]. split; [done|]. split; [done|]. split.
    + rewrite length_app, Hel, size_union by (by apply disjoint_singleton_l).
      rewrite size_singleton. simpl. lia.
    + destruct Hreg as (ip1 & ip2 & (n1 & Hn1 & _)%Hrs & (n2 & Hn2 & _)%Hrs).
      intros a b l' [Hab|Hab%list_elem_of_singleton]%elem_of_app; [by eapply Hends|].
      rewrite Hn1, Hn2 in Hab. cbn in Hab. injection Hab as -> -> ->.
      destruct (Hns _ _ Hn1) as (_ & -> & _). destruct (Hns _ _ Hn2) as (_ & -> & _).
      cbn. split; apply Hids; eauto.
Qed.

Lemma processObservation_coherent s o s' :
  coherent s -> processObservation s o = Ok s' -> coherent s'.
Proof.
  intros Hcoh (s1 & s2 & H1 & H2 & H3)%processObservation_steps.
  destruct (upsert_register_inv s o s1 s2 H1 H2) as (Hc & Hn & Hk & He & Hg).
  apply (drawEdge_coherent s2 o); [|by rewrite Hk, lookup_insert_eq|done].
  by apply (after_register_coherent s s2 o).
Qed.

Lemma correlate_coherent os : forall s s',
  coherent s -> correlate s os = Ok s' -> coherent s'.
Proof.
  induction os as [|o os IH]; intros s s' Hcoh; cbn [correlate].
  - by intros [= <-].
  - intros (s1 & H1 & H2)%bind_Ok_inv. eapply IH; [|done].
    by eapply processObservation_coherent.
Qed.

Lemma reachable_coherent s : reachable s -> coherent s.
Proof.
  intros [lines H]. unfold createGraphFromStdin in H.
  rewrite scanLines_correlate in H.
  eapply correlate_coherent; [apply initState_coherent|done].
Qed.

(** X6: the registry and the node store describe the same endpoints.  In
    every state of a run, an endpoint (ip, port) is registered to a
    process id exactly when the node of that process has this local IP
    and lists this port. *)
Theorem run_registry_matches_nodes (lines : list string) (s : State)
        (ip : string) (p k : Z) :
  createGraphFromStdin lines = Ok s ->
  knownEndpoints s !! mkNetworkEndpoint ip p = Some k
  <-> exists n, nodes s !! k = Some n /\ pe_LocalIP n = ip /\ p ∈ pe_LocalPorts n.
Proof.
  intros H. assert (Hc : coherent s) by (apply reachable_coherent; by exists lines).
  apply Hc.
Qed.

Lemma run_registry_matches_nodes_witness :
  exists n, nodes example_final !! 200 = Some n
            /\ pe_LocalIP n = "10.0.0.5" /\ 8080 ∈ pe_LocalPorts n.
Proof.
  apply (run_registry_matches_nodes example_lines example_final "10.0.0.5" 8080 200).
  - exact example_run.
  - reflexivity.
Defined.

(** X7: the node store is well kept.  In every state of a run, the node
    stored under a process id carries that id, holds the handle of the
    graph node whose label is made of its id, name and local IP, lists at
    least one port, and lists no port twice. *)
Theorem run_nodes_sound (lines : list string) (s : State)
        (k : Z) (n : ProcessEndpoints) :
  createGraphFromStdin lines = Ok s ->
  nodes s !! k = Some n ->
  pe_ProcessID n = k
  /\ pe_DotNode n = mkNode true (label_of_node n)
  /\ pe_LocalPorts n <> []
  /\ NoDup (pe_LocalPorts n).
Proof.
  intros H. assert (Hc : coherent s) by (apply reachable_coherent; by exists lines).
  apply Hc.
Qed.

Lemma run_nodes_sound_witness :
  let n := mkProcessEndpoints 100 "svcA" "10.0.0.9" [443] (mkNode true svcA_id) in
  pe_ProcessID n = 100
  /\ pe_DotNode n = mkNode true (label_of_node n)
  /\ pe_LocalPorts n <> []
  /\ NoDup (pe_LocalPorts n).
Proof.
  apply (run_nodes_sound example_lines example_final 100).
  - exact example_run.
  - reflexivity.
Defined.

(** X8: edges join registered endpoints.  In every state of a run, each
    end (pid, port) of an edge is an endpoint of that process: the node
    of the process exists and lists the port, and the registry maps the
    node's local IP with that port to the process. *)
Theorem run_edges_join_registered_endpoints (lines : list string) (s : State) (e : Edge) :
  createGraphFromStdin lines = Ok s ->
  e ∈ edges s ->
  (exists n, nodes s !! PID (Source e) = Some n
             /\ Port (Source e) ∈ pe_LocalPorts n
             /\ knownEndpoints s !! mkNetworkEndpoint (pe_LocalIP n) (Port (Source e))
                = Some (PID (Source e)))
  /\ (exists n, nodes s !! PID (Dest e) = Some n
                /\ Port (Dest e) ∈ pe_LocalPorts n
                /\ knownEndpoints s !! mkNetworkEndpoint (pe_LocalIP n) (Port (Dest e))
                   = Some (PID (Dest e))).
Proof.
  intros H Hin. assert (Hc : coherent s) by (apply reachable_coherent; by exists lines).
  destruct Hc as (_ & Hr & He & _).
  destruct (He e Hin) as (ip1 & ip2 & H1 & H2).
  split.
  - pose proof H1 as (n & Hn & <- & Hp)%Hr. exists n. done.
  - pose proof H2 as (n & Hn & <- & Hp)%Hr. exists n. done.
Qed.

Lemma run_edges_join_registered_endpoints_witness :
  (exists n, nodes example_final !! 100 = Some n
             /\ 443 ∈ pe_LocalPorts n
             /\ knownEndpoints example_final !! mkNetworkEndpoint (pe_LocalIP n) 443
                = Some 100)
  /\ (exists n, nodes example_final !! 200 = Some n
                /\ 8080 ∈ pe_LocalPorts n
                /\ knownEndpoints example_final !! mkNetworkEndpoint (pe_LocalIP n) 8080
                   = Some 200).
Proof.
  apply (run_edges_join_registered_endpoints example_lines example_final
           (mkEdge (mkProcessEndpoint 100 443) (mkProcessEndpoint 200 8080))).
  - exact example_run.
  - unfold example_final. cbn. apply elem_of_singleton. reflexivity.
Defined.



(** ** The stores, as a function of the observations *)

Lemma initState_explains : explains [] initState.
Proof.
  unfold explains, registered_by, drawn_by, initState. cbn.
  split; [|split; [|split]].
  - intros ep k. rewrite lookup_empty. split; [done|].
    by intros (o & ?%elem_of_nil & _).
  - intros e. rewrite elem_of_empty. split; [done|].
    intros (i & j & o & o' & _ & H & _). by rewrite lookup_nil in H.
  - intros k. rewrite lookup_empty. split; [by intros [? ?]|].
    by intros (o & ?%elem_of_nil & _).
  - intros k n. by rewrite lookup_empty.
Qed.

Lemma elem_of_edges_after ke o es e :
  e ∈ edges_after ke o es
  <-> e ∈ es \/ exists q, ke !! remoteEndpoint o = Some q /\ e = makeEdge o q.
Proof.
  unfold edges_after. destruct (ke !! remoteEndpoint o) as [q|].
  - rewrite elem_of_union, elem_of_singleton. split.
    + intros [->|H]; eauto.
    + intros [H|(q' & [= <-] & ->)]; auto.
  - split; [auto|]. intros [H|(q & [=] & _)]. done.
Qed.

Lemma processObservation_explains os0 s o s1 :
  explains os0 s -> processObservation s o = Ok s1 -> explains (os0 ++ [o]) s1.
Proof.
  intros (Hr & He & Hk & Hn) ([Hc1 Hc2] & Hn1 & Hk1 & He1)%processObservation_inv.
  assert (Hreg : forall ep k,
    knownEndpoints s1 !! ep = Some k <-> registered_by (os0 ++ [o]) ep k).
  { intros ep k. rewrite Hk1. unfold registered_by. split.
    - rewrite lookup_insert. case_decide as E.
      + intros [= <-]. exists o. rewrite elem_of_app, list_elem_of_singleton. auto.
      + intros (o' & Ho' & ? & ?)%Hr. exists o'. rewrite elem_of_app. auto.
    - intros (o' & [Ho'| ->%list_elem_of_singleton]%elem_of_app & <- & <-).
      + assert (H : knownEndpoints s !! localEndpoint o' = Some (ProcessID o'))
          by (apply Hr; by exists o').
        rewrite lookup_insert. case_decide as E; [|done].
        rewrite <- E in H. by rewrite (Hc2 _ H).
      + apply lookup_insert_eq. }
  split; [exact Hreg|]. split; [|split].
  - intros e. rewrite He1, elem_of_edges_after, <- Hk1. unfold drawn_by. split.
    + intros [(i & j & oi & oj & Hji & Hi & Hj & Hep & ->)%He|(q & Hq & ->)].
      * exists i, j, oi, oj. split; [done|].
        split; [by apply lookup_app_l_Some|]. split; [by apply lookup_app_l_Some|done].
      * apply Hreg in Hq as (o' & [j Hj]%list_elem_of_lookup_1 & Hep & <-).
        exists (length os0), j, o, o'.
        pose proof (lookup_lt_Some _ _ _ Hj) as Hlt.
        rewrite length_app in Hlt. simpl in Hlt.
        split; [lia|]. split; [by apply list_lookup_middle|done].
    + intros (i & j & oi & oj & Hji & Hi & Hj & Hep & ->).
      apply lookup_snoc_Some in Hi as [[Hlt Hi]|[-> <-]].
      * left. apply He. exists i, j, oi, oj. split; [done|]. split; [done|].
        split; [|done]. rewrite lookup_app_l in Hj by lia. done.
      * right. exists (ProcessID oj). split; [|done].
        apply Hreg. exists oj. split; [by eapply list_elem_of_lookup_2|done].
  - intros k. rewrite Hn1, lookup_insert_is_Some'. split.
    + intros [<-|(o' & Ho' & <-)%Hk].
      * exists o. rewrite elem_of_app, list_elem_of_singleton. auto.
      * exists o'. rewrite elem_of_app. auto.
    + intros (o' & [Ho'| ->%list_elem_of_singleton]%elem_of_app & <-); [|by left].
      right. apply Hk. by exists o'.
  - intros k n. rewrite Hn1, lookup_insert. case_decide as E.
    + intros [= <-]. subst k. split.
      * intros o' [Ho'| ->%list_elem_of_singleton]%elem_of_app Hpid;
          [|by apply upserted_node_identity].
        destruct (proj2 (Hk (ProcessID o)) (ex_intro _ o' (conj Ho' Hpid))) as [n0 Hn0].
        unfold upserted_node. rewrite Hn0. apply add_port_identity.
        by apply (Hn _ _ Hn0).
      * intros p. rewrite upserted_node_ports. split.
        -- intros [->|(n0 & Hn0 & Hp)].
           ++ exists o. rewrite elem_of_app, list_elem_of_singleton. auto.
           ++ apply (Hn _ _ Hn0) in Hp as (o' & Ho' & ? & ?).
              exists o'. rewrite elem_of_app. auto.
        -- intros (o' & [Ho'| ->%list_elem_of_singleton]%elem_of_app & Hpid & <-);
             [|by left].
           right.
           destruct (proj2 (Hk (ProcessID o)) (ex_intro _ o' (conj Ho' Hpid))) as [n0 Hn0].
           exists n0. split; [done|]. apply (Hn _ _ Hn0). by exists o'.
    + intros Hlk. destruct (Hn _ _ Hlk) as [Hid Hp]. split.
      * intros o' [Ho'| ->%list_elem_of_singleton]%elem_of_app Hpid; [by apply Hid|done].
      * intros p. rewrite Hp. split.
        -- intros (o' & Ho' & ? & ?). exists o'. rewrite elem_of_app. auto.
        -- intros (o' & [Ho'| ->%list_elem_of_singleton]%elem_of_app & Hpid & <-);
             [by exists o'|done].
Qed.

Lemma correlate_explains os : forall os0 s s',
  explains os0 s -> correlate s os = Ok s' -> explains (os0 ++ os) s'.
Proof.
  induction os as [|o os IH]; intros os0 s s' Hex; cbn [correlate].
  - intros [= <-]. by rewrite app_nil_r.
  - intros (s1 & H1 & H2)%bind_Ok_inv.
    rewrite (cons_middle o os0 os), app_assoc. eapply IH; [|done].
    by eapply processObservation_explains.
Qed.

Lemma run_explains lines s :
  createGraphFromStdin lines = Ok s -> explains (observations lines) s.
Proof.
  unfold createGraphFromStdin. rewrite scanLines_correlate.
  apply (correlate_explains _ [] initState), initState_explains.
Qed.

(** X10: the registry is the set of observed local endpoints.  After a
    run, an endpoint is registered to a process id exactly when an
    accepted line of the input reports it as the local endpoint of that
    process. *)
Theorem run_registry_is_observed (lines : list string) (s : State)
        (ep : NetworkEndpoint) (k : Z) :
  createGraphFromStdin lines = Ok s ->
  knownEndpoints s !! ep = Some k
  <-> exists o, o ∈ observations lines /\ localEndpoint o = ep /\ ProcessID o = k.
Proof. intros (Hr & _)%run_explains. apply Hr. Qed.

Lemma run_registry_is_observed_witness :
  exists o, o ∈ observations example_lines
            /\ localEndpoint o = mkNetworkEndpoint "10.0.0.9" 443 /\ ProcessID o = 100.
Proof.
  apply (run_registry_is_observed example_lines example_final).
  - exact example_run.
  - reflexivity.
Defined.

(** X11: the node store is the set of observed processes.  After a run
    there is a node for a process id exactly when an accepted line names
    that process; the node carries the identity that every accepted line
    of that process reports, and its ports are the local ports of those
    lines. *)
Theorem run_nodes_are_observed (lines : list string) (s : State) (k : Z) :
  createGraphFromStdin lines = Ok s ->
  (is_Some (nodes s !! k) <-> exists o, o ∈ observations lines /\ ProcessID o = k)
  /\ (forall n, nodes s !! k = Some n ->
        (forall o, o ∈ observations lines -> ProcessID o = k -> same_identity n o)
        /\ (forall p, p ∈ pe_LocalPorts n
                      <-> exists o, o ∈ observations lines
                                    /\ ProcessID o = k /\ LocalPort o = p)).
Proof.
  intros (_ & _ & Hk & Hn)%run_explains. split; [apply Hk|apply Hn].
Qed.

Lemma run_nodes_are_observed_witness :
  exists o, o ∈ observations example_lines /\ ProcessID o = 200.
Proof.
  apply (proj1 (run_nodes_are_observed example_lines example_final 200 example_run)).
  unfold example_final. cbn. rewrite lookup_insert_ne by discriminate.
  rewrite lookup_insert_eq. eauto.
Defined.

(** X12: the edge set, exactly.  After a run, the edge set holds the
    edge of an accepted observation exactly when its remote endpoint is
    the local endpoint of an accepted observation that does not come
    after it in the input (of an earlier line, or of the line itself);
    the edge joins the local ports of the two processes, in the direction
    of the observation that drew it.  An observation whose counterpart is
    seen only later draws nothing itself. *)
Theorem run_edges_are_resolved_observations (lines : list string) (s : State) (e : Edge) :
  createGraphFromStdin lines = Ok s ->
  e ∈ edges s
  <-> exists i j o o',
        (j <= i)%nat
        /\ observations lines !! i = Some o
        /\ observations lines !! j = Some o'
        /\ localEndpoint o' = remoteEndpoint o
        /\ e = makeEdge o (ProcessID o').
Proof. intros (_ & He & _)%run_explains. apply He. Qed.

Lemma run_edges_are_resolved_observations_witness :
  exists i j o o',
    (j <= i)%nat
    /\ observations example_lines !! i = Some o
    /\ observations example_lines !! j = Some o'
    /\ localEndpoint o' = remoteEndpoint o
    /\ mkEdge (mkProcessEndpoint 100 443) (mkProcessEndpoint 200 8080)
       = makeEdge o (ProcessID o').
Proof.
  apply (run_edges_are_resolved_observations example_lines example_final).
  - exact example_run.
  - unfold example_final. cbn. apply elem_of_singleton. reflexivity.
Defined.

(** ** When a run aborts *)

Lemma explains_consistent os0 s o :
  explains os0 s -> (forall o1, o1 ∈ os0 -> agree o1 o) -> consistent s o.
Proof.
  intros (Hr & _ & Hk & Hn) Hag. split.
  - intros n Hlk.
    destruct (proj1 (Hk (ProcessID o)) (ex_intro _ n Hlk)) as (o1 & Ho1 & Hpid).
    apply (same_identity_agree n o1 o); [by apply Hag|done|].
    by apply (Hn _ _ Hlk).
  - intros e (o1 & Ho1 & Hep & <-)%Hr. by apply (Hag o1).
Qed.

Lemma consistent_agree os0 s o o1 :
  explains os0 s -> consistent s o -> o1 ∈ os0 -> agree o1 o.
Proof.
  intros (Hr & _ & Hk & Hn) [Hc1 Hc2] Ho1. split.
  - intros Hpid.
    destruct (proj2 (Hk (ProcessID o)) (ex_intro _ o1 (conj Ho1 Hpid))) as [n Hlk].
    destruct (Hc1 n Hlk) as (_ & <- & <-).
    destruct (proj1 (Hn _ _ Hlk) o1 Ho1 Hpid) as (_ & <- & <-). done.
  - intros Hep. apply Hc2. apply Hr. by exists o1.
Qed.

Lemma agree_refl o : agree o o.
Proof. by split. Qed.

Lemma correlate_all_agree os : forall os0 s s',
  explains os0 s -> correlate s os = Ok s' ->
  forall o1 o2, o1 ∈ os0 ++ os -> o2 ∈ os -> agree o1 o2.
Proof.
  induction os as [|o os IH]; intros os0 s s' Hex; cbn [correlate].
  - intros _ o1 o2 _ ?%elem_of_nil. done.
  - intros (s1 & H1 & H2)%bind_Ok_inv o1 o2 Ho1 Ho2.
    pose proof (processObservation_explains _ _ _ _ Hex H1) as Hex1.
    pose proof (proj1 (processObservation_inv _ _ _ H1)) as Hc.
    specialize (IH _ _ _ Hex1 H2).
    assert (Hrest : forall x y, x ∈ (os0 ++ [o]) ++ os -> y ∈ os -> agree x y)
      by exact IH.
    apply elem_of_cons in Ho2 as [->|Ho2].
    + apply elem_of_app in Ho1 as [Ho1|Ho1].
      * by apply (consistent_agree os0 s).
      * apply elem_of_cons in Ho1 as [->|Ho1]; [apply agree_refl|].
        apply agree_sym. apply Hrest; [|done].
        rewrite !elem_of_app, list_elem_of_singleton. auto.
    + apply Hrest; [|done].
      rewrite (cons_middle o os0 os), app_assoc in Ho1. done.
Qed.

Lemma coherent_wf s : coherent s -> wf s.
Proof.
  intros (Hn & Hr & He & _). split; [|split].
  - intros k n Hlk. destruct (Hn _ _ Hlk) as (? & -> & _). done.
  - intros [ip p] pid (n & Hlk & _)%Hr. eauto.
  - intros e (ip1 & ip2 & (n1 & H1 & _)%Hr & (n2 & H2 & _)%Hr)%He. eauto.
Qed.

Lemma correlate_completes os : forall os0 s,
  coherent s -> explains os0 s -> all_agree (os0 ++ os) ->
  exists s', correlate s os = Ok s'.
Proof.
  induction os as [|o os IH]; intros os0 s Hcoh Hex Hag; cbn [correlate]; [eauto|].
  assert (Hc : consistent s o).
  { apply (explains_consistent os0); [done|]. intros o1 Ho1.
    apply Hag; rewrite elem_of_app, elem_of_cons; auto. }
  destruct (processObservation_ok s o (coherent_wf s Hcoh) Hc) as [s1 H1].
  rewrite H1. cbn.
  apply (IH (os0 ++ [o])).
  - by apply (processObservation_coherent s o).
  - by apply (processObservation_explains os0 s).
  - by rewrite <- app_assoc.
Qed.

(** X13: when a run aborts.  A run over the lines of the input
    completes exactly when the accepted observations agree two by two:
    those of one process id report one name and one local IP, and those of
    one local endpoint report one process id.  Nothing else makes a run
    panic. *)
Theorem run_completes_iff_all_agree (lines : list string) :
  (exists s, createGraphFromStdin lines = Ok s) <-> all_agree (observations lines).
Proof.
  unfold createGraphFromStdin. rewrite scanLines_correlate. split.
  - intros [s H] o1 o2 Ho1 Ho2.
    by apply (correlate_all_agree _ [] initState s initState_explains H).
  - intros Hag.
    apply (correlate_completes _ [] initState);
      [apply initState_coherent|apply initState_explains|done].
Qed.

(** ** Nothing is ever removed *)

Lemma grows_refl s : grows s s.
Proof.
  split; [|done]. intros k n Hn. exists n. done.
Qed.

Lemma grows_trans s1 s2 s3 : grows s1 s2 -> grows s2 s3 -> grows s1 s3.
Proof.
  intros (Hn & Hk & He & Hgn & Hge) (Hn' & Hk' & He' & Hgn' & Hge').
  split; [|split; [|split; [|split]]].
  - intros k n (n2 & H2 & E1 & E2 & E3 & E4 & P)%Hn.
    destruct (Hn' _ _ H2) as (n3 & H3 & F1 & F2 & F3 & F4 & P').
    exists n3. split; [done|]. repeat (split; [congruence|]). by etrans.
  - by etrans.
  - by etrans.
  - by etrans.
  - by etrans.
Qed.

Lemma processObservation_grows s o s' :
  processObservation s o = Ok s' -> grows s s'.
Proof.
  intros (s1 & s2 & H1 & H2 & H3)%processObservation_steps.
  destruct (upsert_register_inv s o s1 s2 H1 H2) as ([Hc1 Hc2] & Hn & Hk & He & Hg).
  apply (grows_trans s s2 s').
  - split; [|split; [|split; [|split]]].
    + intros k n Hlk. rewrite Hn, lookup_insert. case_decide as E.
      * subst k. exists (upserted_node s o). split; [done|].
        unfold upserted_node. rewrite Hlk. unfold add_port.
        case_bool_decide; cbn; repeat (split; [done|]); [done|].
        by apply prefix_app_r.
      * exists n. done.
    + rewrite Hk. destruct (knownEndpoints s !! localEndpoint o) as [e|] eqn:Hl.
      * rewrite (Hc2 e eq_refl) in Hl. by rewrite insert_id.
      * by apply insert_subseteq.
    + by rewrite He.
    + rewrite Hg. destruct (nodes s !! ProcessID o); [done|].
      unfold Graph_Node. case_bool_decide; cbn; [done|]. by apply prefix_app_r.
    + rewrite Hg. destruct (nodes s !! ProcessID o); [done|].
      unfold Graph_Node. by case_bool_decide.
  - apply drawEdge_cases in H3
      as [->|(q & _ & _ & Hn3 & Hk3 & He3 & Hgn3 & l & Hge3)]; [apply grows_refl|].
    split; [|split; [|split; [|split]]].
    + intros k n Hlk. exists n. by rewrite Hn3.
    + by rewrite Hk3.
    + rewrite He3. apply union_subseteq_r.
    + by rewrite Hgn3.
    + rewrite Hge3. by apply prefix_app_r.
Qed.

(** X14: a run only adds.  Whatever the lines, a state that a run
    reaches from another holds all that the earlier state held: every
    process keeps its node with the same id, name, local IP and graph
    handle, and its ports with new ones appended; every registered
    endpoint keeps its owner; every edge stays; the nodes and edges of the
    graph stay in the order they were drawn. *)
Theorem run_only_grows (s : State) (lines : list string) (s' : State) :
  scanLines s lines = Ok s' -> grows s s'.
Proof.
  revert s. induction lines as [|line lines IH]; intros s; cbn [scanLines].
  - intros [= <-]. apply grows_refl.
  - intros (s1 & H1 & H2)%bind_Ok_inv. apply (grows_trans s s1 s'); [|by apply IH].
    rewrite processLine_observation in H1.
    destruct (observation line) as [o|].
    + by apply (processObservation_grows s o).
    + injection H1 as <-. apply grows_refl.
Qed.

Lemma run_only_grows_witness : grows example_middle example_final.
Proof.
  apply (run_only_grows example_middle
           ["10.0.0.9:443->10.0.0.5:8080|PID=200 CMD=svcB"] example_final).
  vm_compute. reflexivity.
Defined.

(** ** One line, one process *)

(** X15: a turn of the loop is local.  Processing an accepted
    observation leaves the nodes of all other processes and the owners of
    all other endpoints as they are, and adds at most one edge, the edge
    of the observation itself. *)
Theorem observation_is_local (s : State) (line : string) (o : InputLine) (s' : State) :
  accepted line o ->
  processLine s line = Ok s' ->
  (forall k, k <> ProcessID o -> nodes s' !! k = nodes s !! k)
  /\ (forall ep, ep <> localEndpoint o -> knownEndpoints s' !! ep = knownEndpoints s !! ep)
  /\ (edges s' = edges s
      \/ exists q, knownEndpoints s' !! remoteEndpoint o = Some q
                   /\ edges s' = {[makeEdge o q]} ∪ edges s)
  /\ (size (edges s') <= S (size (edges s)))%nat.
Proof.
  intros Hacc. rewrite (processLine_accepted s line o Hacc).
  intros (_ & Hn & Hk & He)%processObservation_inv.
  split; [|split].
  - intros k Hne. by rewrite Hn, lookup_insert_ne.
  - intros ep Hne. by rewrite Hk, lookup_insert_ne.
  - rewrite He, Hk. unfold edges_after.
    destruct (_ !! remoteEndpoint o) as [q|]; [|split; [by left|lia]].
    split; [right; by exists q|].
    destruct (decide (makeEdge o q ∈ edges s)) as [Hin|Hout].
    + rewrite <- (union_singleton_elem _ _ Hin). lia.
    + rewrite size_union by (by apply disjoint_singleton_l).
      rewrite size_singleton. simpl. lia.
Qed.

Lemma observation_is_local_witness :
  nodes example_final !! 100
  = nodes (mkState (mkGraph [svcA_id] [])
                   (<[100 := mkProcessEndpoints 100 "svcA" "10.0.0.9" [443]
                               (mkNode true svcA_id)]> ∅)
                   (<[mkNetworkEndpoint "10.0.0.9" 443 := 100]> ∅) ∅) !! 100.
Proof.
  destruct (observation_is_local
              (mkState (mkGraph [svcA_id] [])
                 (<[100 := mkProcessEndpoints 100 "svcA" "10.0.0.9" [443]
                             (mkNode true svcA_id)]> ∅)
                 (<[mkNetworkEndpoint "10.0.0.9" 443 := 100]> ∅) ∅)
              "10.0.0.9:443->10.0.0.5:8080|PID=200 CMD=svcB"
              (mkInputLine Remote2Local "10.0.0.9" 443 "10.0.0.5" 8080 200 "svcB")
              example_final) as [H _].
  - split; vm_compute; reflexivity.
  - vm_compute. reflexivity.
  - apply H. discriminate.
Defined.

(** ** The three panics *)

(** X16: what a panic says.  From a state of a run, an accepted
    observation of a known process with another local IP panics with the
    message "assumption not respected:" followed by the stored and the
    reported IP; with the stored IP but another name, with "PID reuse??";
    and with a consistent identity but a local endpoint registered to
    another process, with "logical bug??".  The check of the stored
    process id against its key (line 170) never fires. *)
Theorem panic_messages (lines : list string) (s : State) (line : string) (o : InputLine) :
  createGraphFromStdin lines = Ok s ->
  accepted line o ->
  (forall n, nodes s !! ProcessID o = Some n ->
             pe_LocalIP n <> LocalIP o ->
             processLine s line
             = Panic ("assumption not respected: " +:+ pe_LocalIP n +:+ " " +:+ LocalIP o))
  /\ (forall n, nodes s !! ProcessID o = Some n ->
                pe_LocalIP n = LocalIP o ->
                pe_ProcessName n <> ProcessName o ->
                processLine s line = Panic "PID reuse??")
  /\ (forall e, (forall n, nodes s !! ProcessID o = Some n -> same_identity n o) ->
                knownEndpoints s !! localEndpoint o = Some e ->
                e <> ProcessID o ->
                processLine s line = Panic "logical bug??").
Proof.
  intros Hrun Hacc. rewrite (processLine_accepted s line o Hacc).
  assert (Hwf : wf s) by (apply reachable_wf; by exists lines).
  split; [|split].
  - intros n Hn Hip. unfold processObservation, upsertNode. rewrite Hn.
    apply String.eqb_neq in Hip. by rewrite Hip.
  - intros n Hn Hip Hname. unfold processObservation, upsertNode. rewrite Hn.
    destruct Hwf as (Hok & _). destruct (Hok _ _ Hn) as [Hid _].
    apply String.eqb_neq in Hname.
    by rewrite Hip, String.eqb_refl, Hid, Z.eqb_refl, Hname.
  - intros e Hc He Hne. unfold processObservation.
    destruct (upsertNode_ok s o Hc) as [s1 H1]. rewrite H1. cbn.
    apply upsertNode_inv in H1 as (_ & _ & Hk1 & _).
    unfold registerLocalEndpoint. fold (localEndpoint o). rewrite Hk1, He.
    apply Z.eqb_neq in Hne. by rewrite Hne.
Qed.

Lemma panic_messages_witness :
  processLine example_final "10.0.0.9:443->10.0.0.7:8080|PID=200 CMD=svcB"
  = Panic "assumption not respected: 10.0.0.5 10.0.0.7".
Proof.
  apply (proj1 (panic_messages example_lines example_final
                  "10.0.0.9:443->10.0.0.7:8080|PID=200 CMD=svcB"
                  (mkInputLine Remote2Local "10.0.0.9" 443 "10.0.0.7" 8080 200 "svcB")
                  example_run (conj eq_refl eq_refl))
               (mkProcessEndpoints 200 "svcB" "10.0.0.5" [8080] (mkNode true svcB_id))).
  - reflexivity.
  - discriminate.
Defined.

(** ** The two lines of one connection *)

Lemma initState_consistent o : consistent initState o.
Proof. split; intros x; cbn; rewrite lookup_empty; discriminate. Qed.

(** X17: the two lines of one connection give one edge.  Take any
    connection between the endpoints A and B, reported once by the
    process at B as outbound ([A<-B]) and once by the process at A as
    inbound ([B->A]), both lines passing the filter and the two reports
    agreeing.  Fed to the program in either order, the two lines make a
    run that completes with the same single edge: from the port at B of
    the first process to the port at A of the second. *)
Theorem mirrored_lines_one_edge (A pA B pB pid1 name1 pid2 name2 : string) :
  let o1 := mkInputLine Local2Remote A (dec_val pA) B (dec_val pB) (dec_val pid1) name1 in
  let o2 := mkInputLine Remote2Local B (dec_val pB) A (dec_val pA) (dec_val pid2) name2 in
  let l1 := shaped_line A pA "<-" B pB pid1 name1 in
  let l2 := shaped_line B pB "->" A pA pid2 name2 in
  address_field A = true -> number_field pA = true ->
  address_field B = true -> number_field pB = true ->
  number_field pid1 = true -> name_field name1 = true ->
  number_field pid2 = true -> name_field name2 = true ->
  IsValidLine o1 = true -> IsValidLine o2 = true ->
  agree o1 o2 ->
  exists s12 s21,
    createGraphFromStdin [l1; l2] = Ok s12
    /\ createGraphFromStdin [l2; l1] = Ok s21
    /\ edges s12 = {[mkEdge (mkProcessEndpoint (dec_val pid1) (dec_val pB))
                           (mkProcessEndpoint (dec_val pid2) (dec_val pA))]}
    /\ edges s21 = edges s12.
Proof.
  intros o1 o2 l1 l2 HA HpA HB HpB Hp1 Hn1 Hp2 Hn2 Hv1 Hv2 Hag.
  assert (Hobs1 : observation l1 = Some o1).
  { unfold observation, l1. rewrite parseLine_Local2Remote by done.
    fold o1. by rewrite Hv1. }
  assert (Hobs2 : observation l2 = Some o2).
  { unfold observation, l2. rewrite parseLine_Remote2Local by done.
    fold o2. by rewrite Hv2. }
  assert (Hm : mirror o1 o2) by done.
  unfold createGraphFromStdin. rewrite !scanLines_correlate.
  unfold observations. cbn [omap list_omap]. rewrite Hobs1, Hobs2. cbn [correlate].
  destruct (outbound_then_inbound_ok o1 o2 initState initState_wf
              (initState_consistent o1) (initState_consistent o2) Hag) as [s12 H12].
  destruct (inbound_then_outbound_ok o1 o2 initState initState_wf
              (initState_consistent o1) (initState_consistent o2) Hag) as [s21 H21].
  exists s12, s21.
  pose proof H12 as (s1 & Ha & Hb)%bind_Ok_inv.
  pose proof H21 as (s2 & Hc & Hd)%bind_Ok_inv.
  pose proof (outbound_then_inbound_edges o1 o2 Hm initState s1 s12 Ha Hb) as E12.
  pose proof (inbound_then_outbound_edges o1 o2 Hm initState s2 s21 Hc Hd) as E21.
  unfold mbind, result_bind in *. rewrite Ha, Hb, Hc, Hd.
  split; [done|]. split; [done|].
  rewrite E12, E21. cbn. rewrite (right_id_L ∅ (∪)). done.
Qed.

Lemma mirrored_lines_one_edge_witness :
  exists s12 s21,
    createGraphFromStdin ["10.0.0.5:8080<-10.0.0.9:443|PID=100 CMD=svcA";
                          "10.0.0.9:443->10.0.0.5:8080|PID=200 CMD=svcB"] = Ok s12
    /\ createGraphFromStdin ["10.0.0.9:443->10.0.0.5:8080|PID=200 CMD=svcB";
                             "10.0.0.5:8080<-10.0.0.9:443|PID=100 CMD=svcA"] = Ok s21
    /\ edges s12 = {[mkEdge (mkProcessEndpoint 100 443) (mkProcessEndpoint 200 8080)]}
    /\ edges s21 = edges s12.
Proof.
  apply (mirrored_lines_one_edge "10.0.0.5" "8080" "10.0.0.9" "443"
           "100" "svcA" "200" "svcB");
    try reflexivity.
  split; discriminate.
Defined.
